(** * VectorCode: the incremental synchronisation pass

    A shallow embedding of [vectorcode/subcommands/vectorise.py], of
    [make_or_get_collection], [get_embedding_function] and [verify_ef]
    from [vectorcode/common.py], and of [vectorcode/subcommands/ls.py].

    - The remote ChromaDB collection is an in-memory list of records in
      insertion order.  Every remote call may fail, as decided by a fault
      oracle indexed by the number of calls issued so far; a failed call
      raises and leaves the collection as it was.
    - [get_uuid()] is a counter: the n-th id minted is [n].
    - The filesystem, the chunker, [pathspec] and the helpers of
      [cli_utils] are parameters, gathered in the class [Environment];
      the filesystem does not change during a pass.
    - The code runs in a state and exception monad over a [world] that
      also records what the pass emits: remote calls, counter updates
      and printed lines.
    - The asyncio tasks spawned by [vectorise] are driven by an explicit
      schedule.  A task can be preempted only at an [await], and the
      collection lock makes every locked region indivisible with respect
      to the collection, so a task advances in three indivisible stages:
      the query, the delete with the counter increment, and the upload.
      The exception of a task ends the pass at once.  [get_client] and
      the progress bar are left out. *)

From stdpp Require Import gmap strings list fin_maps pretty.
From Stdlib Require Import ZArith QArith.QArith_base.

Open Scope Z_scope.
#[local] Set Warnings "-clear-no-such-hyp".

(** ** Values stored in ChromaDB metadata *)

Inductive metaval :=
| MStr (s : string)
| MInt (z : Z)
| MBool (b : bool).

#[global] Instance metaval_eq_dec : EqDecision metaval.
Proof. solve_decision. Defined.

(** Python truthiness of a metadata value. *)
Definition truthy (v : metaval) : bool :=
  match v with
  | MStr s => negb (bool_decide (s = EmptyString))
  | MInt z => negb (z =? 0)
  | MBool b => b
  end.

(** [isinstance(v, str)] *)
Definition is_str (v : metaval) : bool :=
  match v with MStr _ => true | _ => false end.

(** [v != s] for a Python string [s]. *)
Definition ne_str (v : metaval) (s : string) : bool :=
  match v with
  | MStr t => negb (bool_decide (t = s))
  | _ => true
  end.

(** ** Records of the remote collection

    [r_id] is the position of the record's uuid in the sequence of uuids
    minted so far.  [r_metadata] is the record's metadata as [get]
    returns it, reduced to its ["path"] entry: [None] for a record
    stored without metadata, [Some None] for a dict without the key,
    [Some (Some v)] for a dict that holds [v] under it. *)

Record record := Record_ {
  r_id : nat;
  r_doc : string;
  r_metadata : option (option metaval) }.

#[global] Instance record_eq_dec : EqDecision record.
Proof. solve_decision. Defined.

(** The value under the key ["path"] of the record's metadata, [None]
    when the record has no such entry. *)
Definition r_path (r : record) : option metaval :=
  match r_metadata r with
  | Some path => path
  | None => None
  end.

(** What the embedding function sees of a record: its document and its
    path. *)
Definition content (r : record) : string * option metaval :=
  (r_doc r, r_path r).

(** The filter [where={"path": p}]. *)
Definition has_path (p : string) (r : record) : Prop :=
  r_path r = Some (MStr p).

#[global] Instance has_path_dec p r : Decision (has_path p r).
Proof. unfold has_path. apply _. Defined.

(** The filter [where={"path": {"$in": ps}}]. *)
Definition path_in (ps : list string) (r : record) : Prop :=
  ∃ p, p ∈ ps ∧ has_path p r.

#[global] Instance path_in_dec ps r : Decision (path_in ps r).
Proof.
  unfold path_in, has_path.
  destruct (r_path r) as [[s| |]|].
  - destruct (decide (s ∈ ps)) as [Hin|Hout].
    + left. by exists s.
    + right. intros (p & Hp & [= ->]). done.
  - right. by intros (p & _ & ?).
  - right. by intros (p & _ & ?).
  - right. by intros (p & _ & ?).
Defined.

(** ** The shared counters [stats] *)

Record stats := Stats {
  s_add : Z;
  s_update : Z;
  s_removed : Z }.

Inductive counter := Add | Update.

Definition bump (k : counter) (s : stats) : stats :=
  match k with
  | Add => Stats (s_add s + 1) (s_update s) (s_removed s)
  | Update => Stats (s_add s) (s_update s + 1) (s_removed s)
  end.

Definition set_removed (n : Z) (s : stats) : stats :=
  Stats (s_add s) (s_update s) n.

(** ** Remote calls, exceptions and the observable trace *)

Inductive call :=
| GetOrCreate
| MaxBatchSize
| GetWhere (p : string)
| DeleteWhere (p : string)
| AddBatch (ids : list nat) (docs : list string) (path : string)
| GetAll
| DeleteIn (ps : list string).

Inductive exn :=
| RemoteError (c : call)
| OSError (p : string)
| ValueError
| KeyError
| TypeError
| AttributeError
| IndexError
| CancelledError.

Inductive event :=
| ECall (c : call) (ok : bool)
| EIncr (k : counter)
| ESetRemoved (n : Z)
| EStdout (line : string)
| EStderr (line : string)
| EShowJson (s : stats)
| EShowTable (s : stats).

#[global] Instance call_eq_dec : EqDecision call.
Proof. solve_decision. Defined.
#[global] Instance exn_eq_dec : EqDecision exn.
Proof. solve_decision. Defined.

(** ** The world a pass runs in *)

Record world := World {
  w_meta : option (gmap string metaval);
  w_coll : list record;
  w_stats : stats;
  w_uuid : nat;
  w_calls : nat;
  w_trace : list event }.

Definition tick (w : world) : world :=
  World (w_meta w) (w_coll w) (w_stats w) (w_uuid w) (S (w_calls w))
        (w_trace w).

Definition set_coll (f : list record → list record) (w : world) : world :=
  World (w_meta w) (f (w_coll w)) (w_stats w) (w_uuid w) (w_calls w)
        (w_trace w).

Definition set_meta (m : gmap string metaval) (w : world) : world :=
  World (Some m) (w_coll w) (w_stats w) (w_uuid w) (w_calls w)
        (w_trace w).

Definition set_stats (f : stats → stats) (w : world) : world :=
  World (w_meta w) (w_coll w) (f (w_stats w)) (w_uuid w) (w_calls w)
        (w_trace w).

Definition log (e : event) (w : world) : world :=
  World (w_meta w) (w_coll w) (w_stats w) (w_uuid w) (w_calls w)
        (w_trace w ++ [e]).

(** ** A state and exception monad *)

Definition M (A : Type) : Type := world → (exn + A) * world.

Definition ret {A} (a : A) : M A := λ w, (inr a, w).
Definition raise {A} (e : exn) : M A := λ w, (inl e, w).
Definition bind {A B} (m : M A) (k : A → M B) : M B :=
  λ w, match m w with
       | (inl e, w') => (inl e, w')
       | (inr a, w') => k a w'
       end.

Notation "'let*' x ':=' m 'in' k" := (bind m (λ x, k))
  (at level 10, x name, m at level 100, k at level 200).
Notation "'run' m 'in' k" := (bind m (λ _, k))
  (at level 10, m at level 100, k at level 200).

Definition emit (e : event) : M unit := λ w, (inr tt, log e w).

(** [stats[k] += 1] *)
Definition incr (k : counter) : M unit :=
  λ w, (inr tt, log (EIncr k) (set_stats (bump k) w)).

(** Python's [range(0, stop, step)] for [step > 0]. *)
Definition py_range0 (stop step : nat) : list nat :=
  (λ k, k * step)%nat <$> seq 0 ((stop + step - 1) / step)%nat.

(** The slice [l[idx : idx + step]]. *)
Definition py_slice {A} (l : list A) (idx step : nat) : list A :=
  take step (drop idx l).

(** The slices [chunked_add] hands to [collection.add], in order:
    [chunks[idx : idx + max_batch_size]] for [idx] in
    [range(0, len(chunks), max_batch_size)].  A zero step makes [range]
    raise [ValueError]; a negative step gives the empty range. *)
Definition batches (max_batch_size : Z) (chunks : list string)
  : option (list (list string)) :=
  if max_batch_size =? 0 then None
  else if max_batch_size <? 0 then Some []
  else
    let m := Z.to_nat max_batch_size in
    Some ((λ idx, py_slice chunks idx m) <$> py_range0 (length chunks) m).

(** ** Configuration

    The fields of [cli_utils.Config] the pass reads.  [overlap_ratio] is
    only handed on to the chunker. *)

Record Config := {
  files : list string;
  recursive : bool;
  project_root : string;
  force : bool;
  pipe : bool;
  chunk_size : Z;
  overlap_ratio : Q;
  embedding_function : string;
  embedding_params : gmap string metaval }.

(** [str(v)] as interpolated by an f-string. *)
Definition show (v : metaval) : string :=
  match v with
  | MStr s => s
  | MInt z => pretty z
  | MBool true => "True"
  | MBool false => "False"
  end.

(** The result of [metadata.get(k)]: a value, or Python's [None]. *)
Definition truthy_opt (o : option metaval) : bool :=
  match o with Some v => truthy v | None => false end.

(** [o != s] for a string [s]. *)
Definition ne_str_opt (o : option metaval) (s : string) : bool :=
  match o with Some v => ne_str v s | None => true end.

(** [o != d] for a dict [d]: neither [None] nor a str, an int or a bool
    equals a dict. *)
Definition ne_dict_opt (o : option metaval) (d : gmap string metaval)
  : bool := true.

Definition show_opt (o : option metaval) : string :=
  match o with Some v => show v | None => "None" end.

(** A task created by [asyncio.create_task(chunked_add(file, ...))] is
    at one of these points. *)
Inductive phase :=
| Query
| Reconcile (num_existing_chunks : nat)
| Upload
| Done.

Definition finished (ph : phase) : bool :=
  match ph with Done => true | _ => false end.

(** What the event loop does next: resume the [i]-th task until its
    next suspension, or deliver a cancellation to [vectorise]. *)
Inductive sched_event :=
| Resume (i : nat)
| Cancel.

(** ** The environment of a pass

    What the pass finds outside itself, and the functions of this
    package and of its dependencies that are not part of the pass. *)

Class Environment := {
  (** Whether the remote call number [n] of the pass fails. *)
  faulty : nat → bool;
  (** [client.get_max_batch_size()] *)
  remote_max_batch_size : Z;
  (** [os.path.isfile], and the content [open(p)] gives, if any. *)
  isfile : string → bool;
  open_file : string → option string;
  (** [os.path.join] and [os.path.relpath]. *)
  path_join : string → string → string;
  relpath : string → string → string;
  (** [socket.gethostname()] and [os.environ["USER"]]. *)
  hostname : string;
  user : string;
  (** [cli_utils.expand_path(p, True)] and [cli_utils.expand_globs]. *)
  expand_path : string → string;
  expand_globs : list string → bool → list string;
  (** [hasattr(chromadb.utils.embedding_functions, name)], and for a
      name the module has, the exception that calling it with the
      keyword arguments [params] raises, if any. *)
  has_embedding_function : string → bool;
  embedding_function_raises : string → gmap string metaval → option exn;
  (** [list(FileChunker(chunk_size, overlap_ratio).chunk(fin))] *)
  FileChunker : Z → Q → string → list string;
  (** [GitIgnoreSpec.from_lines(fin.readlines()).match_file(file)] for a
      [.gitignore] of the given content. *)
  match_file : string → string → bool }.

Section Pass.

Context {env : Environment}.

(** *** Remote calls *)

(** One awaited call: a failed call raises and leaves the remote side
    as it was. *)
Definition remote {A} (c : call) (answer : world → A)
    (effect : world → world) : M A :=
  λ w,
    if faulty (w_calls w)
    then (inl (RemoteError c), log (ECall c false) (tick w))
    else (inr (answer w), log (ECall c true) (effect (tick w))).

(** [collection.get(where={"path": p})["ids"]] *)
Definition coll_get (p : string) : M (list nat) :=
  remote (GetWhere p) (λ w, r_id <$> filter (has_path p) (w_coll w)) id.

(** [collection.delete(where={"path": p})] *)
Definition coll_delete (p : string) : M unit :=
  remote (DeleteWhere p) (λ _, tt)
    (set_coll (filter (λ r, ¬ has_path p r))).

(** [collection.add(ids, documents, metadatas)] where every entry of
    [metadatas] is [{"path": p}]. *)
Definition new_records (ids : list nat) (docs : list string) (p : string)
  : list record :=
  zip_with (λ i d, Record_ i d (Some (Some (MStr p)))) ids docs.

Definition coll_add (ids : list nat) (docs : list string) (p : string)
  : M unit :=
  remote (AddBatch ids docs p) (λ _, tt)
    (set_coll (λ c, c ++ new_records ids docs p)).

(** [collection.get(include=[metadatas])["metadatas"]], each entry
    reduced to its ["path"] value. *)
Definition coll_get_all : M (list (option (option metaval))) :=
  remote GetAll (λ w, r_metadata <$> w_coll w) id.

(** [collection.delete(where={"path": {"$in": ps}})] *)
Definition coll_delete_in (ps : list string) : M unit :=
  remote (DeleteIn ps) (λ _, tt)
    (set_coll (filter (λ r, ¬ path_in ps r))).

(** [[get_uuid() for _ in range(n)]] *)
Definition get_uuids (n : nat) : M (list nat) :=
  λ w, (inr (seq (w_uuid w) n),
        World (w_meta w) (w_coll w) (w_stats w) (w_uuid w + n)%nat
              (w_calls w) (w_trace w)).

Definition open_ (p : string) : M string :=
  match open_file p with
  | Some text => ret text
  | None => raise (OSError p)
  end.

(** *** [chunked_add], by its three indivisible stages *)

(** Lines 39-47: the number of stored chunks of the file. *)
Definition existing_chunks (full_path_str : string) : M nat :=
  let* ids := coll_get full_path_str in
  ret (length ids).

(** Lines 48-55: drop the stored chunks and count the file. *)
Definition reconcile (full_path_str : string) (num_existing_chunks : nat)
  : M unit :=
  if bool_decide (num_existing_chunks ≠ 0%nat) then
    run coll_delete full_path_str in
    incr Update
  else
    incr Add.

(** Lines 60-66: one [collection.add] per slice. *)
Fixpoint add_batches (full_path_str : string) (bs : list (list string))
  : M unit :=
  match bs with
  | [] => ret tt
  | inserted_chunks :: bs' =>
      let* ids := get_uuids (length inserted_chunks) in
      run coll_add ids inserted_chunks full_path_str in
      add_batches full_path_str bs'
  end.

(** Lines 56-58: the chunks of the file followed by its path relative
    to the project root. *)
Definition file_chunks (configs : Config) (full_path_str text : string)
  : list string :=
  FileChunker (chunk_size configs) (overlap_ratio configs) text
    ++ [relpath full_path_str (project_root configs)].

(** Lines 56-66. *)
Definition upload (configs : Config) (max_batch_size : Z)
    (full_path_str : string) : M unit :=
  let* text := open_ full_path_str in
  let chunks := file_chunks configs full_path_str text in
  match batches max_batch_size chunks with
  | None => raise ValueError
  | Some bs => add_batches full_path_str bs
  end.

Definition chunked_add (configs : Config) (max_batch_size : Z)
    (file_path : string) : M unit :=
  let full_path_str := expand_path file_path in
  let* num_existing_chunks := existing_chunks full_path_str in
  run reconcile full_path_str num_existing_chunks in
  upload configs max_batch_size full_path_str.

(** One resumption of a task: it runs up to its next suspension. *)
Definition stage (configs : Config) (max_batch_size : Z)
    (file_path : string) (ph : phase) : M phase :=
  let full_path_str := expand_path file_path in
  match ph with
  | Query =>
      let* n := existing_chunks full_path_str in
      ret (Reconcile n)
  | Reconcile n =>
      run reconcile full_path_str n in
      ret Upload
  | Upload =>
      run upload configs max_batch_size full_path_str in
      ret Done
  | Done => ret Done
  end.

(** *** The loop over [asyncio.as_completed(tasks)] *)

(** The event loop resumes task [i]. *)
Definition resume (configs : Config) (max_batch_size : Z) (i : nat)
    (tasks : list (string * phase)) : M (list (string * phase)) :=
  match tasks !! i with
  | Some (file, ph) =>
      let* ph' := stage configs max_batch_size file ph in
      ret (<[i := (file, ph')]> tasks)
  | None => ret tasks
  end.

(** The tasks after the given resumptions. *)
Fixpoint advance (configs : Config) (max_batch_size : Z)
    (resumed : list nat) (tasks : list (string * phase))
  : M (list (string * phase)) :=
  match resumed with
  | [] => ret tasks
  | i :: resumed' =>
      let* tasks' := resume configs max_batch_size i tasks in
      advance configs max_batch_size resumed' tasks'
  end.

(** Resuming each of [n] tasks three times, in order, takes every one
    of them to its end. *)
Definition completion (n : nat) : list nat :=
  concat ((λ i, [i; i; i]) <$> seq 0 n).

(** The tasks advance as the schedule says; an exception of a task
    surfaces at [await task]; a cancellation is delivered only while
    some task is unfinished; once the schedule is used up the
    remaining tasks run to their end in order. *)
Fixpoint gather (configs : Config) (max_batch_size : Z)
    (sched : list sched_event) (tasks : list (string * phase)) : M unit :=
  match sched with
  | [] =>
      run advance configs max_batch_size (completion (length tasks)) tasks
      in ret tt
  | Cancel :: _ =>
      if forallb (λ t, finished t.2) tasks then ret tt
      else raise CancelledError
  | Resume i :: sched' =>
      let* tasks' := resume configs max_batch_size i tasks in
      gather configs max_batch_size sched' tasks'
  end.

(** *** [common.py]: acquiring and checking the collection *)

Definition catch {A} (m : M A) (e : exn) (handler : M A) : M A :=
  λ w, match m w with
       | (inl e', w') =>
           if decide (e' = e) then handler w' else (inl e', w')
       | (inr a, w') => (inr a, w')
       end.

(** [d.get(k) == s] *)
Definition get_eq (d : gmap string metaval) (k s : string) : bool :=
  bool_decide (d !! k = Some (MStr s)).

Definition new_metadata (configs : Config) (full_path : string)
  : gmap string metaval :=
  <["path" := MStr full_path]>
    (<["hostname" := MStr hostname]>
      (<["created-by" := MStr "VectorCode"]>
        (<["username" := MStr user]>
          (<["embedding_function" := MStr (embedding_function configs)]>
            ∅)))).

(** [client.get_or_create_collection(name, metadata=...)]: an existing
    collection keeps its metadata. *)
Definition get_or_create_collection (metadata : gmap string metaval)
  : M (gmap string metaval) :=
  remote GetOrCreate (λ w, default metadata (w_meta w))
    (λ w, set_meta (default metadata (w_meta w)) w).

(** [get_embedding_function]: the configured function is looked up and
    called with the configured parameters.  An [AttributeError], of the
    lookup of an unknown name or of the call, is reported and the
    default function taken instead; any other exception of the call
    goes to the caller.  The default function is taken to be
    constructible, and the function object itself plays no part in the
    pass. *)
Definition get_embedding_function (configs : Config) : M unit :=
  catch
    (if has_embedding_function (embedding_function configs) then
       match embedding_function_raises (embedding_function configs)
               (embedding_params configs) with
       | Some e => raise e
       | None => ret tt
       end
     else raise AttributeError)
    AttributeError
    (emit (EStderr ("Failed to use " +:+ embedding_function configs
                    +:+ ". Falling back to Sentence Transformer."))).

Definition make_or_get_collection (configs : Config)
  : M (gmap string metaval) :=
  let full_path := expand_path (project_root configs) in
  run get_embedding_function configs in
  let* metadata :=
    get_or_create_collection (new_metadata configs full_path) in
  if negb (get_eq metadata "hostname" hostname)
     || negb (get_eq metadata "username" user)
     || negb (get_eq metadata "created-by" "VectorCode")
  then raise IndexError
  else ret metadata.

Definition verify_ef (metadata : gmap string metaval) (configs : Config)
  : M bool :=
  let collection_ef := metadata !! "embedding_function" in
  let collection_ep := metadata !! "embedding_params" in
  if truthy_opt collection_ef
     && ne_str_opt collection_ef (embedding_function configs)
  then
    run emit (EStdout ("The collection was embedded using "
                       +:+ show_opt collection_ef +:+ ".")) in
    run emit (EStdout "Embeddings and query must use the same embedding function and parameters. Please double-check your config.") in
    ret false
  else if truthy_opt collection_ep
          && ne_dict_opt collection_ep (embedding_params configs)
  then
    run emit (EStderr ("The collection was embedded with a different set of configurations: "
                       +:+ show_opt collection_ep +:+ ".")) in
    run emit (EStderr "The result may be inaccurate.") in
    ret true
  else ret true.

(** *** [vectorise] *)

(** Lines 93-104. *)
Definition select_files (configs : Config) : M (list string) :=
  let gitignore_path := path_join (project_root configs) ".gitignore" in
  let files_ := expand_globs (files configs) (recursive configs) in
  if isfile gitignore_path then
    let* gitignore := open_ gitignore_path in
    ret (filter (λ file, force configs || negb (match_file gitignore file))
                files_)
  else ret files_.

Definition get_max_batch_size : M Z :=
  remote MaxBatchSize (λ _, remote_max_batch_size) id.

(** Lines 140-143, over the ["path"] values of the stored metadata. *)
Definition orphan_paths (paths : list metaval) : gset string :=
  foldl (λ orphanes path,
           match path with
           | MStr p => if isfile p then orphanes else orphanes ∪ {[p]}
           | _ => orphanes
           end) ∅ paths.

(** [meta["path"] for meta in metadatas], as far as the loop gets: at
    the first entry without a path, [meta["path"]] raises [TypeError]
    when [meta] is [None] and [KeyError] when it is a dict without the
    key. *)
Fixpoint path_values (metadatas : list (option (option metaval)))
  : exn + list metaval :=
  match metadatas with
  | [] => inr []
  | None :: _ => inl TypeError
  | Some None :: _ => inl KeyError
  | Some (Some path) :: metadatas' =>
      match path_values metadatas' with
      | inl e => inl e
      | inr paths => inr (path :: paths)
      end
  end.

(** Lines 136-147. *)
Definition remove_orphans : M unit :=
  let* metadatas := coll_get_all in
  if bool_decide (metadatas ≠ []) then
    match path_values metadatas with
    | inl e => raise e
    | inr paths =>
        let orphanes := orphan_paths paths in
        run (λ w, (inr tt,
                   log (ESetRemoved (Z.of_nat (size orphanes)))
                     (set_stats (set_removed (Z.of_nat (size orphanes))) w)))
        in
        if bool_decide (size orphanes ≠ 0%nat)
        then coll_delete_in (elements orphanes)
        else ret tt
    end
  else ret tt.

Definition show_stats (configs : Config) : M unit :=
  λ w, if pipe configs
       then emit (EShowJson (w_stats w)) w
       else emit (EShowTable (w_stats w)) w.

Definition spawn (files_ : list string) : list (string * phase) :=
  (λ file, (file, Query)) <$> files_.

(** Lines 106-150. *)
Definition sync (configs : Config) (files_ : list string)
    (sched : list sched_event) : M Z :=
  run (λ w, (inr tt, set_stats (λ _, Stats 0 0 0) w)) in
  let* max_batch_size := get_max_batch_size in
  let* gathered :=
    catch (run gather configs max_batch_size sched (spawn files_) in
           ret true)
      CancelledError
      (run emit (EStderr "Abort.") in ret false) in
  if gathered then
    run remove_orphans in
    run show_stats configs in
    ret 0
  else ret 1.

Definition vectorise (configs : Config) (sched : list sched_event) : M Z :=
  let* collection :=
    catch (let* c := make_or_get_collection configs in ret (Some c))
      IndexError
      (run emit (EStdout "Failed to get/create the collection. Please check your config.") in
       ret None) in
  match collection with
  | None => ret 1
  | Some collection =>
      let* ok := verify_ef collection configs in
      if negb ok then ret 1
      else
        let* files_ := select_files configs in
        sync configs files_ sched
  end.

(** ** Properties *)

(** The documents of the [collection.add] calls of a trace, in order. *)
Definition add_calls (T : list event) : list (list string) :=
  omap (λ e, match e with
             | ECall (AddBatch _ docs _) _ => Some docs
             | _ => None
             end) T.

Lemma add_calls_app T1 T2 : add_calls (T1 ++ T2) = add_calls T1 ++ add_calls T2.
Proof. apply omap_app. Qed.

(** *** Filters *)

Lemma filter_all {A} (P : A → Prop) `{!∀ x, Decision (P x)} (l : list A) :
  (∀ x, x ∈ l → P x) → filter P l = l.
Proof.
  induction l as [|x l IH]; intros Hall; [done|].
  rewrite filter_cons_True by (apply Hall; left).
  f_equal. apply IH. intros y Hy. apply Hall. by right.
Qed.

Lemma filter_none {A} (P : A → Prop) `{!∀ x, Decision (P x)} (l : list A) :
  (∀ x, x ∈ l → ¬ P x) → filter P l = [].
Proof.
  induction l as [|x l IH]; intros Hall; [done|].
  rewrite filter_cons_False by (apply Hall; left).
  apply IH. intros y Hy. apply Hall. by right.
Qed.

(** *** Slicing *)

Lemma concat_slices {A} (l : list A) (m k : nat) :
  concat ((λ idx, py_slice l idx m) <$> ((λ i, i * m)%nat <$> seq 0 k))
  = take (k * m) l.
Proof.
  induction k as [|k IH]; [done|].
  rewrite seq_S, !fmap_app, concat_app, IH. simpl.
  rewrite app_nil_r. unfold py_slice.
  rewrite take_take_drop. f_equal. lia.
Qed.

Lemma py_range0_covers (stop step : nat) :
  (0 < step)%nat → (stop ≤ (stop + step - 1) / step * step)%nat.
Proof.
  intros Hstep.
  pose proof (Nat.div_mod_eq (stop + step - 1) step) as Hdm.
  pose proof (Nat.mod_upper_bound (stop + step - 1) step) as Hub.
  nia.
Qed.

Lemma batches_partition (m : Z) (chunks : list string) :
  1 ≤ m →
  ∃ bs, batches m chunks = Some bs
        ∧ concat bs = chunks
        ∧ Forall (λ b, (length b ≤ Z.to_nat m)%nat) bs.
Proof.
  intros Hm. unfold batches.
  destruct (Z.eqb_spec m 0) as [|_]; [lia|].
  destruct (Z.ltb_spec m 0) as [|_]; [lia|].
  eexists. split; [done|]. split.
  - unfold py_range0. rewrite concat_slices.
    apply take_ge, py_range0_covers. lia.
  - apply Forall_fmap, Forall_forall. intros idx _. simpl.
    unfold py_slice. rewrite length_take. lia.
Qed.

Lemma add_batches_calls p bs w r w' :
  add_batches p bs w = (r, w') →
  ∃ T, w_trace w' = w_trace w ++ T
       ∧ add_calls T `prefix_of` bs
       ∧ (r = inr tt → add_calls T = bs).
Proof.
  revert w. induction bs as [|b bs IH]; intros w Hrun; simpl in Hrun.
  - injection Hrun as <- <-. exists []. by rewrite app_nil_r.
  - unfold bind, get_uuids, coll_add, remote in Hrun. simpl in Hrun.
    destruct (faulty (w_calls w)) eqn:Hf.
    + injection Hrun as <- <-. eexists [_]. split; [done|]. simpl.
      split; [by exists bs|done].
    + apply IH in Hrun as (T & HT & Hpre & Hall). simpl in HT.
      eexists (_ :: T). split; [by rewrite HT, <- app_assoc|].
      simpl. split; [by apply prefix_cons|].
      intros Hr. by rewrite Hall.
Qed.

Lemma new_records_app ids1 ids2 docs1 docs2 p :
  length ids1 = length docs1 →
  new_records (ids1 ++ ids2) (docs1 ++ docs2) p
  = new_records ids1 docs1 p ++ new_records ids2 docs2 p.
Proof. intros. by apply zip_with_app. Qed.

(** An insert call of the upload of [p]: as many ids as documents, no
    id twice, the path [p]. *)
Definition insert_of (p : string) (e : event) : Prop :=
  ∃ ids docs ok,
    e = ECall (AddBatch ids docs p) ok
    ∧ length ids = length docs ∧ NoDup ids.

(** A remote call that returned. *)
Definition returned (e : event) : Prop := ∃ c, e = ECall c true.

Lemma add_batches_outcome p bs w r w' :
  add_batches p bs w = (r, w') →
  ∃ T,
    w_trace w' = w_trace w ++ T
    ∧ Forall (insert_of p) T
    ∧ (r = inr tt ∧ Forall returned T
       ∨ ∃ T0 ids docs,
           T = T0 ++ [ECall (AddBatch ids docs p) false]
           ∧ Forall returned T0
           ∧ r = inl (RemoteError (AddBatch ids docs p)))
    ∧ ((∀ n, (w_calls w ≤ n)%nat → faulty n = false) → r = inr tt)
    ∧ (r = inr tt →
       w_coll w' =
         w_coll w ++ new_records (seq (w_uuid w) (length (concat bs)))
                       (concat bs) p).
Proof.
  revert w. induction bs as [|b bs IH]; intros w Hrun; simpl in Hrun.
  - injection Hrun as <- <-. exists []. rewrite !app_nil_r.
    split; [done|]. split; [constructor|]. split; [left; by split|done].
  - assert (insert_of p (ECall (AddBatch (seq (w_uuid w) (length b)) b p)
                           (negb (faulty (w_calls w))))) as Hins.
    { eexists _, _, _. split; [done|]. split; [by rewrite length_seq|].
      apply NoDup_seq. }
    unfold bind, get_uuids, coll_add, remote in Hrun. simpl in Hrun.
    destruct (faulty (w_calls w)) eqn:Hf.
    + injection Hrun as <- <-. eexists [_]. split; [done|].
      split; [by constructor|]. split.
      * right. exists [], (seq (w_uuid w) (length b)), b. by split.
      * split; [|done]. intros Hnf. rewrite Hnf in Hf by lia. done.
    + apply IH in Hrun as (T & HT & Hall & Hcase & Hnf & Hcoll).
      simpl in HT, Hnf, Hcoll.
      eexists (_ :: T). split; [by rewrite HT, <- app_assoc|].
      split; [by constructor|]. split; [|split].
      * destruct Hcase as [[-> Hret]|(T0 & ids & docs & -> & Hret & ->)].
        -- left. split; [done|]. constructor; [by eexists|done].
        -- right. eexists (_ :: T0), ids, docs. split; [done|].
           split; [|done]. constructor; [by eexists|done].
      * intros Hok. apply Hnf. intros n Hn. apply Hok. lia.
      * intros Hr. rewrite (Hcoll Hr). simpl.
        rewrite length_app, seq_app, new_records_app by by rewrite length_seq.
        by rewrite <- app_assoc.
Qed.

(** C5. For every chunk list and every max batch size [m ≥ 1], the
    upload step cuts the chunks of the file into consecutive slices of
    at most [m] documents each, whose concatenation is the chunk list.
    Every call it issues is a [collection.add] under the path of the
    file, with as many distinct ids as documents, and these calls
    carry the slices in order, one call per slice.  The upload returns
    unless one of these calls fails, which then is its last call and
    its exception; it returns when the remote side does not fail, and
    when it returns every slice has been sent, every call has
    returned, and the collection has gained one record per chunk, in
    order, each under an id of its own and with the path of the
    file. *)
Theorem upload_respects_max_batch_size configs m p text w r w' :
  1 ≤ m →
  open_file p = Some text →
  upload configs m p w = (r, w') →
  ∃ bs T,
    concat bs = file_chunks configs p text
    ∧ Forall (λ b, (length b ≤ Z.to_nat m)%nat) bs
    ∧ w_trace w' = w_trace w ++ T
    ∧ add_calls T `prefix_of` bs
    ∧ (r = inr tt → add_calls T = bs)
    ∧ Forall (insert_of p) T
    ∧ (r = inr tt ∧ Forall returned T
       ∨ ∃ T0 ids docs,
           T = T0 ++ [ECall (AddBatch ids docs p) false]
           ∧ Forall returned T0
           ∧ r = inl (RemoteError (AddBatch ids docs p)))
    ∧ ((∀ n, (w_calls w ≤ n)%nat → faulty n = false) → r = inr tt)
    ∧ (r = inr tt →
       w_coll w' =
         w_coll w
         ++ new_records
              (seq (w_uuid w) (length (file_chunks configs p text)))
              (file_chunks configs p text) p).
Proof.
  intros Hm Hopen Hrun.
  destruct (batches_partition m (file_chunks configs p text) Hm)
    as (bs & Hbs & Hcat & Hlen).
  unfold upload, bind, open_ in Hrun. rewrite Hopen in Hrun.
  simpl in Hrun. rewrite Hbs in Hrun.
  pose proof Hrun as (T & HT & Hpre & Hall)%add_batches_calls.
  apply add_batches_outcome in Hrun
    as (T' & HT' & Hins & Hcase & Hnf & Hcoll).
  assert (T' = T) as -> by (apply (app_inv_head (w_trace w)); congruence).
  rewrite Hcat in Hcoll.
  by exists bs, T.
Qed.

(** *** File selection *)

(** C6. When [.gitignore] is a file at the project root (and can be
    read), a candidate is kept if and only if [force] is set or it
    matches no ignore rule, and the kept files keep their order; when
    there is no such file the candidates are passed through as they
    are.  No remote call is made either way. *)
Theorem select_files_keeps_iff configs w :
  let candidates := expand_globs (files configs) (recursive configs) in
  let gitignore_path := path_join (project_root configs) ".gitignore" in
  (isfile gitignore_path = true →
   ∀ gitignore, open_file gitignore_path = Some gitignore →
     ∃ kept, select_files configs w = (inr kept, w)
             ∧ kept `sublist_of` candidates
             ∧ ∀ file, file ∈ kept ↔
                 file ∈ candidates
                 ∧ (force configs = true ∨ match_file gitignore file = false))
  ∧ (isfile gitignore_path = false →
     select_files configs w = (inr candidates, w)).
Proof.
  intros candidates gitignore_path. unfold select_files.
  fold candidates gitignore_path. split.
  - intros -> gitignore Hopen. unfold bind, open_. rewrite Hopen. simpl.
    eexists. split; [done|]. split; [apply sublist_filter|].
    intros file. rewrite list_elem_of_filter.
    destruct (force configs), (match_file gitignore file); simpl;
      intuition congruence.
  - by intros ->.
Qed.

(** *** Embedding-function verification *)

Lemma ne_str_true v s : ne_str v s = true ↔ v ≠ MStr s.
Proof.
  destruct v as [t| |]; simpl; [|done..].
  rewrite negb_true_iff, bool_decide_eq_false. naive_solver.
Qed.

(** The collection records a truthy embedding function other than the
    configured one. *)
Definition ef_mismatch (metadata : gmap string metaval) (configs : Config)
  : Prop :=
  ∃ ef, metadata !! "embedding_function" = Some ef
        ∧ truthy ef = true
        ∧ ef ≠ MStr (embedding_function configs).

Lemma ef_mismatch_test metadata configs :
  truthy_opt (metadata !! "embedding_function")
  && ne_str_opt (metadata !! "embedding_function")
       (embedding_function configs) = true
  ↔ ef_mismatch metadata configs.
Proof.
  unfold ef_mismatch. rewrite andb_true_iff.
  destruct (metadata !! "embedding_function") as [ef|]; simpl.
  - rewrite ne_str_true. naive_solver.
  - naive_solver.
Qed.

(** C9. [verify_ef] always returns; it returns [False] exactly when
    the collection records a truthy (for a string: non-empty)
    embedding function that differs from the configured one, and then
    [vectorise] returns 1.  Recorded embedding parameters play no part
    in the verdict: when the embedding function passes and parameters
    are recorded, two warning lines go to stderr and the result is
    [True]. *)
Theorem verify_ef_rejects_iff_function_differs metadata configs w :
  ∃ ok w',
    verify_ef metadata configs w = (inr ok, w')
    ∧ (ok = false ↔ ef_mismatch metadata configs)
    ∧ (ok = true →
       ∀ ep, metadata !! "embedding_params" = Some ep →
             truthy ep = true →
             w_trace w' =
               w_trace w
               ++ [EStderr ("The collection was embedded with a different set of configurations: "
                            +:+ show ep +:+ ".");
                   EStderr "The result may be inaccurate."])
    ∧ (ok = false →
       ∀ sched w0,
         make_or_get_collection configs w0 = (inr metadata, w) →
         vectorise configs sched w0 = (inr 1, w')).
Proof.
  pose proof (ef_mismatch_test metadata configs) as Htest.
  unfold verify_ef.
  destruct (truthy_opt (metadata !! "embedding_function")
            && ne_str_opt (metadata !! "embedding_function")
                 (embedding_function configs)) eqn:Hef.
  - eexists false, _. split; [done|]. split; [naive_solver|].
    split; [done|]. intros _ sched w0 Hmk.
    unfold vectorise, bind, catch. rewrite Hmk. simpl.
    unfold verify_ef. rewrite Hef. done.
  - assert (¬ ef_mismatch metadata configs) as Hno.
    { rewrite <- Htest. congruence. }
    destruct (metadata !! "embedding_params") as [ep|] eqn:Hep; simpl.
    + destruct (truthy ep) eqn:Htr; simpl.
      * eexists true, _. split; [done|]. split; [naive_solver|].
        split; [|done]. intros _ ep' [= <-] _. simpl.
        by rewrite <- app_assoc.
      * eexists true, _. split; [done|]. split; [naive_solver|].
        split; [|done]. intros _ ep' [= <-]. congruence.
    + eexists true, _. split; [done|]. split; [naive_solver|].
      split; [|done]. by intros _ ep' [=].
Qed.

(** *** Orphan cleanup *)

(** A stored string path without a file on disk. *)
Definition orphan (coll : list record) (p : string) : Prop :=
  (∃ rec, rec ∈ coll ∧ r_path rec = Some (MStr p)) ∧ isfile p = false.

(** The delete calls of a trace, in order. *)
Definition delete_calls (T : list event) : list call :=
  omap (λ e, match e with
             | ECall (DeleteWhere p) _ => Some (DeleteWhere p)
             | ECall (DeleteIn ps) _ => Some (DeleteIn ps)
             | _ => None
             end) T.

Lemma orphan_paths_acc (acc : gset string) paths p :
  p ∈ foldl (λ orphanes path,
               match path with
               | MStr q => if isfile q then orphanes else orphanes ∪ {[q]}
               | _ => orphanes
               end) acc paths
  ↔ p ∈ acc ∨ (MStr p ∈ paths ∧ isfile p = false).
Proof.
  revert acc. induction paths as [|v paths IH]; intros acc; simpl.
  - rewrite elem_of_nil. naive_solver.
  - rewrite IH, elem_of_cons. destruct v as [q| |]; [|naive_solver..].
    destruct (isfile q) eqn:Hq.
    + split; [naive_solver|]. intros [?|[[[= ->]|?] ?]]; [tauto|congruence|tauto].
    + rewrite elem_of_union, elem_of_singleton.
      split; [naive_solver|]. intros [?|[[[= ->]|?] ?]]; tauto.
Qed.

Lemma elem_of_orphan_paths paths p :
  p ∈ orphan_paths paths ↔ MStr p ∈ paths ∧ isfile p = false.
Proof.
  unfold orphan_paths. rewrite orphan_paths_acc. set_solver.
Qed.

Lemma path_values_Some coll k :
  path_values (r_metadata <$> coll) = inr k → r_path <$> coll = Some <$> k.
Proof.
  revert k. induction coll as [|rec coll IH]; intros k; csimpl.
  - by intros [= <-].
  - unfold r_path at 1. destruct (r_metadata rec) as [[path|]|]; [|done..].
    destruct (path_values (r_metadata <$> coll)) as [e|paths]; [done|].
    intros [= <-]. csimpl. by rewrite (IH paths).
Qed.

Lemma path_values_is_Some coll :
  (∀ rec, rec ∈ coll → is_Some (r_path rec)) →
  ∃ paths, path_values (r_metadata <$> coll) = inr paths.
Proof.
  induction coll as [|rec coll IH]; intros Hall; csimpl; [by eexists|].
  destruct (Hall rec ltac:(by left)) as [path Hpath].
  unfold r_path in Hpath. destruct (r_metadata rec) as [[path'|]|]; [|done..].
  destruct IH as [paths ->]; [|by eexists].
  intros rec' Hrec'. apply Hall. by right.
Qed.

(** The first record without a path decides how the inventory
    fails. *)
Lemma path_values_raises coll e :
  path_values (r_metadata <$> coll) = inl e →
  ∃ before rec after,
    coll = before ++ rec :: after
    ∧ (∀ rec', rec' ∈ before → is_Some (r_path rec'))
    ∧ (r_metadata rec = None ∧ e = TypeError
       ∨ r_metadata rec = Some None ∧ e = KeyError).
Proof.
  induction coll as [|rec coll IH]; csimpl; [done|].
  destruct (r_metadata rec) as [[path|]|] eqn:Hmeta.
  - destruct (path_values (r_metadata <$> coll)) as [e'|paths]; [|done].
    intros [= <-]. destruct IH as (before & bad & after & -> & Hbefore & Hbad);
      [done|].
    exists (rec :: before), bad, after. split; [done|]. split; [|done].
    intros rec' [->|Hin]%elem_of_cons; [|by apply Hbefore].
    unfold r_path. rewrite Hmeta. by eexists.
  - intros [= <-]. exists [], rec, coll. split; [done|].
    split; [by intros ? ?%elem_of_nil|]. by right.
  - intros [= <-]. exists [], rec, coll. split; [done|].
    split; [by intros ? ?%elem_of_nil|]. by left.
Qed.

Lemma orphan_paths_of_coll coll paths p :
  path_values (r_metadata <$> coll) = inr paths →
  p ∈ orphan_paths paths ↔ orphan coll p.
Proof.
  intros Hm%path_values_Some. rewrite elem_of_orphan_paths. unfold orphan.
  assert (MStr p ∈ paths ↔ Some (MStr p) ∈ r_path <$> coll) as ->.
  { rewrite Hm, list_elem_of_fmap. naive_solver. }
  rewrite list_elem_of_fmap. naive_solver.
Qed.

Lemma path_in_elements (O : gset string) rec :
  path_in (elements O) rec ↔ ∃ p, p ∈ O ∧ has_path p rec.
Proof. unfold path_in. by setoid_rewrite elem_of_elements. Qed.

(** What [remove_orphans] does once the inventory call has returned
    paths for all records. *)
Lemma remove_orphans_run w paths :
  faulty (w_calls w) = false →
  path_values (r_metadata <$> w_coll w) = inr paths →
  w_coll w ≠ [] →
  let O := orphan_paths paths in
  let w1 := log (ESetRemoved (Z.of_nat (size O)))
              (set_stats (set_removed (Z.of_nat (size O)))
                 (log (ECall GetAll true) (tick w))) in
  remove_orphans w =
    if bool_decide (size O ≠ 0%nat)
    then coll_delete_in (elements O) w1
    else (inr tt, w1).
Proof.
  intros Hf Hm Hne. unfold remove_orphans, bind, coll_get_all, remote.
  rewrite Hf. simpl. rewrite bool_decide_true.
  2:{ destruct (w_coll w); [done|]. done. }
  rewrite Hm. by case_bool_decide.
Qed.

(** The cleanup, once the inventory call has succeeded on a collection
    whose records all carry a path and [removed] is still 0. *)
Lemma remove_orphans_effect w r w' :
  faulty (w_calls w) = false →
  (∀ rec, rec ∈ w_coll w → is_Some (r_path rec)) →
  s_removed (w_stats w) = 0 →
  remove_orphans w = (r, w') →
  ∃ (O : gset string) T,
    (∀ p, p ∈ O ↔ orphan (w_coll w) p)
    ∧ s_removed (w_stats w') = Z.of_nat (size O)
    ∧ s_add (w_stats w') = s_add (w_stats w)
    ∧ s_update (w_stats w') = s_update (w_stats w)
    ∧ w_trace w' = w_trace w ++ T
    ∧ delete_calls T = (if decide (O = ∅) then [] else [DeleteIn (elements O)])
    ∧ (r = inr tt →
       w_coll w' =
         filter (λ rec, ¬ ∃ p, p ∈ O ∧ has_path p rec) (w_coll w))
    ∧ (faulty (S (w_calls w)) = false → r = inr tt).
Proof.
  intros Hf Hall Hzero Hrun.
  destruct (path_values (r_metadata <$> w_coll w)) as [e|paths] eqn:Hm; cycle 1.
  2:{ exfalso. destruct (path_values_is_Some (w_coll w) Hall) as [? ?].
      congruence. }
  destruct (decide (w_coll w = [])) as [Hnil|Hne].
  { unfold remove_orphans, bind, coll_get_all, remote in Hrun.
    rewrite Hf, Hnil in Hrun. simpl in Hrun. injection Hrun as <- <-.
    exists ∅, [ECall GetAll true]. simpl. rewrite Hnil.
    split; [|by rewrite decide_True].
    intros p. unfold orphan. set_solver. }
  rewrite (remove_orphans_run w paths Hf Hm Hne) in Hrun.
  exists (orphan_paths paths).
  assert (∀ p, p ∈ orphan_paths paths ↔ orphan (w_coll w) p) as HO
    by (intros p; by apply orphan_paths_of_coll).
  case_bool_decide as Hsz.
  - unfold coll_delete_in, remote in Hrun. simpl in Hrun.
    assert (orphan_paths paths ≠ ∅) as Hne'.
    { intros Heq. apply Hsz. by rewrite Heq. }
    exists [ECall GetAll true;
            ESetRemoved (Z.of_nat (size (orphan_paths paths)));
            ECall (DeleteIn (elements (orphan_paths paths)))
              (negb (faulty (S (w_calls w))))].
    split; [exact HO|]. rewrite decide_False by done.
    destruct (faulty (S (w_calls w))); injection Hrun as <- <-; simpl;
      rewrite <- !app_assoc; simpl; repeat (split; [done|]).
    + intros [=].
    + split; [|done]. intros _. apply list_filter_iff. intros rec.
      by rewrite path_in_elements.
  - injection Hrun as <- <-. simpl.
    assert (orphan_paths paths = ∅) as Hemp
      by by apply leibniz_equiv, size_empty_iff.
    eexists [_; _]. rewrite <- app_assoc. simpl.
    split; [exact HO|]. rewrite decide_True by done.
    repeat (split; [done|]). split; [|done]. intros _. symmetry.
    rewrite Hemp. apply filter_all. intros rec _ (p & Hp & _). set_solver.
Qed.

(** C4. With the inventory call succeeding on a collection whose
    records all carry a path, and [removed] still at its initial 0,
    the cleanup computes the set of stored string paths that have no
    file on disk, sets [removed] to the number of elements of that set
    and leaves the other counters alone, issues no delete call when
    the set is empty and exactly one bulk delete naming the elements of
    the set otherwise; when that delete returns, the collection has
    lost exactly the records of those paths. *)
Theorem remove_orphans_counts_distinct_paths w r w' :
  faulty (w_calls w) = false →
  (∀ rec, rec ∈ w_coll w → is_Some (r_path rec)) →
  s_removed (w_stats w) = 0 →
  remove_orphans w = (r, w') →
  ∃ (O : gset string) T,
    (∀ p, p ∈ O ↔ orphan (w_coll w) p)
    ∧ s_removed (w_stats w') = Z.of_nat (size O)
    ∧ s_add (w_stats w') = s_add (w_stats w)
    ∧ s_update (w_stats w') = s_update (w_stats w)
    ∧ w_trace w' = w_trace w ++ T
    ∧ delete_calls T = (if decide (O = ∅) then [] else [DeleteIn (elements O)])
    ∧ (r = inr tt →
       w_coll w' =
         filter (λ rec, ¬ ∃ p, p ∈ O ∧ has_path p rec) (w_coll w)).
Proof.
  intros Hf Hall Hzero Hrun.
  destruct (remove_orphans_effect w r w' Hf Hall Hzero Hrun)
    as (O & T & HO & Hr & Ha & Hu & HT & Hdel & Hcoll & _).
  by exists O, T.
Qed.

Lemma orphan_without_non_string coll rec v p :
  r_path rec = Some v → is_str v = false →
  orphan coll p ↔ orphan (filter (λ x, x ≠ rec) coll) p.
Proof.
  intros Hv Hns. unfold orphan. split.
  - intros [(x & Hx & Hp) Hfile]. split; [|done].
    exists x. split; [|done]. apply list_elem_of_filter. split; [|done].
    intros ->. rewrite Hv in Hp. injection Hp as ->. done.
  - intros [(x & Hx & Hp) Hfile]. split; [|done].
    exists x. split; [|done]. by apply list_elem_of_filter in Hx as [_ ?].
Qed.

(** C10. Whatever the cleanup does, and whatever files exist, a stored
    record whose ["path"] value is not a string stays in the
    collection; every bulk delete issued names only string paths that
    are stored and have no file; [removed], when it is set, is the
    number of such string paths, a number that is the same for the
    collection without that record. *)
Theorem non_string_path_never_orphan w r w' rec v :
  remove_orphans w = (r, w') →
  rec ∈ w_coll w →
  r_path rec = Some v →
  is_str v = false →
  rec ∈ w_coll w'
  ∧ (∃ T, w_trace w' = w_trace w ++ T
          ∧ ∀ ps ok p, ECall (DeleteIn ps) ok ∈ T → p ∈ ps →
                       orphan (w_coll w) p)
  ∧ (w_stats w' = w_stats w
     ∨ ∃ O : gset string,
         (∀ p, p ∈ O ↔ orphan (w_coll w) p)
         ∧ (∀ p, p ∈ O ↔ orphan (filter (λ x, x ≠ rec) (w_coll w)) p)
         ∧ w_stats w' = set_removed (Z.of_nat (size O)) (w_stats w)).
Proof.
  intros Hrun Hrec Hv Hns.
  destruct (faulty (w_calls w)) eqn:Hf.
  { unfold remove_orphans, bind, coll_get_all, remote in Hrun.
    rewrite Hf in Hrun. injection Hrun as <- <-. simpl.
    split; [done|]. split; [|by left].
    eexists [_]. split; [done|]. intros ps ok p Hin.
    apply list_elem_of_singleton in Hin. done. }
  assert (w_coll w ≠ []) as Hne by (intros Heq; rewrite Heq in Hrec; inversion Hrec).
  destruct (path_values (r_metadata <$> w_coll w)) as [e|paths] eqn:Hm; cycle 1.
  2:{ unfold remove_orphans, bind, coll_get_all, remote in Hrun.
      rewrite Hf in Hrun. simpl in Hrun.
      rewrite bool_decide_true in Hrun by (by destruct (w_coll w)).
      rewrite Hm in Hrun. injection Hrun as <- <-. simpl.
      split; [done|]. split; [|by left].
      eexists [_]. split; [done|]. intros ps ok p Hin.
      apply list_elem_of_singleton in Hin. done. }
  rewrite (remove_orphans_run w paths Hf Hm Hne) in Hrun.
  assert (∀ p, p ∈ orphan_paths paths ↔ orphan (w_coll w) p) as HO
    by (intros p; by apply orphan_paths_of_coll).
  assert (rec ∈ filter (λ x, ¬ path_in (elements (orphan_paths paths)) x)
                  (w_coll w)) as Hkept.
  { apply list_elem_of_filter. split; [|done].
    intros (p & _ & Hp). unfold has_path in Hp. rewrite Hv in Hp.
    injection Hp as ->. done. }
  case_bool_decide as Hsz.
  - unfold coll_delete_in, remote in Hrun. simpl in Hrun.
    assert (∃ T, w_trace w' = w_trace w ++ T
                 ∧ ∀ ps ok p, ECall (DeleteIn ps) ok ∈ T → p ∈ ps →
                              orphan (w_coll w) p) as HT.
    { exists [ECall GetAll true;
              ESetRemoved (Z.of_nat (size (orphan_paths paths)));
              ECall (DeleteIn (elements (orphan_paths paths)))
                (negb (faulty (S (w_calls w))))].
      split.
      - destruct (faulty (S (w_calls w))); injection Hrun as <- <-; simpl;
          by rewrite <- !app_assoc.
      - intros ps ok p Hin Hp.
        rewrite !elem_of_cons, elem_of_nil in Hin.
        destruct Hin as [[=]|[[=]|[[= -> _]|[]]]].
        by apply HO, elem_of_elements. }
    split; [|split; [exact HT|]].
    + destruct (faulty (S (w_calls w))); by injection Hrun as <- <-.
    + right. exists (orphan_paths paths). split; [exact HO|]. split.
      * intros p. rewrite HO. by apply orphan_without_non_string with v.
      * destruct (faulty (S (w_calls w))); by injection Hrun as <- <-.
  - injection Hrun as <- <-. simpl. split; [done|]. split.
    + eexists [_; _]. split; [by rewrite <- app_assoc|].
      intros ps ok p Hin.
      rewrite !elem_of_cons, elem_of_nil in Hin. naive_solver.
    + right. exists (orphan_paths paths). split; [exact HO|]. split; [|done].
      intros p. rewrite HO. by apply orphan_without_non_string with v.
Qed.

(** *** The stages of a task, computed *)

Lemma existing_chunks_eq p w :
  existing_chunks p w =
    if faulty (w_calls w)
    then (inl (RemoteError (GetWhere p)),
          log (ECall (GetWhere p) false) (tick w))
    else (inr (length (filter (has_path p) (w_coll w))),
          log (ECall (GetWhere p) true) (tick w)).
Proof.
  unfold existing_chunks, bind, coll_get, remote.
  destruct (faulty (w_calls w)); simpl; [done|]. by rewrite length_fmap.
Qed.

Lemma reconcile_eq p n w :
  reconcile p n w =
    if bool_decide (n ≠ 0%nat) then
      if faulty (w_calls w)
      then (inl (RemoteError (DeleteWhere p)),
            log (ECall (DeleteWhere p) false) (tick w))
      else (inr tt,
            log (EIncr Update)
              (set_stats (bump Update)
                 (log (ECall (DeleteWhere p) true)
                    (set_coll (filter (λ r, ¬ has_path p r)) (tick w)))))
    else (inr tt, log (EIncr Add) (set_stats (bump Add) w)).
Proof.
  unfold reconcile. case_bool_decide; [|done].
  unfold bind, coll_delete, remote. by destruct (faulty (w_calls w)).
Qed.

(** *** Counters and failed calls *)

(** The counters after the updates recorded in a trace. *)
Definition replay (T : list event) (s : stats) : stats :=
  foldl (λ s e, match e with
                | EIncr k => bump k s
                | ESetRemoved n => set_removed n s
                | _ => s
                end) s T.

Definition add_ok (e : event) : Prop :=
  match e with ECall (AddBatch _ _ _) true => True | _ => False end.

(** The trace of an upload: successful [collection.add] calls, and a
    failed call last if the upload raised because of one. *)
Definition upload_shape (U : list event) (r : exn + unit) : Prop :=
  (Forall add_ok U ∧ ∀ c, r ≠ inl (RemoteError c))
  ∨ ∃ U0 c, U = U0 ++ [ECall c false] ∧ Forall add_ok U0
            ∧ r = inl (RemoteError c).

Lemma replay_add_ok U s : Forall add_ok U → replay U s = s.
Proof.
  intros HU. revert s. induction HU as [|e U He _ IH]; intros s; [done|].
  destruct e as [[] []| | | | | |]; try done. apply IH.
Qed.

Lemma replay_upload U r s : upload_shape U r → replay U s = s.
Proof.
  intros [[HU _]|(U0 & c & -> & HU & _)]; [by apply replay_add_ok|].
  unfold replay. rewrite foldl_app. simpl. by apply replay_add_ok.
Qed.

Lemma add_batches_shape p bs w r w' :
  add_batches p bs w = (r, w') →
  ∃ U, w_trace w' = w_trace w ++ U ∧ w_stats w' = w_stats w
       ∧ upload_shape U r.
Proof.
  revert w. induction bs as [|b bs IH]; intros w Hrun; simpl in Hrun.
  - injection Hrun as <- <-. exists []. rewrite app_nil_r.
    repeat split. left. split; [constructor|done].
  - unfold bind, get_uuids, coll_add, remote in Hrun. simpl in Hrun.
    destruct (faulty (w_calls w)).
    + injection Hrun as <- <-. eexists [_]. repeat split.
      right. by exists [], (AddBatch (seq (w_uuid w) (length b)) b p).
    + apply IH in Hrun as (U & HT & Hs & Hshape). simpl in HT, Hs.
      eexists (_ :: U). split; [by rewrite HT, <- app_assoc|].
      split; [done|].
      destruct Hshape as [[HU Hr]|(U0 & c & -> & HU & ->)].
      * left. split; [by constructor|done].
      * right. eexists (_ :: U0), c. split; [done|].
        split; [by constructor|done].
Qed.

Lemma upload_trace configs m p w r w' :
  upload configs m p w = (r, w') →
  ∃ U, w_trace w' = w_trace w ++ U ∧ w_stats w' = w_stats w
       ∧ upload_shape U r.
Proof.
  unfold upload, bind, open_. destruct (open_file p) as [text|]; simpl.
  - destruct (batches m (file_chunks configs p text)) as [bs|].
    + apply add_batches_shape.
    + intros [= <- <-]. exists []. rewrite app_nil_r. repeat split.
      left. split; [constructor|done].
  - intros [= <- <-]. exists []. rewrite app_nil_r. repeat split.
    left. split; [constructor|done].
Qed.

(** The traces a task can leave. *)
Definition task_shape (p : string) (T : list event) (r : exn + unit)
  : Prop :=
  (T = [ECall (GetWhere p) false] ∧ r = inl (RemoteError (GetWhere p)))
  ∨ (T = [ECall (GetWhere p) true; ECall (DeleteWhere p) false]
     ∧ r = inl (RemoteError (DeleteWhere p)))
  ∨ (∃ U, T = [ECall (GetWhere p) true; ECall (DeleteWhere p) true;
               EIncr Update] ++ U
          ∧ upload_shape U r)
  ∨ (∃ U, T = [ECall (GetWhere p) true; EIncr Add] ++ U
          ∧ upload_shape U r).

Lemma chunked_add_shape configs m file w r w' :
  chunked_add configs m file w = (r, w') →
  ∃ T, w_trace w' = w_trace w ++ T
       ∧ w_stats w' = replay T (w_stats w)
       ∧ task_shape (expand_path file) T r.
Proof.
  unfold chunked_add. set (p := expand_path file). unfold bind at 1.
  rewrite existing_chunks_eq. destruct (faulty (w_calls w)).
  { intros [= <- <-]. eexists [_]. repeat split. by left. }
  unfold bind. rewrite reconcile_eq. case_bool_decide; simpl.
  - destruct (faulty (S (w_calls w))).
    { intros [= <- <-]. eexists [_; _]. simpl. rewrite <- app_assoc.
      repeat split. right. by left. }
    intros (U & HT & Hs & HU)%upload_trace. simpl in HT, Hs.
    eexists (_ :: _ :: _ :: U). split; [by rewrite HT, <- !app_assoc|].
    split; [by rewrite Hs; symmetry; apply (replay_upload U r)|].
    right. right. left. by exists U.
  - intros (U & HT & Hs & HU)%upload_trace. simpl in HT, Hs.
    eexists (_ :: _ :: U). split; [by rewrite HT, <- !app_assoc|].
    split; [by rewrite Hs; symmetry; apply (replay_upload U r)|].
    right. right. right. by exists U.
Qed.

Lemma add_ok_no_split U T0 x rest :
  Forall add_ok U → ¬ add_ok x → U ≠ T0 ++ x :: rest.
Proof.
  intros HU Hx ->. apply Hx.
  rewrite Forall_forall in HU. apply HU. set_solver.
Qed.

Lemma add_ok_last_split U0 y T0 x rest :
  Forall add_ok U0 → ¬ add_ok x →
  U0 ++ [y] = T0 ++ x :: rest → rest = [] ∧ T0 = U0 ∧ x = y.
Proof.
  intros HU Hx. revert T0.
  induction HU as [|u U0 Hu _ IH]; intros [|t T0] Heq; simplify_eq/=.
  - done.
  - by destruct T0.
  - done.
  - destruct (IH T0) as (-> & -> & ->); done.
Qed.

Lemma failed_not_add_ok c : ¬ add_ok (ECall c false).
Proof. destruct c; simpl; tauto. Qed.

Lemma upload_shape_failed U r T0 c rest :
  upload_shape U r → U = T0 ++ ECall c false :: rest →
  rest = [] ∧ r = inl (RemoteError c).
Proof.
  intros [[HU _]|(U0 & c' & -> & HU & ->)] Heq.
  - exfalso. eapply add_ok_no_split; [exact HU| |exact Heq].
    apply failed_not_add_ok.
  - destruct (add_ok_last_split U0 (ECall c' false) T0 (ECall c false)
                rest HU) as (-> & _ & [= ->]);
      [apply failed_not_add_ok|done|done].
Qed.

Lemma upload_shape_no_incr U r T0 k rest :
  upload_shape U r → U ≠ T0 ++ EIncr k :: rest.
Proof.
  intros [[HU _]|(U0 & c' & -> & HU & ->)] Heq.
  - eapply add_ok_no_split; [exact HU| |exact Heq]. simpl. tauto.
  - by destruct (add_ok_last_split U0 (ECall c' false) T0 (EIncr k)
                   rest HU) as (_ & _ & [=]); [simpl; tauto|..].
Qed.

Lemma replay_failed_call T0 c s :
  replay (T0 ++ [ECall c false]) s = replay T0 s.
Proof. unfold replay. by rewrite foldl_app. Qed.

(** The remote call a counter stands for. *)
Definition call_of (p : string) (k : counter) : call :=
  match k with Add => GetWhere p | Update => DeleteWhere p end.

(** C1. In a per-file task the counters change only by the recorded
    increments; a failed remote call (the query, the delete or an
    insert) is the last thing the task does, it surfaces as the task's
    exception, and the counters are left as they were when the call
    was issued; an increment directly follows the successful return
    of the call it stands for ([add]: the query, [update]: the
    delete). *)
Theorem failed_call_keeps_counters configs m file w r w' :
  chunked_add configs m file w = (r, w') →
  ∃ T,
    w_trace w' = w_trace w ++ T
    ∧ w_stats w' = replay T (w_stats w)
    ∧ (∀ T0 c rest, T = T0 ++ ECall c false :: rest →
         rest = [] ∧ r = inl (RemoteError c)
         ∧ w_stats w' = replay T0 (w_stats w))
    ∧ (∀ T0 k rest, T = T0 ++ EIncr k :: rest →
         ∃ T1, T0 = T1 ++ [ECall (call_of (expand_path file) k) true]).
Proof.
  intros (T & HT & Hs & Hshape)%chunked_add_shape.
  exists T. split; [done|]. split; [done|].
  assert (∀ T0 c rest, T = T0 ++ ECall c false :: rest →
            rest = [] ∧ r = inl (RemoteError c)) as Hfail.
  { intros T0 c rest Heq.
    destruct Hshape as [[-> ->]|[[-> ->]|[(U & -> & HU)|(U & -> & HU)]]].
    - destruct T0 as [|? [|? ?]]; by simplify_eq/=.
    - destruct T0 as [|? [|? [|? ?]]]; by simplify_eq/=.
    - destruct T0 as [|? [|? [|? T0]]]; simplify_eq/=.
      by eapply upload_shape_failed.
    - destruct T0 as [|? [|? T0]]; simplify_eq/=.
      by eapply upload_shape_failed. }
  split.
  - intros T0 c rest Heq. destruct (Hfail _ _ _ Heq) as [-> ->].
    repeat split. by rewrite Hs, Heq, replay_failed_call.
  - intros T0 k rest Heq.
    destruct Hshape as [[-> ->]|[[-> ->]|[(U & -> & HU)|(U & -> & HU)]]].
    + destruct T0 as [|? [|? ?]]; by simplify_eq/=.
    + destruct T0 as [|? [|? [|? ?]]]; by simplify_eq/=.
    + destruct T0 as [|? [|? [|? T0]]]; simplify_eq/=.
      * by eexists [_].
      * by eapply upload_shape_no_incr in HU.
    + destruct T0 as [|? [|? T0]]; simplify_eq/=.
      * by exists [].
      * by eapply upload_shape_no_incr in HU.
Qed.

(** *** What a pass emits *)

(** The events between two worlds all satisfy [P]. *)
Definition emits (P : event → Prop) (w w' : world) : Prop :=
  ∃ T, w_trace w' = w_trace w ++ T ∧ Forall P T.

Lemma emits_refl P w : emits P w w.
Proof. exists []. by rewrite app_nil_r. Qed.

Lemma emits_trans P w1 w2 w3 : emits P w1 w2 → emits P w2 w3 → emits P w1 w3.
Proof.
  intros (T1 & H1 & HP1) (T2 & H2 & HP2). exists (T1 ++ T2).
  split; [by rewrite H2, H1, app_assoc|by apply Forall_app].
Qed.

Lemma emits_same_trace P w w' : w_trace w' = w_trace w → emits P w w'.
Proof. intros H. exists []. by rewrite app_nil_r. Qed.

Lemma emits_log P e w w' : P e → emits P w w' → emits P w (log e w').
Proof.
  intros He (T & HT & HP). exists (T ++ [e]). simpl.
  split; [by rewrite HT, app_assoc|]. apply Forall_app. by split; [|constructor].
Qed.

Lemma emits_weaken (P Q : event → Prop) w w' :
  (∀ e, P e → Q e) → emits P w w' → emits Q w w'.
Proof.
  intros HPQ (T & HT & HP). exists T. split; [done|].
  by eapply Forall_impl.
Qed.

(** The events of the per-file tasks. *)
Definition task_event (e : event) : Prop :=
  match e with
  | ECall (GetWhere _) _ | ECall (DeleteWhere _) _
  | ECall (AddBatch _ _ _) _ | EIncr _ => True
  | _ => False
  end.

(** The events of the orphan cleanup and of the stats report. *)
Definition cleanup_or_report (e : event) : Prop :=
  match e with
  | ECall GetAll _ | ECall (DeleteIn _) _ | ESetRemoved _
  | EShowJson _ | EShowTable _ => True
  | _ => False
  end.

Lemma task_event_quiet e : task_event e → ¬ cleanup_or_report e.
Proof. destruct e as [[] ?| | | | | |]; simpl; tauto. Qed.

Lemma add_batches_events p bs w r w' :
  add_batches p bs w = (r, w') → emits task_event w w'.
Proof.
  revert w. induction bs as [|b bs IH]; intros w Hrun; simpl in Hrun.
  - injection Hrun as <- <-. apply emits_refl.
  - unfold bind, get_uuids, coll_add, remote in Hrun. simpl in Hrun.
    destruct (faulty (w_calls w)).
    + injection Hrun as <- <-. apply emits_log; [done|].
      by apply emits_same_trace.
    + apply IH in Hrun. eapply emits_trans; [|exact Hrun].
      apply emits_log; [done|]. by apply emits_same_trace.
Qed.

Lemma upload_events configs m p w r w' :
  upload configs m p w = (r, w') → emits task_event w w'.
Proof.
  unfold upload, bind, open_. destruct (open_file p) as [text|]; simpl.
  - destruct (batches m (file_chunks configs p text)) as [bs|].
    + apply add_batches_events.
    + intros [= <- <-]. apply emits_refl.
  - intros [= <- <-]. apply emits_refl.
Qed.

Lemma stage_events configs m file ph w r w' :
  stage configs m file ph w = (r, w') → emits task_event w w'.
Proof.
  destruct ph as [|n| |]; simpl; unfold bind.
  - rewrite existing_chunks_eq. destruct (faulty (w_calls w));
      intros [= <- <-]; (apply emits_log; [done|]); by apply emits_same_trace.
  - rewrite reconcile_eq. case_bool_decide.
    + destruct (faulty (w_calls w)); intros [= <- <-];
        repeat (apply emits_log; [done|]); by apply emits_same_trace.
    + intros [= <- <-]. apply emits_log; [done|]. by apply emits_same_trace.
  - destruct (upload configs m (expand_path file) w) as [[e|[]] w1] eqn:Hup;
      intros [= <- <-]; by eapply upload_events.
  - intros [= <- <-]. apply emits_refl.
Qed.

Lemma resume_events configs m i tasks w r w' :
  resume configs m i tasks w = (r, w') → emits task_event w w'.
Proof.
  unfold resume. destruct (tasks !! i) as [[file ph]|].
  - unfold bind.
    destruct (stage configs m file ph w) as [[e|ph'] w1] eqn:Hst;
      intros [= <- <-]; by eapply stage_events.
  - intros [= <- <-]. apply emits_refl.
Qed.

Lemma advance_events configs m resumed tasks w r w' :
  advance configs m resumed tasks w = (r, w') → emits task_event w w'.
Proof.
  revert tasks w. induction resumed as [|i resumed IH]; intros tasks w; simpl.
  - intros [= <- <-]. apply emits_refl.
  - unfold bind.
    destruct (resume configs m i tasks w) as [[e|tasks'] w1] eqn:Hres.
    + intros [= <- <-]. by eapply resume_events.
    + intros Hadv. eapply emits_trans; [by eapply resume_events|].
      by eapply IH.
Qed.

Lemma gather_resumed configs m resumed rest tasks w :
  gather configs m ((Resume <$> resumed) ++ rest) tasks w =
    match advance configs m resumed tasks w with
    | (inl e, w') => (inl e, w')
    | (inr tasks', w') => gather configs m rest tasks' w'
    end.
Proof.
  revert tasks w. induction resumed as [|i resumed IH]; intros tasks w;
    simpl; [done|].
  unfold bind. destruct (resume configs m i tasks w) as [[e|tasks'] w1];
    [done|]. apply IH.
Qed.

(** *** Cancellation *)

Lemma get_embedding_function_events configs w r w' :
  get_embedding_function configs w = (r, w') →
  emits (λ e, ¬ cleanup_or_report e) w w'.
Proof.
  unfold get_embedding_function, catch, raise, ret, emit.
  destruct (has_embedding_function _);
    [destruct (embedding_function_raises _ _) as [e|]|];
    repeat case_decide; intros [= <- <-];
    try apply emits_refl;
    (apply emits_log; [simpl; tauto|]); apply emits_refl.
Qed.

Lemma make_or_get_collection_events configs w r w' :
  make_or_get_collection configs w = (r, w') →
  emits (λ e, ¬ cleanup_or_report e) w w'.
Proof.
  unfold make_or_get_collection, bind at 1.
  destruct (get_embedding_function configs w) as [[e|[]] w0] eqn:Hge.
  { intros [= <- <-]. by eapply get_embedding_function_events. }
  apply get_embedding_function_events in Hge as Hw0.
  intros Hrun. eapply emits_trans; [exact Hw0|]. revert Hrun.
  unfold bind, get_or_create_collection, remote.
  destruct (faulty (w_calls w0)).
  - intros [= <- <-]. apply emits_log; [simpl; tauto|].
    by apply emits_same_trace.
  - match goal with |- context [if ?b then _ else _] => destruct b end;
      intros [= <- <-]; (apply emits_log; [simpl; tauto|]);
      by apply emits_same_trace.
Qed.

Lemma verify_ef_events metadata configs w r w' :
  verify_ef metadata configs w = (r, w') →
  emits (λ e, ¬ cleanup_or_report e) w w'.
Proof.
  unfold verify_ef.
  repeat match goal with |- context [if ?b then _ else _] => destruct b end;
    intros [= <- <-]; repeat (apply emits_log; [simpl; tauto|]);
    apply emits_refl.
Qed.

Lemma select_files_world configs w r w' :
  select_files configs w = (r, w') → w' = w.
Proof.
  unfold select_files, bind, open_.
  destruct (isfile _); [|by intros [= <- <-]].
  destruct (open_file _); by intros [= <- <-].
Qed.

(** C7. When the cancellation is delivered while some task is still
    unfinished (after the resumptions [resumed], none of which
    raised), [vectorise] returns 1; its last action is the line
    ["Abort."] on stderr; the collection and the counters stay as they
    were at that moment; and nothing the pass has emitted is an
    inventory call, a bulk delete, a write of [removed] or a stats
    report. *)
Theorem cancellation_aborts
    configs metadata files_ resumed post w0 wa wb w tasks' w2 :
  make_or_get_collection configs w0 = (inr metadata, wa) →
  verify_ef metadata configs wa = (inr true, wb) →
  select_files configs wb = (inr files_, w) →
  faulty (w_calls w) = false →
  advance configs remote_max_batch_size resumed (spawn files_)
    (log (ECall MaxBatchSize true) (tick (set_stats (λ _, Stats 0 0 0) w)))
    = (inr tasks', w2) →
  forallb (λ t, finished t.2) tasks' = false →
  vectorise configs ((Resume <$> resumed) ++ Cancel :: post) w0
    = (inr 1, log (EStderr "Abort.") w2)
  ∧ emits (λ e, ¬ cleanup_or_report e) w0 (log (EStderr "Abort.") w2).
Proof.
  intros Hmk Hver Hsel Hf Hadv Hunf. split.
  - unfold vectorise, bind at 1, catch at 1. unfold bind at 1.
    rewrite Hmk. simpl. unfold bind at 1. rewrite Hver. simpl.
    unfold bind at 1. rewrite Hsel.
    unfold sync, bind at 1. simpl. unfold bind at 1.
    unfold get_max_batch_size, remote. simpl. rewrite Hf.
    unfold bind at 1, catch, bind at 1.
    rewrite gather_resumed, Hadv. simpl. by rewrite Hunf.
  - apply emits_log; [simpl; tauto|].
    eapply emits_trans; [by eapply make_or_get_collection_events|].
    eapply emits_trans; [by eapply verify_ef_events|].
    apply select_files_world in Hsel as ->.
    eapply emits_trans;
      [|eapply emits_weaken; [apply task_event_quiet|by eapply advance_events]].
    apply emits_log; [simpl; tauto|]. by apply emits_same_trace.
Qed.

(** *** The counters as an invariant of the pass *)

(** A task that has been resumed at least once, and a task that has
    got past its counter increment. *)
Definition started (ph : phase) : bool :=
  match ph with Query => false | _ => true end.

Definition counted (ph : phase) : bool :=
  match ph with Upload | Done => true | _ => false end.

Definition count_if (P : phase → bool) (tasks : list (string * phase))
  : nat :=
  length (filter (λ t, P t.2) tasks).

(** The distinct string paths stored in a collection. *)
Definition stored_paths (coll : list record) : gset string :=
  list_to_set (omap (λ rec, match r_path rec with
                            | Some (MStr p) => Some p
                            | _ => None
                            end) coll).

(** The states the loop over the tasks can be in: the tasks have just
    been spawned with fresh counters, or one more resumption has
    returned or raised. *)
Inductive reachable (configs : Config) (m : Z) (files_ : list string)
  : list (string * phase) → world → Prop :=
| reach_spawn w :
    w_stats w = Stats 0 0 0 →
    reachable configs m files_ (spawn files_) w
| reach_resume tasks w i tasks' w' :
    reachable configs m files_ tasks w →
    resume configs m i tasks w = (inr tasks', w') →
    reachable configs m files_ tasks' w'
| reach_raise tasks w i e w' :
    reachable configs m files_ tasks w →
    resume configs m i tasks w = (inl e, w') →
    reachable configs m files_ tasks w'.

Lemma count_if_insert P tasks i file ph ph' :
  tasks !! i = Some (file, ph) →
  (count_if P (<[i := (file, ph')]> tasks) + (if P ph then 1 else 0)
   = count_if P tasks + (if P ph' then 1 else 0))%nat.
Proof.
  intros (l1 & l2 & -> & ->)%list_elem_of_split_length.
  rewrite insert_app_r_alt, Nat.sub_diag by done. simpl.
  unfold count_if. rewrite !filter_app, !filter_cons, !length_app. simpl.
  destruct (P ph), (P ph'); simpl; lia.
Qed.

Lemma count_if_le (P Q : phase → bool) tasks :
  (∀ ph, P ph = true → Q ph = true) →
  (count_if P tasks ≤ count_if Q tasks)%nat.
Proof.
  intros HPQ. unfold count_if.
  induction tasks as [|[f ph] tasks IH]; [done|].
  rewrite !filter_cons. simpl.
  specialize (HPQ ph). destruct (P ph), (Q ph); simpl; try lia.
Qed.

Lemma count_if_length P tasks : (count_if P tasks ≤ length tasks)%nat.
Proof. apply length_filter. Qed.

Lemma count_if_spawn files_ : count_if counted (spawn files_) = 0%nat.
Proof.
  unfold count_if, spawn. induction files_ as [|f fs IH]; [done|].
  by rewrite fmap_cons, filter_cons.
Qed.

(** A stage leaves the counters alone, except the second one, which
    adds one to [add] or [update] when it returns. *)
Lemma stage_stats configs m file ph w r w' :
  stage configs m file ph w = (r, w') →
  match r with
  | inl _ => w_stats w' = w_stats w
  | inr ph' =>
      (counted ph' = counted ph ∧ w_stats w' = w_stats w)
      ∨ (counted ph = false ∧ counted ph' = true
         ∧ ∃ k, w_stats w' = bump k (w_stats w))
  end.
Proof.
  destruct ph as [|n| |]; simpl; unfold bind.
  - rewrite existing_chunks_eq. destruct (faulty (w_calls w));
      intros [= <- <-]; [done|by left].
  - rewrite reconcile_eq. case_bool_decide.
    + destruct (faulty (w_calls w)); intros [= <- <-]; [done|].
      right. repeat split. by exists Update.
    + intros [= <- <-]. right. repeat split. by exists Add.
  - destruct (upload configs m (expand_path file) w) as [[e|[]] w1] eqn:Hup;
      intros [= <- <-];
      apply upload_trace in Hup as (U & _ & Hs & _); [done|by left].
  - intros [= <- <-]. by left.
Qed.

(** The counters never decrease below 0 and add up to the number of
    tasks past their increment. *)
Definition counters_ok (tasks : list (string * phase)) (w : world) : Prop :=
  0 ≤ s_add (w_stats w) ∧ 0 ≤ s_update (w_stats w)
  ∧ s_add (w_stats w) + s_update (w_stats w)
    = Z.of_nat (count_if counted tasks)
  ∧ s_removed (w_stats w) = 0.

Lemma resume_counters_ok configs m i tasks w r w' :
  counters_ok tasks w →
  resume configs m i tasks w = (r, w') →
  match r with
  | inl _ => counters_ok tasks w'
  | inr tasks' => counters_ok tasks' w' ∧ length tasks' = length tasks
  end.
Proof.
  intros (Ha & Hu & Hsum & Hr). unfold resume.
  destruct (tasks !! i) as [[file ph]|] eqn:Hi.
  2:{ intros [= <- <-]. by repeat split. }
  unfold bind.
  destruct (stage configs m file ph w) as [[e|ph'] w1] eqn:Hst;
    intros [= <- <-]; apply stage_stats in Hst.
  - unfold counters_ok. by rewrite Hst.
  - pose proof (count_if_insert counted tasks i file ph ph' Hi) as Hc.
    rewrite length_insert. split; [|done]. unfold counters_ok.
    destruct Hst as [[Hph ->]|(Hph & Hph' & k & ->)].
    + rewrite Hph in Hc. repeat split; try done.
      rewrite Hsum. f_equal. destruct (counted ph); lia.
    + rewrite Hph, Hph' in Hc. destruct k; simpl; repeat split; try lia.
Qed.

Lemma reachable_counters_ok configs m files_ tasks w :
  reachable configs m files_ tasks w →
  counters_ok tasks w ∧ length tasks = length files_.
Proof.
  induction 1 as [w Hs|tasks w i tasks' w' _ [IH Hlen] Hres
                 |tasks w i e w' _ [IH Hlen] Hres].
  - unfold counters_ok. rewrite Hs, count_if_spawn. simpl.
    unfold spawn. by rewrite length_fmap.
  - apply (resume_counters_ok _ _ _ _ _ _ _ IH) in Hres as [? Hl].
    split; [done|]. by rewrite Hl.
  - apply (resume_counters_ok _ _ _ _ _ _ _ IH) in Hres. done.
Qed.

Lemma remove_orphans_stats w r w' :
  remove_orphans w = (r, w') →
  w_stats w' = w_stats w
  ∨ ∃ O : gset string,
      (∀ p, p ∈ O ↔ orphan (w_coll w) p)
      ∧ w_stats w' = set_removed (Z.of_nat (size O)) (w_stats w).
Proof.
  intros Hrun. destruct (faulty (w_calls w)) eqn:Hf.
  { unfold remove_orphans, bind, coll_get_all, remote in Hrun.
    rewrite Hf in Hrun. injection Hrun as <- <-. by left. }
  destruct (decide (w_coll w = [])) as [Hnil|Hne].
  { unfold remove_orphans, bind, coll_get_all, remote in Hrun.
    rewrite Hf, Hnil in Hrun. injection Hrun as <- <-. by left. }
  destruct (path_values (r_metadata <$> w_coll w)) as [e|paths] eqn:Hm; cycle 1.
  2:{ unfold remove_orphans, bind, coll_get_all, remote in Hrun.
      rewrite Hf in Hrun. simpl in Hrun.
      rewrite bool_decide_true in Hrun by (by destruct (w_coll w)).
      rewrite Hm in Hrun. injection Hrun as <- <-. by left. }
  rewrite (remove_orphans_run w paths Hf Hm Hne) in Hrun.
  right. exists (orphan_paths paths).
  split; [intros p; by apply orphan_paths_of_coll|].
  case_bool_decide.
  - unfold coll_delete_in, remote in Hrun. simpl in Hrun.
    destruct (faulty (S (w_calls w))); by injection Hrun as <- <-.
  - by injection Hrun as <- <-.
Qed.

Lemma orphan_stored coll p : orphan coll p → p ∈ stored_paths coll.
Proof.
  intros [(rec & Hrec & Hp) _]. unfold stored_paths.
  apply elem_of_list_to_set, list_elem_of_omap.
  exists rec. by rewrite Hp.
Qed.

(** The loop of the pass only goes through reachable states. *)
Lemma advance_reachable configs m files_ resumed tasks w r w' :
  reachable configs m files_ tasks w →
  advance configs m resumed tasks w = (r, w') →
  ∃ tasks', reachable configs m files_ tasks' w'
            ∧ ∀ ts, r = inr ts → ts = tasks'.
Proof.
  revert tasks w. induction resumed as [|i resumed IH]; intros tasks w Hre;
    simpl.
  - intros [= <- <-]. exists tasks. split; [done|]. by intros ts [= ->].
  - unfold bind.
    destruct (resume configs m i tasks w) as [[e|tasks1] w1] eqn:Hres.
    + intros [= <- <-]. exists tasks. split; [|done].
      by eapply reach_raise.
    + apply IH. by eapply reach_resume.
Qed.

Lemma gather_reachable configs m files_ sched tasks w r w' :
  reachable configs m files_ tasks w →
  gather configs m sched tasks w = (r, w') →
  ∃ tasks', reachable configs m files_ tasks' w'.
Proof.
  revert tasks w. induction sched as [|[i|] sched IH]; intros tasks w Hre;
    simpl.
  - unfold bind.
    destruct (advance configs m (completion (length tasks)) tasks w)
      as [[e|ts] w1] eqn:Hadv; intros [= <- <-];
      eapply advance_reachable in Hadv as (tasks' & ? & _); eauto.
  - unfold bind.
    destruct (resume configs m i tasks w) as [[e|tasks1] w1] eqn:Hres.
    + intros [= <- <-]. exists tasks. by eapply reach_raise.
    + apply IH. by eapply reach_resume.
  - destruct (forallb _ tasks); intros [= <- <-]; by exists tasks.
Qed.

(** C8. In every state the loop over the per-file tasks can reach,
    [added] and [updated] are non-negative and add up to at most the
    number of tasks that have been resumed so far, which is at most
    the number of files; [removed] is still 0; and the cleanup, run
    from such a state, leaves [added] and [updated] as they are and
    sets [removed] to at most the number of distinct string paths
    stored in the collection it starts from. *)
Theorem stats_invariant configs m files_ tasks w :
  reachable configs m files_ tasks w →
  0 ≤ s_add (w_stats w) ∧ 0 ≤ s_update (w_stats w)
  ∧ s_add (w_stats w) + s_update (w_stats w)
    ≤ Z.of_nat (count_if started tasks)
  ∧ (count_if started tasks ≤ length files_)%nat
  ∧ s_removed (w_stats w) = 0
  ∧ ∀ r w', remove_orphans w = (r, w') →
      s_add (w_stats w') = s_add (w_stats w)
      ∧ s_update (w_stats w') = s_update (w_stats w)
      ∧ 0 ≤ s_removed (w_stats w')
          ≤ Z.of_nat (size (stored_paths (w_coll w))).
Proof.
  intros [(Ha & Hu & Hsum & Hr) Hlen]%reachable_counters_ok.
  split; [done|]. split; [done|]. split.
  { rewrite Hsum. apply inj_le, count_if_le. by intros []. }
  split. { rewrite <- Hlen. apply count_if_length. }
  split; [done|]. intros r w' Hrun.
  apply remove_orphans_stats in Hrun as [->|(O & HO & ->)].
  - rewrite Hr. repeat split; try done; lia.
  - simpl. repeat split; [lia|]. apply inj_le, subseteq_size.
    intros p Hp. by apply orphan_stored, HO.
Qed.

(** *** What a task does to the collection *)

Lemma new_records_has_path ids docs p rec :
  rec ∈ new_records ids docs p → has_path p rec.
Proof.
  unfold new_records. revert docs.
  induction ids as [|i ids IH]; intros [|d docs]; simpl;
    try (by intros ?%elem_of_nil).
  intros [->|?]%elem_of_cons; [done|]. by eapply IH.
Qed.

Lemma new_records_content ids docs p :
  length ids = length docs →
  content <$> new_records ids docs p = (λ d, (d, Some (MStr p))) <$> docs.
Proof.
  unfold new_records. revert docs.
  induction ids as [|i ids IH]; intros [|d docs] Hlen; simplify_eq/=;
    [done|]. f_equal. by apply IH.
Qed.

Lemma add_batches_ok p bs w w' :
  add_batches p bs w = (inr tt, w') →
  w_coll w' =
    w_coll w ++ new_records (seq (w_uuid w) (length (concat bs)))
                  (concat bs) p
  ∧ w_uuid w' = (w_uuid w + length (concat bs))%nat
  ∧ w_stats w' = w_stats w.
Proof.
  revert w. induction bs as [|b bs IH]; intros w Hrun; simpl in Hrun.
  - injection Hrun as <-. simpl. by rewrite app_nil_r, Nat.add_0_r.
  - unfold bind, get_uuids, coll_add, remote in Hrun. simpl in Hrun.
    destruct (faulty (w_calls w)); [done|].
    apply IH in Hrun as (Hc & Hu & Hs). simpl in Hc, Hu, Hs.
    rewrite Hc, Hu, Hs. simpl.
    rewrite length_app, seq_app, new_records_app by by rewrite length_seq.
    rewrite <- app_assoc. repeat split. lia.
Qed.



Lemma filter_has_path_replaced p (coll news : list record) :
  (∀ rec, rec ∈ news → has_path p rec) →
  filter (has_path p) (filter (λ r, ¬ has_path p r) coll ++ news) = news.
Proof.
  intros Hnews. rewrite filter_app, filter_none, filter_all; [done..|].
  by intros rec [? _]%list_elem_of_filter.
Qed.


(** *** A pass without failures *)

(** The records stored under a given ["path"] value. *)
Definition by_key (key : option metaval) (coll : list record)
  : list record :=
  filter (λ r, r_path r = key) coll.

(** The key of a file's records. *)
Definition key_of (file : string) : option metaval :=
  Some (MStr (expand_path file)).

(** What a file's records hold once it is synchronised. *)
Definition target (configs : Config) (p : string)
  : list (string * option metaval) :=
  match open_file p with
  | Some text => (λ d, (d, Some (MStr p))) <$> file_chunks configs p text
  | None => []
  end.

Lemma by_key_has_path p coll :
  filter (has_path p) coll = by_key (Some (MStr p)) coll.
Proof. by apply list_filter_iff. Qed.

Lemma by_key_app key l1 l2 :
  by_key key (l1 ++ l2) = by_key key l1 ++ by_key key l2.
Proof. apply filter_app. Qed.

Lemma by_key_deleted_own p coll :
  by_key (Some (MStr p)) (filter (λ r, ¬ has_path p r) coll) = [].
Proof. apply filter_none. by intros rec [? _]%list_elem_of_filter. Qed.

Lemma by_key_deleted_other key p coll :
  key ≠ Some (MStr p) →
  by_key key (filter (λ r, ¬ has_path p r) coll) = by_key key coll.
Proof.
  intros Hne. unfold by_key. rewrite list_filter_filter.
  apply list_filter_iff. intros rec. unfold has_path. naive_solver.
Qed.

Lemma by_key_new_own p news :
  (∀ rec, rec ∈ news → has_path p rec) → by_key (Some (MStr p)) news = news.
Proof. intros H. by apply filter_all. Qed.

Lemma by_key_new_other key p news :
  key ≠ Some (MStr p) →
  (∀ rec, rec ∈ news → has_path p rec) → by_key key news = [].
Proof.
  intros Hne H. apply filter_none. intros rec Hrec%H Hkey.
  unfold has_path in Hrec. congruence.
Qed.

Lemma add_batches_returns p bs w :
  (∀ n, faulty n = false) → ∃ w', add_batches p bs w = (inr tt, w').
Proof.
  intros Hnf. revert w. induction bs as [|b bs IH]; intros w; simpl.
  - by eexists.
  - unfold bind, get_uuids, coll_add, remote. simpl. rewrite Hnf. apply IH.
Qed.

Lemma file_chunks_nonempty configs p text : file_chunks configs p text ≠ [].
Proof. unfold file_chunks. by destruct (FileChunker _ _ _). Qed.

(** Without failures a stage returns, and this is what it does. *)
Lemma stage_effect configs m file ph w text :
  (∀ n, faulty n = false) →
  1 ≤ m →
  open_file (expand_path file) = Some text →
  let p := expand_path file in
  ∃ ph' w',
    stage configs m file ph w = (inr ph', w')
    ∧ match ph with
      | Query =>
          ph' = Reconcile (length (by_key (key_of file) (w_coll w)))
          ∧ w_coll w' = w_coll w ∧ w_stats w' = w_stats w
      | Reconcile n =>
          ph' = Upload
          ∧ if bool_decide (n ≠ 0%nat)
            then w_coll w' = filter (λ r, ¬ has_path p r) (w_coll w)
                 ∧ w_stats w' = bump Update (w_stats w)
            else w_coll w' = w_coll w
                 ∧ w_stats w' = bump Add (w_stats w)
      | Upload =>
          ph' = Done
          ∧ w_stats w' = w_stats w
          ∧ ∃ news, w_coll w' = w_coll w ++ news
                    ∧ (∀ rec, rec ∈ news → has_path p rec)
                    ∧ content <$> news = target configs p
      | Done => ph' = Done ∧ w' = w
      end.
Proof.
  intros Hnf Hm Hopen p. subst p.
  destruct ph as [|n| |]; simpl; unfold bind.
  - rewrite existing_chunks_eq, Hnf. eexists _, _. split; [done|].
    by rewrite by_key_has_path.
  - rewrite reconcile_eq. case_bool_decide.
    + rewrite Hnf. by eexists _, _.
    + by eexists _, _.
  - set (p := expand_path file) in *.
    destruct (batches_partition m (file_chunks configs p text) Hm)
      as (bs & Hbs & Hcat & _).
    unfold upload, bind, open_. rewrite Hopen. simpl. rewrite Hbs.
    destruct (add_batches_returns p bs w Hnf) as [w' Hrun]. rewrite Hrun.
    apply add_batches_ok in Hrun as (Hc & _ & Hs).
    eexists _, _. split; [done|]. split; [done|]. split; [done|].
    eexists. split; [exact Hc|]. split; [intros rec; apply new_records_has_path|].
    rewrite new_records_content by by rewrite length_seq.
    unfold target. by rewrite Hopen, Hcat.
  - by eexists _, _.
Qed.

(** How far a task has got. *)
Definition rank (ph : phase) : nat :=
  match ph with Query => 0 | Reconcile _ => 1 | Upload => 2 | Done => 3 end.

(** [stage_effect] in terms of the records under the file's own key
    and under the other keys. *)
Lemma stage_digest configs m file ph w :
  (∀ n, faulty n = false) →
  1 ≤ m →
  is_Some (open_file (expand_path file)) →
  ∃ ph' w',
    stage configs m file ph w = (inr ph', w')
    ∧ rank ph' = Nat.min (rank ph + 1)%nat 3
    ∧ (∀ key, key ≠ key_of file →
         by_key key (w_coll w') = by_key key (w_coll w))
    ∧ let K := by_key (key_of file) (w_coll w) in
      let K' := by_key (key_of file) (w_coll w') in
      match ph with
      | Query =>
          ph' = Reconcile (length K) ∧ K' = K ∧ w_stats w' = w_stats w
      | Reconcile n =>
          ph' = Upload
          ∧ if bool_decide (n ≠ 0%nat)
            then K' = [] ∧ w_stats w' = bump Update (w_stats w)
            else K' = K ∧ w_stats w' = bump Add (w_stats w)
      | Upload =>
          ph' = Done
          ∧ content <$> K' = (content <$> K)
                             ++ target configs (expand_path file)
          ∧ w_stats w' = w_stats w
      | Done => ph' = Done ∧ K' = K ∧ w_stats w' = w_stats w
      end.
Proof.
  intros Hnf Hm [text Hopen].
  destruct (stage_effect configs m file ph w text Hnf Hm Hopen)
    as (ph' & w' & Hst & Heff).
  exists ph', w'. split; [done|]. unfold key_of.
  destruct ph as [|n| |].
  - destruct Heff as (-> & Hc & Hs). rewrite Hc. done.
  - destruct Heff as (-> & Heff). split; [done|]. case_bool_decide.
    + destruct Heff as [-> ->]. split; [|by rewrite by_key_deleted_own].
      intros key Hkey. by apply by_key_deleted_other.
    + destruct Heff as [-> ->]. done.
  - destruct Heff as (-> & Hs & news & -> & Hnews & Hcont).
    split; [done|]. split.
    + intros key Hkey.
      rewrite by_key_app, (by_key_new_other key (expand_path file) news);
        [by rewrite app_nil_r|done..].
    + split; [done|]. split; [|done].
      by rewrite by_key_app, (by_key_new_own _ news Hnews), fmap_app, Hcont.
  - destruct Heff as [-> ->]. done.
Qed.

Section Healthy.

(** A pass over readable files with distinct canonical paths,
    against a remote side that never fails and accepts batches of
    at least one document. *)
Variable configs : Config.
Variable m : Z.
Variable files_ : list string.
Hypothesis no_faults : ∀ n, faulty n = false.
Hypothesis batch_pos : 1 ≤ m.
Hypothesis readable :
  ∀ f, f ∈ files_ → is_Some (open_file (expand_path f)).
Hypothesis distinct : NoDup (expand_path <$> files_).

(** The records under a task's key, by the point the task is at,
    relative to the collection [C0] the pass started from. *)
Definition task_ok (C0 : list record) (w : world) (t : string * phase)
  : Prop :=
  let K := by_key (key_of t.1) (w_coll w) in
  let K0 := by_key (key_of t.1) C0 in
  match t.2 with
  | Query => K = K0
  | Reconcile n => K = K0 ∧ n = length K0
  | Upload => K = []
  | Done => content <$> K = target configs (expand_path t.1)
  end.

(** A key of none of the files of the pass. *)
Definition foreign (key : option metaval) : Prop :=
  ∀ f, f ∈ files_ → key ≠ key_of f.

Definition pass_inv (C0 : list record) (tasks : list (string * phase))
    (w : world) : Prop :=
  tasks.*1 = files_
  ∧ (∀ i t, tasks !! i = Some t → task_ok C0 w t)
  ∧ (∀ key, foreign key → by_key key (w_coll w) = by_key key C0)
  ∧ ((∀ f, f ∈ files_ → by_key (key_of f) C0 ≠ []) →
     s_add (w_stats w) = 0)
  ∧ counters_ok tasks w.

Lemma task_file (tasks : list (string * phase)) i file ph :
  tasks.*1 = files_ → tasks !! i = Some (file, ph) → file ∈ files_.
Proof using Type.
  intros Hfst Hi. rewrite <- Hfst. apply list_elem_of_fmap.
  exists (file, ph). split; [done|]. by eapply list_elem_of_lookup_2.
Qed.

Lemma task_keys_distinct (tasks : list (string * phase)) i j f ph g ph' :
  tasks.*1 = files_ → i ≠ j →
  tasks !! i = Some (f, ph) → tasks !! j = Some (g, ph') →
  key_of g ≠ key_of f.
Proof using distinct.
  intros Hfst Hij Hi Hj [= Heq]. apply Hij.
  apply (NoDup_lookup _ i j (expand_path f) distinct).
  - by rewrite <- Hfst, <- list_fmap_compose, list_lookup_fmap, Hi.
  - by rewrite <- Hfst, <- list_fmap_compose, list_lookup_fmap, Hj, <- Heq.
Qed.

Lemma resume_inv C0 tasks w i :
  pass_inv C0 tasks w →
  ∃ tasks' w',
    resume configs m i tasks w = (inr tasks', w')
    ∧ pass_inv C0 tasks' w'
    ∧ length tasks' = length tasks
    ∧ (∀ j, j ≠ i → tasks' !! j = tasks !! j)
    ∧ (∀ f ph, tasks !! i = Some (f, ph) →
         ∃ ph', tasks' !! i = Some (f, ph')
                ∧ rank ph' = Nat.min (rank ph + 1)%nat 3).
Proof using no_faults batch_pos readable distinct.
  intros Hinv. pose proof Hinv as (Hfst & Htasks & Hforeign & Hadd & Hcnt).
  destruct (tasks !! i) as [[file ph]|] eqn:Hi.
  2:{ exists tasks, w. unfold resume. rewrite Hi.
      split; [done|]. split; [done|]. split; [done|].
      split; [done|]. by intros. }
  assert (file ∈ files_) as Hfile by by eapply task_file.
  destruct (stage_digest configs m file ph w no_faults batch_pos
              (readable _ Hfile))
    as (ph' & w' & Hst & Hrank & Hframe & Hown).
  assert (resume configs m i tasks w
          = (inr (<[i := (file, ph')]> tasks), w')) as Hres.
  { unfold resume, bind. by rewrite Hi, Hst. }
  exists (<[i := (file, ph')]> tasks), w'. split; [done|].
  assert (i < length tasks)%nat as Hlt by by eapply lookup_lt_Some.
  split; [|split; [by rewrite length_insert|split]].
  - split; [|split; [|split; [|split]]].
    + rewrite list_fmap_insert. simpl. rewrite <- Hfst.
      apply list_insert_id. by rewrite list_lookup_fmap, Hi.
    + intros j t Hj. destruct (decide (j = i)) as [->|Hji].
      * rewrite list_lookup_insert_eq in Hj by done. injection Hj as <-.
        specialize (Htasks i _ Hi). unfold task_ok in *. simpl in *.
        destruct ph as [|n| |].
        -- destruct Hown as (-> & -> & _). by rewrite Htasks.
        -- destruct Htasks as [HK ->]. destruct Hown as (-> & Hown).
           case_bool_decide as Hn; [by destruct Hown|].
           destruct Hown as [-> _]. rewrite HK.
           apply nil_length_inv. lia.
        -- destruct Hown as (-> & -> & _). by rewrite Htasks.
        -- destruct Hown as (-> & -> & _). done.
      * rewrite list_lookup_insert_ne in Hj by done. destruct t as [g phj].
        assert (key_of g ≠ key_of file) as Hk
          by by eapply (task_keys_distinct tasks i j).
        specialize (Htasks j _ Hj). unfold task_ok in *. simpl in *.
        by rewrite (Hframe _ Hk).
    + intros key Hkey. rewrite Hframe; [by apply Hforeign|].
      by apply Hkey.
    + intros Hall. specialize (Hadd Hall).
      specialize (Htasks i _ Hi). unfold task_ok in Htasks.
      simpl in Htasks. destruct ph as [|n| |].
      * destruct Hown as (_ & _ & ->). done.
      * destruct Htasks as [_ ->]. destruct Hown as (_ & Hown).
        rewrite bool_decide_true in Hown.
        -- destruct Hown as [_ ->]. done.
        -- specialize (Hall file Hfile).
           by destruct (by_key (key_of file) C0).
      * destruct Hown as (_ & _ & ->). done.
      * destruct Hown as (_ & _ & ->). done.
    + by apply (resume_counters_ok _ _ _ _ _ _ _ Hcnt) in Hres as [? _].
  - intros j Hj. by rewrite list_lookup_insert_ne.
  - intros f ph0 [= <- <-]. exists ph'.
    by rewrite list_lookup_insert_eq.
Qed.

Lemma rank_done ph : rank ph = 3%nat → ph = Done.
Proof using Type. by destruct ph. Qed.

(** Three resumptions take a task to its end. *)
Lemma resume_thrice_inv C0 tasks w i :
  pass_inv C0 tasks w →
  ∃ tasks' w',
    advance configs m [i; i; i] tasks w = (inr tasks', w')
    ∧ pass_inv C0 tasks' w'
    ∧ length tasks' = length tasks
    ∧ (∀ j, j ≠ i → tasks' !! j = tasks !! j)
    ∧ (∀ t, tasks' !! i = Some t → t.2 = Done).
Proof using no_faults batch_pos readable distinct.
  intros Hinv.
  destruct (resume_inv C0 tasks w i Hinv)
    as (t1 & w1 & Hr1 & Hinv1 & Hl1 & Ho1 & Hi1).
  destruct (resume_inv C0 t1 w1 i Hinv1)
    as (t2 & w2 & Hr2 & Hinv2 & Hl2 & Ho2 & Hi2).
  destruct (resume_inv C0 t2 w2 i Hinv2)
    as (t3 & w3 & Hr3 & Hinv3 & Hl3 & Ho3 & Hi3).
  exists t3, w3. simpl. unfold bind. rewrite Hr1, Hr2, Hr3.
  split; [done|]. split; [done|]. split; [congruence|]. split.
  - intros j Hj. by rewrite Ho3, Ho2, Ho1.
  - intros t Ht. destruct (tasks !! i) as [[f ph]|] eqn:Hi.
    + destruct (Hi1 f ph eq_refl) as (ph1 & Ht1 & Hk1).
      destruct (Hi2 f ph1 Ht1) as (ph2 & Ht2 & Hk2).
      destruct (Hi3 f ph2 Ht2) as (ph3 & Ht3 & Hk3).
      rewrite Ht3 in Ht. injection Ht as <-. simpl.
      apply rank_done. lia.
    + apply lookup_ge_None in Hi.
      assert (t3 !! i = None) as Hnone by (apply lookup_ge_None; lia).
      congruence.
Qed.

Lemma advance_app resumed1 resumed2 tasks w :
  advance configs m (resumed1 ++ resumed2) tasks w =
    match advance configs m resumed1 tasks w with
    | (inl e, w') => (inl e, w')
    | (inr tasks', w') => advance configs m resumed2 tasks' w'
    end.
Proof using Type.
  revert tasks w. induction resumed1 as [|i resumed1 IH]; intros tasks w;
    simpl; [done|].
  unfold bind. destruct (resume configs m i tasks w) as [[e|tasks'] w'];
    [done|]. apply IH.
Qed.

Lemma completion_S k : completion (S k) = completion k ++ [k; k; k].
Proof using Type.
  unfold completion. by rewrite seq_S, fmap_app, concat_app.
Qed.

Lemma advance_completion_inv C0 k tasks w :
  pass_inv C0 tasks w →
  ∃ tasks' w',
    advance configs m (completion k) tasks w = (inr tasks', w')
    ∧ pass_inv C0 tasks' w'
    ∧ length tasks' = length tasks
    ∧ (∀ j t, (j < k)%nat → tasks' !! j = Some t → t.2 = Done).
Proof using no_faults batch_pos readable distinct.
  intros Hinv. induction k as [|k (t1 & w1 & Hadv & Hinv1 & Hl1 & Hd1)].
  - exists tasks, w. split; [done|]. split; [done|]. split; [done|].
    intros j t Hj. lia.
  - destruct (resume_thrice_inv C0 t1 w1 k Hinv1)
      as (t2 & w2 & Hadv2 & Hinv2 & Hl2 & Ho2 & Hd2).
    exists t2, w2. rewrite completion_S, advance_app, Hadv.
    split; [done|]. split; [done|]. split; [congruence|].
    intros j t Hj Ht. destruct (decide (j = k)) as [->|Hjk].
    + by apply Hd2.
    + rewrite Ho2 in Ht by done. apply (Hd1 j); [lia|done].
Qed.

(** Under a schedule without cancellation the loop returns with
    every task at its end. *)
Lemma gather_inv C0 sched tasks w :
  Forall (λ e, e ≠ Cancel) sched →
  pass_inv C0 tasks w →
  ∃ tasks' w',
    gather configs m sched tasks w = (inr tt, w')
    ∧ pass_inv C0 tasks' w'
    ∧ Forall (λ t, t.2 = Done) tasks'.
Proof using no_faults batch_pos readable distinct.
  intros Hsched. revert tasks w.
  induction Hsched as [|[i|] sched He _ IH]; intros tasks w Hinv; simpl.
  - destruct (advance_completion_inv C0 (length tasks) tasks w Hinv)
      as (tasks' & w' & Hadv & Hinv' & Hlen & Hdone).
    exists tasks', w'. unfold bind. rewrite Hadv.
    split; [done|]. split; [done|].
    apply Forall_lookup. intros j t Ht. apply (Hdone j); [|done].
    rewrite <- Hlen. by eapply lookup_lt_Some.
  - destruct (resume_inv C0 tasks w i Hinv)
      as (tasks1 & w1 & Hres & Hinv1 & _).
    unfold bind. rewrite Hres. by apply IH.
  - done.
Qed.

Lemma count_if_all_done tasks :
  Forall (λ t, t.2 = Done) tasks → count_if counted tasks = length tasks.
Proof using Type.
  intros Hdone. unfold count_if. f_equal. apply filter_all.
  intros t Ht. rewrite Forall_forall in Hdone. by rewrite (Hdone t Ht).
Qed.

(** What the loop has achieved when every task is at its end. *)
Lemma pass_inv_done C0 tasks w :
  pass_inv C0 tasks w →
  Forall (λ t, t.2 = Done) tasks →
  (∀ f, f ∈ files_ →
     content <$> by_key (key_of f) (w_coll w)
     = target configs (expand_path f))
  ∧ s_add (w_stats w) + s_update (w_stats w) = Z.of_nat (length files_)
  ∧ 0 ≤ s_add (w_stats w)
  ∧ s_removed (w_stats w) = 0.
Proof using Type.
  intros (Hfst & Htasks & _ & _ & Ha & Hu & Hsum & Hr) Hdone.
  split; [|split; [|done]].
  - intros f Hf. rewrite <- Hfst in Hf.
    apply list_elem_of_fmap in Hf as ([f' ph] & -> & Ht).
    pose proof Ht as (i & Hi)%list_elem_of_lookup.
    specialize (Htasks i _ Hi). rewrite Forall_forall in Hdone.
    specialize (Hdone _ Ht). simpl in Hdone. subst ph. done.
  - by rewrite Hsum, count_if_all_done, <- Hfst, length_fmap.
Qed.

End Healthy.

Lemma filter_ext_in {A} (P Q : A → Prop)
    `{!∀ x, Decision (P x), !∀ x, Decision (Q x)} (l : list A) :
  (∀ x, x ∈ l → (P x ↔ Q x)) → filter P l = filter Q l.
Proof.
  induction l as [|x l IH]; intros Hext; [done|].
  rewrite !filter_cons.
  rewrite IH by (intros y Hy; apply Hext; by right).
  destruct (decide (P x)) as [HP|HP], (decide (Q x)) as [HQ|HQ]; try done;
    exfalso; apply (Hext x) in HP || apply (Hext x) in HQ; try done; by left.
Qed.

Lemma by_key_filter_keep key (Q : record → Prop) `{!∀ r, Decision (Q r)}
    coll :
  (∀ rec, rec ∈ coll → r_path rec = key → Q rec) →
  by_key key (filter Q coll) = by_key key coll.
Proof.
  intros HQ. unfold by_key. rewrite list_filter_filter.
  apply filter_ext_in. naive_solver.
Qed.

Lemma elem_of_by_key key coll rec :
  rec ∈ by_key key coll ↔ r_path rec = key ∧ rec ∈ coll.
Proof. unfold by_key. by rewrite list_elem_of_filter. Qed.

Lemma spawn_files files_ : (spawn files_).*1 = files_.
Proof.
  unfold spawn. induction files_ as [|f fs IH]; [done|].
  rewrite !fmap_cons. simpl. by f_equal.
Qed.

Lemma spawn_lookup files_ i t :
  spawn files_ !! i = Some t → t.2 = Query.
Proof.
  unfold spawn. rewrite list_lookup_fmap.
  destruct (files_ !! i); by intros [= <-].
Qed.

Lemma pass_inv_spawn configs files_ w :
  w_stats w = Stats 0 0 0 →
  pass_inv configs files_ (w_coll w) (spawn files_) w.
Proof.
  intros Hs. split; [apply spawn_files|]. split.
  { intros i t Ht. unfold task_ok. by rewrite (spawn_lookup _ _ _ Ht). }
  split; [done|]. split; [by rewrite Hs|].
  unfold counters_ok. by rewrite Hs, count_if_spawn.
Qed.

(** A key is foreign to the pass or belongs to one of its files. *)
Lemma foreign_or_own files_ key :
  foreign files_ key ∨ ∃ f, f ∈ files_ ∧ key = key_of f.
Proof.
  destruct (decide (key ∈ key_of <$> files_)) as [Hin|Hout].
  - right. apply list_elem_of_fmap in Hin as (f & -> & Hf). by exists f.
  - left. intros f Hf ->. apply Hout, list_elem_of_fmap. by exists f.
Qed.

(** One complete pass over readable regular files with distinct
    canonical paths, without failure or cancellation. *)
Lemma sync_healthy configs files_ sched w :
  (∀ n, faulty n = false) →
  1 ≤ remote_max_batch_size →
  (∀ f, f ∈ files_ → isfile (expand_path f) = true) →
  (∀ f, f ∈ files_ → is_Some (open_file (expand_path f))) →
  NoDup (expand_path <$> files_) →
  Forall (λ e, e ≠ Cancel) sched →
  (∀ rec, rec ∈ w_coll w → is_Some (r_path rec)) →
  ∃ w',
    sync configs files_ sched w = (inr 0, w')
    ∧ (∀ f, f ∈ files_ →
         content <$> by_key (key_of f) (w_coll w')
         = target configs (expand_path f))
    ∧ (∀ rec p, rec ∈ w_coll w' → r_path rec = Some (MStr p) →
                isfile p = true)
    ∧ (∀ key, foreign files_ key →
              (∀ p, key = Some (MStr p) → isfile p = true) →
              by_key key (w_coll w') = by_key key (w_coll w))
    ∧ (∀ rec, rec ∈ w_coll w' → is_Some (r_path rec))
    ∧ s_add (w_stats w') + s_update (w_stats w') = Z.of_nat (length files_)
    ∧ ((∀ f, f ∈ files_ → by_key (key_of f) (w_coll w) ≠ []) →
       s_add (w_stats w') = 0)
    ∧ ((∀ rec p, rec ∈ w_coll w → r_path rec = Some (MStr p) →
                 isfile p = true) →
       s_removed (w_stats w') = 0).
Proof.
  intros Hnf Hm Hreg Hread Hnd Hsched Hpaths.
  set (w1 := log (ECall MaxBatchSize true)
               (tick (set_stats (λ _, Stats 0 0 0) w))).
  assert (pass_inv configs files_ (w_coll w) (spawn files_) w1) as Hinv0
    by by apply (pass_inv_spawn configs files_ w1).
  destruct (gather_inv configs remote_max_batch_size files_ Hnf Hm Hread Hnd
              (w_coll w) sched _ _ Hsched Hinv0)
    as (tasks & wg & Hg & Hinv & Hdone).
  destruct (pass_inv_done configs files_ _ _ _ Hinv Hdone)
    as (Hown & Hsum & Ha0 & Hr0).
  pose proof Hinv as (_ & _ & Hforeign & Hadd & _).
  (* every record still carries a path *)
  assert (∀ rec, rec ∈ w_coll wg → is_Some (r_path rec)) as Hpaths_g.
  { intros rec Hrec. destruct (r_path rec) as [v|] eqn:Hv; [done|].
    assert (rec ∈ by_key None (w_coll wg)) as Hin
      by by apply elem_of_by_key.
    rewrite Hforeign in Hin by (by intros f _).
    apply elem_of_by_key in Hin as [_ Hin].
    apply Hpaths in Hin. rewrite Hv in Hin. by destruct Hin. }
  destruct (remove_orphans wg) as [r wc] eqn:Hro.
  destruct (remove_orphans_effect wg r wc (Hnf _) Hpaths_g Hr0 Hro)
    as (O & T & HO & Hrem & Hadd' & Hupd' & _ & _ & Hcoll & Hret).
  specialize (Hret (Hnf _)). subst r. specialize (Hcoll eq_refl).
  (* the records of the files are not orphans *)
  assert (∀ rec p, rec ∈ w_coll wg → r_path rec = Some (MStr p) →
                   isfile p = true →
                   ¬ ∃ q, q ∈ O ∧ has_path q rec) as Hkeep.
  { intros rec p Hrec Hp Hfile (q & [_ Hq]%HO & Hhas).
    unfold has_path in Hhas. congruence. }
  exists (log (if pipe configs then EShowJson (w_stats wc)
               else EShowTable (w_stats wc)) wc).
  split.
  { unfold sync, bind, get_max_batch_size, remote, catch. simpl.
    rewrite Hnf. fold w1. unfold bind. rewrite Hg. simpl. rewrite Hro.
    unfold show_stats, emit. by destruct (pipe configs). }
  assert (w_coll (log (if pipe configs then EShowJson (w_stats wc)
                       else EShowTable (w_stats wc)) wc) = w_coll wc)
    as -> by done.
  assert (w_stats (log (if pipe configs then EShowJson (w_stats wc)
                        else EShowTable (w_stats wc)) wc) = w_stats wc)
    as -> by done.
  rewrite Hcoll. split; [|split; [|split; [|split; [|split; [|split]]]]].
  - intros f Hf. rewrite <- (Hown f Hf). f_equal.
    apply by_key_filter_keep. intros rec Hrec Hkey.
    by apply (Hkeep rec (expand_path f) Hrec Hkey), Hreg.
  - intros rec p [Hno Hrec]%list_elem_of_filter Hp.
    destruct (isfile p) eqn:Hfile; [done|]. exfalso. apply Hno.
    exists p. split; [|done]. apply HO. split; [by exists rec|done].
  - intros key Hkey Hfile. rewrite <- (Hforeign key Hkey).
    apply by_key_filter_keep. intros rec Hrec Hk (q & [_ Hq]%HO & Hhas).
    unfold has_path in Hhas. rewrite Hk in Hhas.
    specialize (Hfile q Hhas). congruence.
  - intros rec [_ Hrec]%list_elem_of_filter. by apply Hpaths_g.
  - by rewrite Hadd', Hupd'.
  - intros Hall. rewrite Hadd'. by apply Hadd.
  - intros Hclean. rewrite Hrem.
    assert (O = ∅) as ->; [|done]. apply set_eq. intros p.
    rewrite HO. split; [|by intros ?%not_elem_of_empty].
    intros [(rec & Hrec & Hp) Hfile]. exfalso.
    destruct (foreign_or_own files_ (Some (MStr p))) as [Hfor|(f & Hf & Hk)].
    + assert (rec ∈ by_key (Some (MStr p)) (w_coll wg)) as Hin
        by by apply elem_of_by_key.
      rewrite (Hforeign _ Hfor) in Hin.
      apply elem_of_by_key in Hin as [_ Hin].
      specialize (Hclean rec p Hin Hp). congruence.
    + injection Hk as ->. specialize (Hreg f Hf). congruence.
Qed.

(** Two collections that agree key by key hold the same contents up
    to order. *)
Lemma by_key_complement key coll :
  by_key key coll ++ filter (λ r, r_path r ≠ key) coll ≡ₚ coll.
Proof. unfold by_key. apply (filter_app_complement (λ r, r_path r = key)). Qed.

Lemma by_key_perm (l1 l2 : list record) :
  (∀ key, content <$> by_key key l1 = content <$> by_key key l2) →
  content <$> l1 ≡ₚ content <$> l2.
Proof.
  remember (length l1) as n eqn:Hn. revert l1 l2 Hn.
  induction n as [n IH] using lt_wf_ind. intros l1 l2 -> Hkeys.
  destruct l1 as [|x l1].
  - destruct l2 as [|y l2]; [done|]. exfalso.
    specialize (Hkeys (r_path y)). unfold by_key in Hkeys.
    rewrite filter_cons_True in Hkeys by done. done.
  - set (k := r_path x).
    set (rest1 := filter (λ r, r_path r ≠ k) (x :: l1)).
    set (rest2 := filter (λ r, r_path r ≠ k) l2).
    assert (content <$> rest1 ≡ₚ content <$> rest2) as Hrest.
    { apply (IH (length rest1)); [|done|].
      - apply (length_filter_lt _ _ x); [left|]. by intros Hx.
      - intros key. destruct (decide (key = k)) as [->|Hne].
        + unfold rest1, rest2, by_key.
          rewrite !filter_none; [done|..];
            by intros rec [? _]%list_elem_of_filter.
        + unfold rest1, rest2.
          rewrite !by_key_filter_keep; [apply Hkeys|..];
            intros rec _ ->; done. }
    rewrite <- (by_key_complement k (x :: l1)), <- (by_key_complement k l2).
    rewrite !fmap_app, (Hkeys k). by apply Permutation_app_head.
Qed.

Lemma target_nonempty configs p :
  is_Some (open_file p) → target configs p ≠ [].
Proof.
  intros [text Hopen]. unfold target. rewrite Hopen.
  pose proof (file_chunks_nonempty configs p text).
  by destruct (file_chunks configs p text).
Qed.


End Pass.

(** ** Further properties of the pass

    Failure and edge behaviour of the tasks, what a pass that returns
    leaves behind, and how the collection is acquired. *)

Section Further.

Context {env : Environment}.

(** *** A task whose upload goes wrong *)

(** The world a task has reached when its query and, for a known file,
    its delete have returned. *)
Definition reconciled (p : string) (w : world) : world :=
  let w1 := log (ECall (GetWhere p) true) (tick w) in
  if bool_decide (filter (has_path p) (w_coll w) ≠ []) then
    log (EIncr Update)
      (set_stats (bump Update)
         (log (ECall (DeleteWhere p) true)
            (set_coll (filter (λ r, ¬ has_path p r)) (tick w1))))
  else log (EIncr Add) (set_stats (bump Add) w1).

Lemma reconciled_coll p w :
  w_coll (reconciled p w) = filter (λ r, ¬ has_path p r) (w_coll w).
Proof.
  unfold reconciled. case_bool_decide as Hold; [done|]. simpl.
  symmetry. apply filter_all. intros rec Hrec Hp.
  assert (rec ∈ filter (has_path p) (w_coll w)) as Hin
    by by apply list_elem_of_filter.
  rewrite Hold in Hin. by apply elem_of_nil in Hin.
Qed.

Lemma reconciled_stats p w :
  w_stats (reconciled p w)
  = bump (if bool_decide (filter (has_path p) (w_coll w) ≠ [])
          then Update else Add) (w_stats w).
Proof. unfold reconciled. by case_bool_decide. Qed.

Lemma reconciled_uuid p w : w_uuid (reconciled p w) = w_uuid w.
Proof. unfold reconciled. by case_bool_decide. Qed.

(** Once the query and the delete have returned, the task is its
    upload. *)
Lemma chunked_add_upload configs m file w :
  faulty (w_calls w) = false →
  (filter (has_path (expand_path file)) (w_coll w) ≠ [] →
   faulty (S (w_calls w)) = false) →
  chunked_add configs m file w
  = upload configs m (expand_path file) (reconciled (expand_path file) w).
Proof.
  intros Hf0 Hf1. unfold chunked_add, reconciled.
  set (p := expand_path file). unfold bind at 1.
  rewrite existing_chunks_eq, Hf0. unfold bind at 1. rewrite reconcile_eq.
  assert (bool_decide (length (filter (has_path p) (w_coll w)) ≠ 0%nat)
          = bool_decide (filter (has_path p) (w_coll w) ≠ [])) as ->.
  { apply bool_decide_ext. by destruct (filter (has_path p) (w_coll w)). }
  case_bool_decide; [|done]. simpl. by rewrite Hf1.
Qed.

Lemma chunked_add_cases configs m file w r w' :
  chunked_add configs m file w = (r, w') →
  let p := expand_path file in
  r = inl (RemoteError (GetWhere p))
  ∨ r = inl (RemoteError (DeleteWhere p))
  ∨ upload configs m p (reconciled p w) = (r, w').
Proof.
  intros Hrun p. unfold p. destruct (faulty (w_calls w)) eqn:Hf0.
  { left. revert Hrun. unfold chunked_add, bind at 1.
    rewrite existing_chunks_eq, Hf0. by intros [= <- _]. }
  destruct (decide (filter (has_path p) (w_coll w) = [])) as [Hnil|Hold].
  { right. right. by rewrite <- chunked_add_upload. }
  destruct (faulty (S (w_calls w))) eqn:Hf1.
  - right. left. revert Hrun. unfold chunked_add, bind at 1.
    rewrite existing_chunks_eq, Hf0. unfold bind at 1. rewrite reconcile_eq.
    rewrite bool_decide_true.
    + simpl. rewrite Hf1. by intros [= <- _].
    + fold p. by destruct (filter (has_path p) (w_coll w)).
  - right. right. by rewrite <- chunked_add_upload.
Qed.

(** X1. A known file that cannot be opened: its stored chunks are deleted
    and it is counted before [open] raises. *)
Theorem unreadable_file_loses_its_chunks configs m file w :
  let p := expand_path file in
  faulty (w_calls w) = false →
  (filter (has_path p) (w_coll w) ≠ [] → faulty (S (w_calls w)) = false) →
  open_file p = None →
  ∃ w',
    chunked_add configs m file w = (inl (OSError p), w')
    ∧ w_coll w' = filter (λ r, ¬ has_path p r) (w_coll w)
    ∧ w_stats w'
      = bump (if bool_decide (filter (has_path p) (w_coll w) ≠ [])
              then Update else Add) (w_stats w).
Proof.
  intros p Hf0 Hf1 Hopen. exists (reconciled p w). unfold p in *.
  rewrite chunked_add_upload by done.
  split; [|split; [apply reconciled_coll|apply reconciled_stats]].
  unfold upload, bind, open_. by rewrite Hopen.
Qed.


(** An upload that raises at an insert has stored the slices before the
    failing one and no other. *)
Lemma add_batches_failed p bs w e w' :
  add_batches p bs w = (inl e, w') →
  ∃ k docs ids,
    bs !! k = Some docs
    ∧ e = RemoteError (AddBatch ids docs p)
    ∧ w_coll w' =
        w_coll w ++ new_records (seq (w_uuid w)
                                   (length (concat (take k bs))))
                      (concat (take k bs)) p.
Proof.
  revert w. induction bs as [|b bs IH]; intros w Hrun; simpl in Hrun;
    [done|].
  unfold bind, get_uuids, coll_add, remote in Hrun. simpl in Hrun.
  destruct (faulty (w_calls w)).
  - injection Hrun as <- <-. exists 0%nat, b, (seq (w_uuid w) (length b)).
    simpl. by rewrite app_nil_r.
  - apply IH in Hrun as (k & docs & ids & Hk & -> & Hc). simpl in Hc.
    exists (S k), docs, ids. split; [done|]. split; [done|].
    rewrite Hc. simpl.
    rewrite length_app, seq_app, new_records_app by by rewrite length_seq.
    by rewrite <- app_assoc.
Qed.

(** X3. A task that raises at an insert: the chunks the file had are gone
    and the collection holds, for that file, exactly the slices that
    were inserted before the failing one; the failing slice and the
    ones after it are missing. *)
Theorem failed_insert_leaves_partial_upload
    configs m file w ids docs q w' :
  chunked_add configs m file w
  = (inl (RemoteError (AddBatch ids docs q)), w') →
  let p := expand_path file in
  ∃ text bs k,
    open_file p = Some text
    ∧ batches m (file_chunks configs p text) = Some bs
    ∧ bs !! k = Some docs
    ∧ concat bs = concat (take k bs) ++ docs ++ concat (drop (S k) bs)
    ∧ w_coll w' =
        filter (λ r, ¬ has_path p r) (w_coll w)
        ++ new_records (seq (w_uuid w) (length (concat (take k bs))))
             (concat (take k bs)) p
    ∧ r_doc <$> filter (has_path p) (w_coll w') = concat (take k bs).
Proof.
  intros Hrun p.
  destruct (chunked_add_cases _ _ _ _ _ _ Hrun) as [[=]|[[=]|Hup]].
  fold p in Hup. unfold upload, bind, open_ in Hup.
  destruct (open_file p) as [text|] eqn:Hopen; [|done]. simpl in Hup.
  destruct (batches m (file_chunks configs p text)) as [bs|] eqn:Hbs;
    [|done].
  apply add_batches_failed in Hup
    as (k & docs' & ids' & Hk & [= <- <- ->] & Hc).
  rewrite reconciled_coll, reconciled_uuid in Hc.
  exists text, bs, k. split; [done|]. split; [done|]. split; [done|].
  split; [|split; [done|]].
  - rewrite <- (take_drop_middle bs k docs Hk) at 1.
    by rewrite concat_app.
  - rewrite Hc, filter_has_path_replaced
      by (intros rec; apply new_records_has_path).
    unfold new_records. apply fmap_zip_with_r; [done|]. by rewrite length_seq.
Qed.

(** *** A pass that returns 0 *)

Lemma stage_rank configs m file ph w ph' w' :
  stage configs m file ph w = (inr ph', w') →
  rank ph' = Nat.min (rank ph + 1)%nat 3.
Proof.
  destruct ph as [|n| |]; simpl; unfold bind.
  - destruct (existing_chunks _ w) as [[e|n] w1]; by intros [= <- _].
  - destruct (reconcile _ n w) as [[e|[]] w1]; by intros [= <- _].
  - destruct (upload configs m _ w) as [[e|[]] w1]; by intros [= <- _].
  - by intros [= <- _].
Qed.

Lemma resume_returns configs m i tasks w tasks' w' :
  resume configs m i tasks w = (inr tasks', w') →
  length tasks' = length tasks
  ∧ (∀ j, j ≠ i → tasks' !! j = tasks !! j)
  ∧ (∀ f ph, tasks !! i = Some (f, ph) →
       ∃ ph', tasks' !! i = Some (f, ph')
              ∧ rank ph' = Nat.min (rank ph + 1)%nat 3).
Proof.
  unfold resume. destruct (tasks !! i) as [[file ph]|] eqn:Hi.
  2:{ intros [= <- <-]. split; [done|]. split; [done|]. by intros. }
  unfold bind.
  destruct (stage configs m file ph w) as [[e|ph'] w1] eqn:Hst; [done|].
  intros [= <- <-]. apply stage_rank in Hst.
  assert (i < length tasks)%nat as Hlt by by eapply lookup_lt_Some.
  split; [by rewrite length_insert|]. split.
  - intros j Hj. by rewrite list_lookup_insert_ne.
  - intros f ph0 [= <- <-]. exists ph'. by rewrite list_lookup_insert_eq.
Qed.

Lemma resume_thrice_returns configs m i tasks w tasks' w' :
  advance configs m [i; i; i] tasks w = (inr tasks', w') →
  length tasks' = length tasks
  ∧ (∀ j, j ≠ i → tasks' !! j = tasks !! j)
  ∧ (∀ t, tasks' !! i = Some t → t.2 = Done).
Proof.
  simpl. unfold bind.
  destruct (resume configs m i tasks w) as [[e|t1] w1] eqn:Hr1; [done|].
  destruct (resume configs m i t1 w1) as [[e|t2] w2] eqn:Hr2; [done|].
  destruct (resume configs m i t2 w2) as [[e|t3] w3] eqn:Hr3; [done|].
  intros [= <- <-].
  apply resume_returns in Hr1 as (Hl1 & Ho1 & Hi1).
  apply resume_returns in Hr2 as (Hl2 & Ho2 & Hi2).
  apply resume_returns in Hr3 as (Hl3 & Ho3 & Hi3).
  split; [congruence|]. split.
  - intros j Hj. by rewrite Ho3, Ho2, Ho1.
  - intros t Ht. destruct (tasks !! i) as [[f ph]|] eqn:Hi.
    + destruct (Hi1 f ph eq_refl) as (ph1 & Ht1 & Hk1).
      destruct (Hi2 f ph1 Ht1) as (ph2 & Ht2 & Hk2).
      destruct (Hi3 f ph2 Ht2) as (ph3 & Ht3 & Hk3).
      rewrite Ht3 in Ht. injection Ht as <-. simpl.
      apply rank_done. lia.
    + apply lookup_ge_None in Hi.
      assert (t3 !! i = None) as Hnone by (apply lookup_ge_None; lia).
      congruence.
Qed.

Lemma advance_completion_returns configs m k tasks w tasks' w' :
  advance configs m (completion k) tasks w = (inr tasks', w') →
  length tasks' = length tasks
  ∧ (∀ j t, (j < k)%nat → tasks' !! j = Some t → t.2 = Done).
Proof.
  revert tasks' w'. induction k as [|k IH]; intros tasks' w'.
  - intros [= <- <-]. split; [done|]. intros j t Hj. lia.
  - rewrite completion_S, advance_app.
    destruct (advance configs m (completion k) tasks w) as [[e|t1] w1];
      [done|].
    destruct (IH t1 w1 eq_refl) as [Hl1 Hd1].
    intros (Hl2 & Ho2 & Hd2)%resume_thrice_returns.
    split; [congruence|]. intros j t Hj Ht.
    destruct (decide (j = k)) as [->|Hjk]; [by apply Hd2|].
    rewrite Ho2 in Ht by done. apply (Hd1 j); [lia|done].
Qed.

(** When the loop over the tasks returns, every task is at its end. *)
Lemma gather_returns configs m files_ sched tasks w w' :
  reachable configs m files_ tasks w →
  gather configs m sched tasks w = (inr tt, w') →
  ∃ tasks', reachable configs m files_ tasks' w'
            ∧ Forall (λ t, t.2 = Done) tasks'.
Proof.
  revert tasks w. induction sched as [|[i|] sched IH]; intros tasks w Hre;
    simpl.
  - unfold bind.
    destruct (advance configs m (completion (length tasks)) tasks w)
      as [[e|ts] w1] eqn:Hadv; [done|]. intros [= <-].
    pose proof Hadv as (Hlen & Hdone)%advance_completion_returns.
    eapply advance_reachable in Hadv as (tasks' & Hre' & Heq); [|done].
    rewrite <- (Heq ts eq_refl) in Hre'. exists ts. split; [done|].
    apply Forall_lookup. intros j t Ht. apply (Hdone j); [|done].
    rewrite <- Hlen. by eapply lookup_lt_Some.
  - unfold bind.
    destruct (resume configs m i tasks w) as [[e|tasks1] w1] eqn:Hres;
      [done|]. apply IH. by eapply reach_resume.
  - destruct (forallb (λ t, finished t.2) tasks) eqn:Hfin; [|done].
    intros [= <-]. exists tasks. split; [done|].
    apply Forall_forall. intros t Ht.
    apply Is_true_true_2, forallb_True in Hfin.
    rewrite Forall_forall in Hfin. specialize (Hfin t Ht).
    by destruct (t.2).
Qed.

(** The world in which the tasks are spawned. *)
Definition spawned (w : world) : world :=
  log (ECall MaxBatchSize true) (tick (set_stats (λ _, Stats 0 0 0) w)).

(** What is shown at the end of a pass. *)
Definition shown (configs : Config) (w : world) : event :=
  if pipe configs then EShowJson (w_stats w) else EShowTable (w_stats w).

(** [sync], by the outcome of its loop. *)
Lemma sync_eq configs files_ sched w :
  faulty (w_calls w) = false →
  sync configs files_ sched w =
    match gather configs remote_max_batch_size sched (spawn files_)
            (spawned w) with
    | (inl CancelledError, wg) => (inr 1, log (EStderr "Abort.") wg)
    | (inl e, wg) => (inl e, wg)
    | (inr _, wg) =>
        match remove_orphans wg with
        | (inl e, wc) => (inl e, wc)
        | (inr _, wc) => (inr 0, log (shown configs wc) wc)
        end
    end.
Proof.
  intros Hf. unfold sync, bind at 1. simpl. unfold bind at 1.
  unfold get_max_batch_size, remote. simpl. rewrite Hf.
  fold (spawned w). unfold bind at 1, catch, bind at 1.
  destruct (gather _ _ _ _ (spawned w)) as [[e|[]] wg]; simpl.
  - by destruct e.
  - unfold bind. destruct (remove_orphans wg) as [[e|[]] wc]; [done|].
    unfold show_stats, shown, emit. by destruct (pipe configs).
Qed.

Lemma sync_max_batch_size_fails configs files_ sched w :
  faulty (w_calls w) = true →
  sync configs files_ sched w
  = (inl (RemoteError MaxBatchSize),
     log (ECall MaxBatchSize false)
       (tick (set_stats (λ _, Stats 0 0 0) w))).
Proof.
  intros Hf. unfold sync, bind at 1. simpl. unfold bind at 1.
  unfold get_max_batch_size, remote. simpl. by rewrite Hf.
Qed.

(** X4. A pass that returns 0 has taken every task to its end and counted
    every file once: [added + updated] is the number of files; what it
    shows last is the final stats record. *)
Theorem exit_zero_counts_every_file configs files_ sched w w' :
  sync configs files_ sched w = (inr 0, w') →
  s_add (w_stats w') + s_update (w_stats w') = Z.of_nat (length files_)
  ∧ 0 ≤ s_add (w_stats w') ∧ 0 ≤ s_update (w_stats w')
  ∧ 0 ≤ s_removed (w_stats w')
  ∧ last (w_trace w')
    = Some (if pipe configs then EShowJson (w_stats w')
            else EShowTable (w_stats w')).
Proof.
  intros Hrun. destruct (faulty (w_calls w)) eqn:Hf.
  { by rewrite sync_max_batch_size_fails in Hrun. }
  rewrite sync_eq in Hrun by done.
  destruct (gather _ _ _ _ (spawned w)) as [[e|[]] wg] eqn:Hg.
  { by destruct e. }
  destruct (remove_orphans wg) as [[e|[]] wc] eqn:Hro; [done|].
  injection Hrun as <-.
  assert (reachable configs remote_max_batch_size files_ (spawn files_)
            (spawned w)) as Hre by by apply reach_spawn.
  destruct (gather_returns _ _ _ _ _ _ _ Hre Hg) as (tasks & Hre' & Hdone).
  apply reachable_counters_ok in Hre' as [(Ha & Hu & Hsum & Hr) Hlen].
  rewrite count_if_all_done, Hlen in Hsum by done.
  assert (w_stats (log (shown configs wc) wc) = w_stats wc) as -> by done.
  split; [|split; [|split; [|split]]].
  - apply remove_orphans_stats in Hro as [->|(O & _ & ->)]; done.
  - apply remove_orphans_stats in Hro as [->|(O & _ & ->)]; done.
  - apply remove_orphans_stats in Hro as [->|(O & _ & ->)]; done.
  - apply remove_orphans_stats in Hro as [->|(O & _ & ->)]; simpl; lia.
  - simpl. by rewrite last_snoc.
Qed.

(** X5. The exception of a task is not swallowed: the pass raises it and
    stops there, without the inventory call, a bulk delete or a stats
    report.  Only [CancelledError] is turned into the status 1. *)
Theorem task_failure_ends_the_pass configs files_ sched w e wg :
  faulty (w_calls w) = false →
  gather configs remote_max_batch_size sched (spawn files_) (spawned w)
  = (inl e, wg) →
  e ≠ CancelledError →
  sync configs files_ sched w = (inl e, wg)
  ∧ emits (λ ev, ¬ cleanup_or_report ev) w wg.
Proof.
  intros Hf Hg He. split.
  - rewrite sync_eq, Hg by done. by destruct e.
  - assert (emits task_event (spawned w) wg) as Hev.
    { clear He. revert Hg. generalize (spawn files_) (spawned w).
      induction sched as [|[i|] sched IH]; intros tasks w0; simpl.
      - unfold bind.
        destruct (advance _ _ (completion (length tasks)) tasks w0)
          as [[e'|ts] w1] eqn:Hadv; intros [= <- <-].
        by eapply advance_events.
      - unfold bind.
        destruct (resume _ _ i tasks w0) as [[e'|ts] w1] eqn:Hres.
        + intros [= <- <-]. by eapply resume_events.
        + intros Hg. eapply emits_trans; [by eapply resume_events|].
          by eapply IH.
      - destruct (forallb _ tasks); intros [= <- <-]; apply emits_refl. }
    eapply emits_trans;
      [|eapply emits_weaken; [apply task_event_quiet|exact Hev]].
    apply emits_log; [simpl; tauto|]. by apply emits_same_trace.
Qed.

(** *** The counters of a pass without failures *)

(** A file without stored chunks when the pass starts. *)
Definition is_new (C0 : list record) (file : string) : Prop :=
  by_key (key_of file) C0 = [].

(** The tasks of new files that are past their increment. *)
Definition counted_new (C0 : list record) (tasks : list (string * phase))
  : nat :=
  length (filter (λ t, counted t.2 ∧ is_new C0 t.1) tasks).

Lemma counted_new_insert C0 tasks i file ph ph' :
  tasks !! i = Some (file, ph) →
  (counted_new C0 (<[i := (file, ph')]> tasks)
   + (if decide (counted ph ∧ is_new C0 file) then 1 else 0)
   = counted_new C0 tasks
     + (if decide (counted ph' ∧ is_new C0 file) then 1 else 0))%nat.
Proof.
  intros (l1 & l2 & -> & ->)%list_elem_of_split_length.
  rewrite insert_app_r_alt, Nat.sub_diag by done. simpl.
  unfold counted_new. rewrite !filter_app, !filter_cons, !length_app. simpl.
  repeat case_decide; simpl; lia.
Qed.

Lemma counted_new_done C0 tasks :
  Forall (λ t, t.2 = Done) tasks →
  counted_new C0 tasks = length (filter (is_new C0) tasks.*1).
Proof.
  unfold counted_new. induction 1 as [|[f ph] tasks Hd _ IH]; [done|].
  simpl in Hd. subst ph. rewrite fmap_cons, !filter_cons. simpl.
  destruct (decide (is_new C0 f)) as [Hn|Hn].
  - rewrite decide_True by done. simpl. by rewrite IH.
  - rewrite decide_False by tauto. done.
Qed.

Lemma counted_new_spawn C0 files_ : counted_new C0 (spawn files_) = 0%nat.
Proof.
  unfold counted_new, spawn. induction files_ as [|f fs IH]; [done|].
  rewrite fmap_cons, filter_cons. by rewrite decide_False by (simpl; tauto).
Qed.

Lemma advance_preserves configs m (J : list (string * phase) → world → Prop) :
  (∀ i ts w ts' w',
     J ts w → resume configs m i ts w = (inr ts', w') → J ts' w') →
  ∀ resumed ts w ts' w',
    J ts w → advance configs m resumed ts w = (inr ts', w') → J ts' w'.
Proof.
  intros Hstep resumed. induction resumed as [|i resumed IH];
    intros ts w ts' w' HJ; simpl.
  - by intros [= <- <-].
  - unfold bind. destruct (resume configs m i ts w) as [[e|ts1] w1] eqn:Hres;
      [done|]. apply IH. by eapply Hstep.
Qed.

Lemma gather_preserves configs m (J : list (string * phase) → world → Prop) :
  (∀ i ts w ts' w',
     J ts w → resume configs m i ts w = (inr ts', w') → J ts' w') →
  ∀ sched ts w w',
    J ts w → gather configs m sched ts w = (inr tt, w') →
    ∃ ts', J ts' w' ∧ Forall (λ t, t.2 = Done) ts'.
Proof.
  intros Hstep sched. induction sched as [|[i|] sched IH]; intros ts w w' HJ;
    simpl.
  - unfold bind.
    destruct (advance configs m (completion (length ts)) ts w)
      as [[e|ts1] w1] eqn:Hadv; [done|]. intros [= <-].
    pose proof Hadv as (Hlen & Hdone)%advance_completion_returns.
    exists ts1. split; [by eapply advance_preserves|].
    apply Forall_lookup. intros j t Ht. apply (Hdone j); [|done].
    rewrite <- Hlen. by eapply lookup_lt_Some.
  - unfold bind. destruct (resume configs m i ts w) as [[e|ts1] w1] eqn:Hres;
      [done|]. apply IH. by eapply Hstep.
  - destruct (forallb (λ t, finished t.2) ts) eqn:Hfin; [|done].
    intros [= <-]. exists ts. split; [done|].
    apply Forall_forall. intros t Ht.
    apply Is_true_true_2, forallb_True in Hfin.
    rewrite Forall_forall in Hfin. specialize (Hfin t Ht).
    by destruct (t.2).
Qed.

Lemma resume_counts_new configs m files_ C0 i tasks w tasks' w' :
  (∀ n, faulty n = false) →
  1 ≤ m →
  (∀ f, f ∈ files_ → is_Some (open_file (expand_path f))) →
  NoDup (expand_path <$> files_) →
  pass_inv configs files_ C0 tasks w
  ∧ s_add (w_stats w) = Z.of_nat (counted_new C0 tasks) →
  resume configs m i tasks w = (inr tasks', w') →
  pass_inv configs files_ C0 tasks' w'
  ∧ s_add (w_stats w') = Z.of_nat (counted_new C0 tasks').
Proof.
  intros Hnf Hm Hread Hnd [Hinv Hadd] Hres.
  destruct (resume_inv configs m files_ Hnf Hm Hread Hnd C0 tasks w i Hinv)
    as (ts & w1 & Hres' & Hinv' & _).
  rewrite Hres in Hres'. injection Hres' as <- <-. split; [done|].
  destruct Hinv as (Hfst & Htasks & _).
  revert Hres. unfold resume.
  destruct (tasks !! i) as [[file ph]|] eqn:Hi; [|by intros [= <- <-]].
  assert (file ∈ files_) as Hfile by by eapply task_file.
  destruct (stage_digest configs m file ph w Hnf Hm (Hread _ Hfile))
    as (ph' & w1 & Hst & _ & _ & Hown).
  unfold bind. rewrite Hst. intros [= <- <-].
  pose proof (counted_new_insert C0 tasks i file ph ph' Hi) as Hc.
  specialize (Htasks i _ Hi). unfold task_ok in Htasks. simpl in Htasks.
  destruct ph as [|n| |].
  - destruct Hown as (-> & _ & ->).
    rewrite !decide_False in Hc by (simpl; tauto). rewrite Hadd. lia.
  - destruct Htasks as [_ ->]. destruct Hown as (-> & Hown).
    rewrite (decide_False (P := counted (Reconcile _) ∧ _)) in Hc
      by (simpl; tauto).
    case_bool_decide as Hn.
    + destruct Hown as [_ ->]. simpl.
      rewrite decide_False in Hc; [rewrite Hadd; lia|].
      intros [_ Hnew]. unfold is_new in Hnew. by rewrite Hnew in Hn.
    + destruct Hown as [_ ->]. simpl.
      rewrite decide_True in Hc; [rewrite Hadd; lia|].
      split; [done|]. by apply nil_length_inv.
  - destruct Hown as (-> & _ & ->).
    destruct (decide (is_new C0 file)).
    + rewrite !decide_True in Hc by done. rewrite Hadd. lia.
    + rewrite !decide_False in Hc by tauto. rewrite Hadd. lia.
  - destruct Hown as (-> & _ & ->).
    rewrite list_insert_id by done. done.
Qed.

(** The counters a pass without failures ends with. *)
Lemma pass_counts_new_known_and_orphans_aux configs files_ sched w :
  (∀ n, faulty n = false) →
  1 ≤ remote_max_batch_size →
  (∀ f, f ∈ files_ → isfile (expand_path f) = true) →
  (∀ f, f ∈ files_ → is_Some (open_file (expand_path f))) →
  NoDup (expand_path <$> files_) →
  Forall (λ e, e ≠ Cancel) sched →
  (∀ rec, rec ∈ w_coll w → is_Some (r_path rec)) →
  ∃ w' (O : gset string),
    sync configs files_ sched w = (inr 0, w')
    ∧ (∀ p, p ∈ O ↔ orphan (w_coll w) p)
    ∧ s_add (w_stats w')
      = Z.of_nat (length (filter (is_new (w_coll w)) files_))
    ∧ s_update (w_stats w')
      = Z.of_nat (length (filter (λ f, ¬ is_new (w_coll w) f) files_))
    ∧ s_removed (w_stats w') = Z.of_nat (size O).
Proof.
  intros Hnf Hm Hreg Hread Hnd Hsched Hpaths.
  assert (pass_inv configs files_ (w_coll w) (spawn files_) (spawned w))
    as Hinv0 by by apply (pass_inv_spawn configs files_ (spawned w)).
  destruct (gather_inv configs remote_max_batch_size files_ Hnf Hm Hread Hnd
              (w_coll w) sched _ _ Hsched Hinv0)
    as (tasks0 & wg & Hg & _ & _).
  destruct (gather_preserves configs remote_max_batch_size
              (λ ts w0, pass_inv configs files_ (w_coll w) ts w0
                        ∧ s_add (w_stats w0)
                          = Z.of_nat (counted_new (w_coll w) ts))
              (λ i ts w0 ts' w0',
                 resume_counts_new configs _ files_ (w_coll w) i ts w0 ts' w0'
                   Hnf Hm Hread Hnd)
              sched (spawn files_) (spawned w) wg)
    as (tasks & [Hinv Hadd] & Hdone); [|done|].
  { split; [done|]. by rewrite counted_new_spawn. }
  destruct (pass_inv_done configs files_ _ _ _ Hinv Hdone)
    as (Hown & Hsum & _ & Hr0).
  pose proof Hinv as (Hfst & _ & Hforeign & _).
  assert (∀ rec, rec ∈ w_coll wg → is_Some (r_path rec)) as Hpaths_g.
  { intros rec Hrec. destruct (r_path rec) as [v|] eqn:Hv; [done|].
    assert (rec ∈ by_key None (w_coll wg)) as Hin by by apply elem_of_by_key.
    rewrite Hforeign in Hin by (by intros f _).
    apply elem_of_by_key in Hin as [_ Hin].
    apply Hpaths in Hin. rewrite Hv in Hin. by destruct Hin. }
  destruct (remove_orphans wg) as [r wc] eqn:Hro.
  destruct (remove_orphans_effect wg r wc (Hnf _) Hpaths_g Hr0 Hro)
    as (O & T & HO & Hrem & Hadd' & Hupd' & _ & _ & _ & Hret).
  specialize (Hret (Hnf _)). subst r.
  exists (log (shown configs wc) wc), O.
  split; [by rewrite sync_eq, Hg, Hro|].
  assert (s_add (w_stats wc)
          = Z.of_nat (length (filter (is_new (w_coll w)) files_))) as Ha.
  { by rewrite Hadd', Hadd, counted_new_done, Hfst. }
  split; [|split; [done|split; [|done]]].
  - (* the orphans at cleanup time are those of the start *)
    intros p. rewrite HO. unfold orphan.
    assert (isfile p = false →
            (∃ rec, rec ∈ w_coll wg ∧ r_path rec = Some (MStr p))
            ↔ (∃ rec, rec ∈ w_coll w ∧ r_path rec = Some (MStr p))) as Hiff.
    { intros Hfile.
      assert (foreign files_ (Some (MStr p))) as Hfor.
      { intros f Hf [= ->]. specialize (Hreg f Hf). congruence. }
      specialize (Hforeign _ Hfor).
      split; intros (rec & Hrec & Hp); exists rec; (split; [|done]).
      - assert (rec ∈ by_key (Some (MStr p)) (w_coll wg)) as Hin
          by by apply elem_of_by_key.
        rewrite Hforeign in Hin. by apply elem_of_by_key in Hin as [_ ?].
      - assert (rec ∈ by_key (Some (MStr p)) (w_coll w)) as Hin
          by by apply elem_of_by_key.
        rewrite <- Hforeign in Hin. by apply elem_of_by_key in Hin as [_ ?]. }
    split; intros [Hex Hfile]; (split; [|done]); by apply (Hiff Hfile).
  - assert (w_stats (log (shown configs wc) wc) = w_stats wc) as -> by done.
    pose proof (filter_app_complement (is_new (w_coll w)) files_) as Hperm.
    apply Permutation_length in Hperm. rewrite length_app in Hperm.
    rewrite Hupd'. rewrite Hadd' in Ha. lia.
Qed.

(** X6. Whatever the interleaving of the tasks, a pass without failures
    over readable regular files with distinct canonical paths returns 0
    and reports: [added] = the files without stored chunks when the pass
    started, [updated] = the other files, [removed] = the stored string
    paths that had no file. *)
Theorem pass_counts_new_known_and_orphans configs files_ sched w :
  (∀ n, faulty n = false) →
  1 ≤ remote_max_batch_size →
  (∀ f, f ∈ files_ → isfile (expand_path f) = true) →
  (∀ f, f ∈ files_ → is_Some (open_file (expand_path f))) →
  NoDup (expand_path <$> files_) →
  Forall (λ e, e ≠ Cancel) sched →
  (∀ rec, rec ∈ w_coll w → is_Some (r_path rec)) →
  ∃ w' (O : gset string),
    sync configs files_ sched w = (inr 0, w')
    ∧ (∀ p, p ∈ O ↔ orphan (w_coll w) p)
    ∧ s_add (w_stats w')
      = Z.of_nat (length (filter (is_new (w_coll w)) files_))
    ∧ s_update (w_stats w')
      = Z.of_nat (length (filter (λ f, ¬ is_new (w_coll w) f) files_))
    ∧ s_removed (w_stats w') = Z.of_nat (size O).
Proof. apply pass_counts_new_known_and_orphans_aux. Qed.

(** X7. The order in which the tasks are resumed does not matter: two
    passes without failures from the same state, under any two
    interleavings, leave the same contents under every path value and
    report the same stats. *)
Theorem interleaving_does_not_matter configs files_ sched1 sched2 w :
  (∀ n, faulty n = false) →
  1 ≤ remote_max_batch_size →
  (∀ f, f ∈ files_ → isfile (expand_path f) = true) →
  (∀ f, f ∈ files_ → is_Some (open_file (expand_path f))) →
  NoDup (expand_path <$> files_) →
  Forall (λ e, e ≠ Cancel) sched1 →
  Forall (λ e, e ≠ Cancel) sched2 →
  (∀ rec, rec ∈ w_coll w → is_Some (r_path rec)) →
  ∃ w1 w2,
    sync configs files_ sched1 w = (inr 0, w1)
    ∧ sync configs files_ sched2 w = (inr 0, w2)
    ∧ (∀ key, content <$> by_key key (w_coll w1)
              = content <$> by_key key (w_coll w2))
    ∧ content <$> w_coll w1 ≡ₚ content <$> w_coll w2
    ∧ w_stats w1 = w_stats w2.
Proof.
  intros Hnf Hm Hreg Hread Hnd Hs1 Hs2 Hpaths.
  destruct (sync_healthy configs files_ sched1 w Hnf Hm Hreg Hread Hnd
              Hs1 Hpaths)
    as (w1 & Hrun1 & Hown1 & Hclean1 & Hfor1 & _).
  destruct (sync_healthy configs files_ sched2 w Hnf Hm Hreg Hread Hnd
              Hs2 Hpaths)
    as (w2 & Hrun2 & Hown2 & Hclean2 & Hfor2 & _).
  exists w1, w2. split; [done|]. split; [done|].
  assert (∀ key, content <$> by_key key (w_coll w1)
                 = content <$> by_key key (w_coll w2)) as Hkeys.
  { intros key.
    destruct (foreign_or_own files_ key) as [Hfor|(f & Hf & ->)].
    2:{ by rewrite Hown1, Hown2. }
    destruct key as [[p| |]|]; try (by rewrite Hfor1, Hfor2).
    destruct (isfile p) eqn:Hfile.
    - rewrite Hfor1, Hfor2; [done|done|by intros ? [= <-]
                             |done|by intros ? [= <-]].
    - unfold by_key. rewrite !filter_none; [done|..];
        intros rec Hrec Hp; [specialize (Hclean2 rec p Hrec Hp)
                            |specialize (Hclean1 rec p Hrec Hp)];
        congruence. }
  split; [done|]. split; [by apply by_key_perm|].
  destruct (pass_counts_new_known_and_orphans_aux configs files_ sched1 w
              Hnf Hm Hreg Hread Hnd Hs1 Hpaths)
    as (w1' & O1 & Hrun1' & HO1 & Ha1 & Hu1 & Hr1).
  destruct (pass_counts_new_known_and_orphans_aux configs files_ sched2 w
              Hnf Hm Hreg Hread Hnd Hs2 Hpaths)
    as (w2' & O2 & Hrun2' & HO2 & Ha2 & Hu2 & Hr2).
  rewrite Hrun1 in Hrun1'. injection Hrun1' as <-.
  rewrite Hrun2 in Hrun2'. injection Hrun2' as <-.
  assert (O1 = O2) as -> by (apply set_eq; intros p; by rewrite HO1, HO2).
  destruct (w_stats w1), (w_stats w2). simpl in *. congruence.
Qed.

(** *** What a pass without failures leaves behind *)

(** X8. After the pass every file of the pass is stored as the chunks of
    its content, in order, followed by one record holding its path
    relative to the project root. *)
Theorem pass_stores_chunks_then_relative_path configs files_ sched w :
  (∀ n, faulty n = false) →
  1 ≤ remote_max_batch_size →
  (∀ f, f ∈ files_ → isfile (expand_path f) = true) →
  (∀ f, f ∈ files_ → is_Some (open_file (expand_path f))) →
  NoDup (expand_path <$> files_) →
  Forall (λ e, e ≠ Cancel) sched →
  (∀ rec, rec ∈ w_coll w → is_Some (r_path rec)) →
  ∃ w',
    sync configs files_ sched w = (inr 0, w')
    ∧ ∀ f, f ∈ files_ →
        ∃ text,
          open_file (expand_path f) = Some text
          ∧ r_doc <$> filter (has_path (expand_path f)) (w_coll w')
            = FileChunker (chunk_size configs) (overlap_ratio configs) text
              ++ [relpath (expand_path f) (project_root configs)].
Proof.
  intros Hnf Hm Hreg Hread Hnd Hsched Hpaths.
  destruct (sync_healthy configs files_ sched w Hnf Hm Hreg Hread Hnd
              Hsched Hpaths) as (w' & Hrun & Hown & _).
  exists w'. split; [done|]. intros f Hf.
  destruct (Hread f Hf) as [text Hopen]. exists text. split; [done|].
  specialize (Hown f Hf). unfold target in Hown. rewrite Hopen in Hown.
  rewrite by_key_has_path. fold (key_of f).
  assert (∀ l : list record, r_doc <$> l = fst <$> (content <$> l)) as ->
    by (intros l; by rewrite <- list_fmap_compose).
  rewrite Hown, <- list_fmap_compose. unfold file_chunks.
  by rewrite list_fmap_id.
Qed.

(** X9. After the pass no stored string path is without a file, and the
    records the pass does not own are as they were, with their ids:
    those of existing files outside the pass and those whose path is
    not a string. *)
Theorem pass_leaves_no_orphan_and_spares_the_rest configs files_ sched w :
  (∀ n, faulty n = false) →
  1 ≤ remote_max_batch_size →
  (∀ f, f ∈ files_ → isfile (expand_path f) = true) →
  (∀ f, f ∈ files_ → is_Some (open_file (expand_path f))) →
  NoDup (expand_path <$> files_) →
  Forall (λ e, e ≠ Cancel) sched →
  (∀ rec, rec ∈ w_coll w → is_Some (r_path rec)) →
  ∃ w',
    sync configs files_ sched w = (inr 0, w')
    ∧ (∀ rec p, rec ∈ w_coll w' → r_path rec = Some (MStr p) →
                isfile p = true)
    ∧ (∀ p, isfile p = true → p ∉ expand_path <$> files_ →
            filter (has_path p) (w_coll w')
            = filter (has_path p) (w_coll w))
    ∧ (∀ v, is_str v = false →
            by_key (Some v) (w_coll w') = by_key (Some v) (w_coll w)).
Proof.
  intros Hnf Hm Hreg Hread Hnd Hsched Hpaths.
  destruct (sync_healthy configs files_ sched w Hnf Hm Hreg Hread Hnd
              Hsched Hpaths) as (w' & Hrun & _ & Hclean & Hfor & _).
  exists w'. split; [done|]. split; [done|]. split.
  - intros p Hfile Hout. rewrite !by_key_has_path. apply Hfor.
    + intros f Hf [= ->]. apply Hout, list_elem_of_fmap. by exists f.
    + by intros ? [= <-].
  - intros v Hv. apply Hfor.
    + intros f Hf [= ->]. done.
    + intros p [= ->]. done.
Qed.

(** *** More on the cleanup *)

Lemma path_values_first_pathless before rec after :
  (∀ rec', rec' ∈ before → is_Some (r_path rec')) →
  r_path rec = None →
  path_values (r_metadata <$> before ++ rec :: after)
  = inl (match r_metadata rec with
         | None => TypeError
         | Some _ => KeyError
         end).
Proof.
  intros Hbefore Hnone. induction before as [|b before IH]; csimpl.
  - unfold r_path in Hnone. by destruct (r_metadata rec) as [[path|]|].
  - destruct (Hbefore b ltac:(by left)) as [path Hpath].
    unfold r_path in Hpath. destruct (r_metadata b) as [[path'|]|]; [|done..].
    rewrite IH; [done|]. intros rec' Hrec'. apply Hbefore. by right.
Qed.

(** X10. The first stored record without a ["path"] value makes the
    cleanup raise right after the inventory call: [TypeError] when the
    record was stored without metadata, [KeyError] when its metadata
    has no such entry; nothing is deleted, no counter is written. *)
Theorem cleanup_raises_on_missing_path w before rec after :
  faulty (w_calls w) = false →
  w_coll w = before ++ rec :: after →
  (∀ rec', rec' ∈ before → is_Some (r_path rec')) →
  r_path rec = None →
  remove_orphans w
  = (inl (match r_metadata rec with
          | None => TypeError
          | Some _ => KeyError
          end),
     log (ECall GetAll true) (tick w)).
Proof.
  intros Hf Hcoll Hbefore Hnone.
  unfold remove_orphans, bind, coll_get_all, remote. rewrite Hf. simpl.
  rewrite Hcoll. rewrite bool_decide_true by by destruct before.
  by rewrite path_values_first_pathless.
Qed.

(** When the cleanup returns, no stored string path is without a
    file. *)
Lemma remove_orphans_returned w w' :
  remove_orphans w = (inr tt, w') →
  (∀ p, ¬ orphan (w_coll w') p)
  ∧ (∀ rec, rec ∈ w_coll w' → is_Some (r_path rec)).
Proof.
  intros Hrun. destruct (faulty (w_calls w)) eqn:Hf.
  { unfold remove_orphans, bind, coll_get_all, remote in Hrun.
    by rewrite Hf in Hrun. }
  destruct (decide (w_coll w = [])) as [Hnil|Hne].
  { unfold remove_orphans, bind, coll_get_all, remote in Hrun.
    rewrite Hf, Hnil in Hrun. injection Hrun as <-. simpl. rewrite Hnil.
    split; [|by intros rec ?%elem_of_nil].
    intros p [(rec & ?%elem_of_nil & _) _]. done. }
  destruct (path_values (r_metadata <$> w_coll w)) as [e|paths] eqn:Hm; cycle 1.
  2:{ unfold remove_orphans, bind, coll_get_all, remote in Hrun.
      rewrite Hf in Hrun. simpl in Hrun.
      rewrite bool_decide_true in Hrun by (by destruct (w_coll w)).
      by rewrite Hm in Hrun. }
  assert (∀ rec, rec ∈ w_coll w → is_Some (r_path rec)) as Hall.
  { intros rec Hrec. apply path_values_Some in Hm.
    assert (r_path rec ∈ r_path <$> w_coll w) as Hin
      by (apply list_elem_of_fmap; by exists rec).
    rewrite Hm in Hin. by apply list_elem_of_fmap in Hin as (v & -> & _). }
  rewrite (remove_orphans_run w paths Hf Hm Hne) in Hrun.
  assert (∀ p, p ∈ orphan_paths paths ↔ orphan (w_coll w) p) as HO
    by (intros p; by apply orphan_paths_of_coll).
  case_bool_decide as Hsz.
  - unfold coll_delete_in, remote in Hrun. simpl in Hrun.
    destruct (faulty (S (w_calls w))); [done|]. injection Hrun as <-. simpl.
    split.
    + intros p [(rec & [Hno Hrec]%list_elem_of_filter & Hp) Hfile].
      apply Hno. exists p. split; [|done].
      apply elem_of_elements, HO. split; [by exists rec|done].
    + intros rec [_ Hrec]%list_elem_of_filter. by apply Hall.
  - injection Hrun as <-. simpl. split; [|done].
    intros p Hp%HO. apply size_empty_iff in Hsz. set_solver.
Qed.

(** X11. The cleanup is idempotent: run again right after it has returned,
    it issues no delete, leaves the collection as it is and, unless the
    collection is empty, writes [removed = 0]. *)
Theorem cleanup_twice_deletes_nothing w w1 :
  remove_orphans w = (inr tt, w1) →
  faulty (w_calls w1) = false →
  ∃ w2 T,
    remove_orphans w1 = (inr tt, w2)
    ∧ w_coll w2 = w_coll w1
    ∧ w_trace w2 = w_trace w1 ++ T
    ∧ delete_calls T = []
    ∧ (w_coll w1 ≠ [] → s_removed (w_stats w2) = 0).
Proof.
  intros [Hclean Hall]%remove_orphans_returned Hf.
  destruct (decide (w_coll w1 = [])) as [Hnil|Hne].
  { exists (log (ECall GetAll true) (tick w1)), [ECall GetAll true].
    split; [|by repeat split].
    unfold remove_orphans, bind, coll_get_all, remote.
    by rewrite Hf, Hnil. }
  destruct (path_values (r_metadata <$> w_coll w1)) as [e|paths] eqn:Hm; cycle 1.
  2:{ exfalso. destruct (path_values_is_Some (w_coll w1) Hall) as [? ?].
      congruence. }
  rewrite (remove_orphans_run w1 paths Hf Hm Hne).
  assert (orphan_paths paths = ∅) as ->.
  { apply set_eq. intros p. rewrite (orphan_paths_of_coll _ _ _ Hm).
    split; [by intros ?%Hclean|by intros ?%not_elem_of_empty]. }
  rewrite size_empty. simpl.
  eexists _, [ECall GetAll true; ESetRemoved 0].
  split; [done|]. simpl. by rewrite <- app_assoc.
Qed.

(** *** Acquiring the collection *)

(** The guard of [make_or_get_collection] on a collection's metadata. *)
Definition own_collection (metadata : gmap string metaval) : bool :=
  get_eq metadata "hostname" hostname
  && get_eq metadata "username" user
  && get_eq metadata "created-by" "VectorCode".

Lemma new_metadata_lookup configs full_path :
  new_metadata configs full_path !! "hostname" = Some (MStr hostname)
  ∧ new_metadata configs full_path !! "username" = Some (MStr user)
  ∧ new_metadata configs full_path !! "created-by" = Some (MStr "VectorCode")
  ∧ new_metadata configs full_path !! "embedding_function"
    = Some (MStr (embedding_function configs))
  ∧ new_metadata configs full_path !! "embedding_params" = None
  ∧ new_metadata configs full_path !! "path" = Some (MStr full_path).
Proof. unfold new_metadata. repeat split; by simplify_map_eq. Qed.

Lemma own_collection_new configs full_path :
  own_collection (new_metadata configs full_path) = true.
Proof.
  destruct (new_metadata_lookup configs full_path) as (Hh & Hu & Hc & _).
  unfold own_collection, get_eq. by rewrite Hh, Hu, Hc, !bool_decide_true.
Qed.

(** The embedding function can be had: the configured one is there and
    its call returns, or the attempt ends in [AttributeError] and the
    default one is taken. *)
Definition embedding_function_obtained (configs : Config) : Prop :=
  has_embedding_function (embedding_function configs) = true →
  ∀ e, embedding_function_raises (embedding_function configs)
         (embedding_params configs) = Some e →
       e = AttributeError.

(** The world after [get_embedding_function]. *)
Definition after_get_embedding_function (configs : Config) (w : world)
  : world :=
  (get_embedding_function configs w).2.

Lemma get_embedding_function_eq configs w :
  embedding_function_obtained configs →
  get_embedding_function configs w
  = (inr tt, after_get_embedding_function configs w)
  ∧ w_calls (after_get_embedding_function configs w) = w_calls w
  ∧ w_coll (after_get_embedding_function configs w) = w_coll w
  ∧ w_meta (after_get_embedding_function configs w) = w_meta w
  ∧ w_stats (after_get_embedding_function configs w) = w_stats w.
Proof.
  intros Hob.
  unfold after_get_embedding_function, get_embedding_function, catch, raise,
    ret, emit.
  unfold embedding_function_obtained in Hob.
  destruct (has_embedding_function _); [|done].
  destruct (embedding_function_raises _ _) as [e|]; [|done].
  rewrite (Hob eq_refl e eq_refl). by rewrite decide_True.
Qed.

(** [make_or_get_collection], once its remote call has returned: the
    collection has the metadata it had, or the new ones if it did not
    exist; the task raises [IndexError] exactly when these do not carry
    this host, this user and ["VectorCode"]. *)
Lemma make_or_get_collection_eq configs w :
  embedding_function_obtained configs →
  faulty (w_calls w) = false →
  let metadata :=
    default (new_metadata configs (expand_path (project_root configs)))
      (w_meta w) in
  ∃ w',
    make_or_get_collection configs w
    = (if own_collection metadata then inr metadata else inl IndexError, w')
    ∧ w_meta w' = Some metadata
    ∧ w_coll w' = w_coll w
    ∧ w_stats w' = w_stats w
    ∧ w_calls w' = S (w_calls w)
    ∧ w_trace w'
      = w_trace (after_get_embedding_function configs w)
        ++ [ECall GetOrCreate true].
Proof.
  intros Hob Hf metadata.
  destruct (get_embedding_function_eq configs w Hob)
    as (Hge & Hcalls & Hcoll & Hmeta & Hstats).
  unfold make_or_get_collection, bind at 1. rewrite Hge.
  unfold bind, get_or_create_collection, remote. rewrite Hcalls, Hf, Hmeta.
  change (w_meta (tick (after_get_embedding_function configs w)))
    with (w_meta (after_get_embedding_function configs w)).
  rewrite Hmeta. fold metadata. unfold own_collection.
  exists (log (ECall GetOrCreate true)
            (set_meta metadata
               (tick (after_get_embedding_function configs w)))).
  split; [|by rewrite <- Hcoll, <- Hstats, <- Hcalls].
  by destruct (get_eq metadata "hostname" hostname),
       (get_eq metadata "username" user),
       (get_eq metadata "created-by" "VectorCode").
Qed.

(** X12. Once the embedding function is obtained, a collection that
    carries another host, another user or another creator is refused:
    [vectorise] prints the failure and returns 1, without a call beyond
    [get_or_create_collection] and without touching the records. *)
Theorem foreign_collection_is_refused configs sched w metadata :
  embedding_function_obtained configs →
  faulty (w_calls w) = false →
  w_meta w = Some metadata →
  own_collection metadata = false →
  ∃ w',
    vectorise configs sched w = (inr 1, w')
    ∧ w_coll w' = w_coll w
    ∧ w_meta w' = Some metadata
    ∧ w_calls w' = S (w_calls w)
    ∧ last (w_trace w')
      = Some (EStdout "Failed to get/create the collection. Please check your config.").
Proof.
  intros Hob Hf Hmeta Hown.
  destruct (make_or_get_collection_eq configs w Hob Hf)
    as (w1 & Hmk & Hm1 & Hc1 & _ & Hn1 & _).
  rewrite Hmeta in Hmk, Hm1. simpl in Hmk, Hm1. rewrite Hown in Hmk.
  eexists. unfold vectorise, bind at 1, catch, bind at 1. rewrite Hmk.
  simpl. split; [done|]. simpl. repeat split; try done.
  by rewrite last_snoc.
Qed.

(** [verify_ef] returns, and says [False] exactly when the recorded
    embedding function is truthy and not the configured one. *)
Lemma verify_ef_total metadata configs w :
  ∃ ok w',
    verify_ef metadata configs w = (inr ok, w')
    ∧ (ok = false ↔ ef_mismatch metadata configs).
Proof.
  pose proof (ef_mismatch_test metadata configs) as Htest.
  unfold verify_ef.
  destruct (truthy_opt (metadata !! "embedding_function")
            && ne_str_opt (metadata !! "embedding_function")
                 (embedding_function configs)) eqn:Hef.
  - eexists false, _. split; [done|]. by rewrite <- Htest.
  - assert (¬ ef_mismatch metadata configs) as Hno.
    { rewrite <- Htest. congruence. }
    destruct (truthy_opt (metadata !! "embedding_params")
              && ne_dict_opt (metadata !! "embedding_params")
                   (embedding_params configs));
      eexists true, _; (split; [done|]); split; done.
Qed.

(** X13. Once the embedding function is obtained, a collection that did
    not exist is created with the metadata of this run and passes both
    checks: the guard and, without a line of output, the verification
    of the embedding function. *)
Theorem new_collection_is_accepted configs w :
  embedding_function_obtained configs →
  faulty (w_calls w) = false →
  w_meta w = None →
  let metadata :=
    new_metadata configs (expand_path (project_root configs)) in
  ∃ w',
    make_or_get_collection configs w = (inr metadata, w')
    ∧ w_meta w' = Some metadata
    ∧ verify_ef metadata configs w' = (inr true, w').
Proof.
  intros Hob Hf Hnone metadata.
  destruct (make_or_get_collection_eq configs w Hob Hf)
    as (w' & Hmk & Hm & _).
  rewrite Hnone in Hmk, Hm. simpl in Hmk, Hm. fold metadata in Hmk, Hm.
  unfold metadata in Hmk at 1. rewrite own_collection_new in Hmk.
  exists w'. split; [done|]. split; [done|].
  destruct (new_metadata_lookup configs (expand_path (project_root configs)))
    as (_ & _ & _ & Hef & Hep & _).
  unfold verify_ef. fold metadata in Hef, Hep. rewrite Hef, Hep. simpl.
  rewrite (bool_decide_true
             (embedding_function configs = embedding_function configs))
    by reflexivity.
  by rewrite andb_false_r.
Qed.


Lemma verify_ef_world metadata configs w r w' :
  verify_ef metadata configs w = (r, w') →
  w_meta w' = w_meta w ∧ w_coll w' = w_coll w ∧ w_stats w' = w_stats w
  ∧ w_calls w' = w_calls w ∧ w_uuid w' = w_uuid w.
Proof.
  unfold verify_ef.
  repeat match goal with |- context [if ?b then _ else _] => destruct b end;
    by intros [= <- <-].
Qed.

(** X15. Once the embedding function is obtained and the collection
    acquired and accepted, a [.gitignore] that is there but cannot be
    opened ends [vectorise] with the [OSError] of [open], before the
    counters are reset or a file is looked at: the records and the
    counters stay as they were, and the only remote call made is
    [get_or_create_collection]. *)
Theorem unreadable_gitignore_ends_vectorise configs sched w :
  let metadata :=
    default (new_metadata configs (expand_path (project_root configs)))
      (w_meta w) in
  let gitignore_path := path_join (project_root configs) ".gitignore" in
  embedding_function_obtained configs →
  faulty (w_calls w) = false →
  own_collection metadata = true →
  ¬ ef_mismatch metadata configs →
  isfile gitignore_path = true →
  open_file gitignore_path = None →
  ∃ w',
    vectorise configs sched w = (inl (OSError gitignore_path), w')
    ∧ w_coll w' = w_coll w
    ∧ w_stats w' = w_stats w
    ∧ w_calls w' = S (w_calls w).
Proof.
  intros metadata gitignore_path Hob Hf Hown Hef Hfile Hopen.
  destruct (make_or_get_collection_eq configs w Hob Hf)
    as (w1 & Hmk & _ & Hc1 & Hs1 & Hn1 & _).
  fold metadata in Hmk. rewrite Hown in Hmk.
  destruct (verify_ef_total metadata configs w1) as (ok & w2 & Hver & Hiff).
  destruct ok; [|by destruct Hef; apply Hiff].
  destruct (verify_ef_world _ _ _ _ _ Hver) as (_ & Hc2 & Hs2 & Hn2 & _).
  exists w2. unfold vectorise, bind at 1, catch, bind at 1. rewrite Hmk.
  simpl. unfold bind at 1. rewrite Hver. simpl.
  unfold bind at 1, select_files, bind at 1, open_.
  fold gitignore_path. rewrite Hfile, Hopen. simpl.
  split; [done|]. by rewrite Hc2, Hs2, Hn2.
Qed.

(** X16. An embedding function that is not available is reported on stderr
    and replaced, yet the new collection records the name that was
    asked for: the same configuration passes the verification later
    on, whatever function embedded the documents. *)
Theorem fallback_is_recorded_under_the_configured_name configs w :
  faulty (w_calls w) = false →
  w_meta w = None →
  has_embedding_function (embedding_function configs) = false →
  ∃ w' metadata,
    make_or_get_collection configs w = (inr metadata, w')
    ∧ w_meta w' = Some metadata
    ∧ metadata !! "embedding_function"
      = Some (MStr (embedding_function configs))
    ∧ w_trace w'
      = w_trace w
        ++ [EStderr ("Failed to use " +:+ embedding_function configs
                     +:+ ". Falling back to Sentence Transformer.");
            ECall GetOrCreate true]
    ∧ verify_ef metadata configs w' = (inr true, w').
Proof.
  intros Hf Hnone Hno.
  assert (embedding_function_obtained configs) as Hob.
  { intros Hhas. congruence. }
  destruct (make_or_get_collection_eq configs w Hob Hf)
    as (w' & Hmk & Hm & _ & _ & _ & Htr).
  rewrite Hnone in Hmk, Hm. simpl in Hmk, Hm.
  rewrite own_collection_new in Hmk.
  destruct (new_metadata_lookup configs (expand_path (project_root configs)))
    as (_ & _ & _ & Hef & Hep & _).
  exists w', (new_metadata configs (expand_path (project_root configs))).
  split; [done|]. split; [done|]. split; [done|]. split.
  - rewrite Htr. unfold after_get_embedding_function, get_embedding_function.
    rewrite Hno. simpl. by rewrite <- app_assoc.
  - unfold verify_ef. rewrite Hef, Hep. simpl.
    rewrite (bool_decide_true
               (embedding_function configs = embedding_function configs))
      by reflexivity.
    by rewrite andb_false_r.
Qed.

(** X24. When the configured embedding function is there but calling it
    with the configured parameters raises anything but
    [AttributeError], [make_or_get_collection] raises that exception
    before any remote call and without a line of output; [vectorise]
    lets it through, unless it is an [IndexError], which it takes for
    a failure to get the collection. *)
Theorem constructor_failure_precedes_the_remote_call configs sched w e :
  has_embedding_function (embedding_function configs) = true →
  embedding_function_raises (embedding_function configs)
    (embedding_params configs) = Some e →
  e ≠ AttributeError →
  make_or_get_collection configs w = (inl e, w)
  ∧ vectorise configs sched w
    = (if decide (e = IndexError)
       then (inr 1,
             log (EStdout "Failed to get/create the collection. Please check your config.") w)
       else (inl e, w)).
Proof.
  intros Hhas Hraises Hne.
  assert (make_or_get_collection configs w = (inl e, w)) as Hmk.
  { unfold make_or_get_collection, bind at 1, get_embedding_function, catch.
    rewrite Hhas, Hraises. simpl. by rewrite decide_False. }
  split; [done|].
  unfold vectorise, bind at 1, catch, bind at 1. rewrite Hmk.
  by destruct (decide (e = IndexError)).
Qed.

End Further.

(** ** Listing the collections

    [ls] of [subcommands/ls.py] prints one line for every collection
    that this package created for this user on this host.  It only
    reads the server, a list of collections with distinct names in the
    order [list_collections] gives them, and its calls are taken to
    return.  [os.environ] is a map from names to strings. *)

#[global] Instance metaval_countable : Countable metaval.
Proof.
  refine (inj_countable'
            (λ v, match v with
                  | MStr s => inl s
                  | MInt z => inr (inl z)
                  | MBool b => inr (inr b)
                  end)
            (λ x, match x with
                  | inl s => MStr s
                  | inr (inl z) => MInt z
                  | inr (inr b) => MBool b
                  end) _).
  by intros [].
Defined.

(** A collection of the server: its name, its metadata ([None] when it
    has none) and the metadata of its records, one entry per record. *)
Record collection := Collection {
  c_name : string;
  c_metadata : option (gmap string metaval);
  c_metadatas : list (option (gmap string metaval)) }.

(** One dict of [result]. *)
Record entry := Entry {
  e_project_root : metaval;
  e_user : option metaval;
  e_hostname : string;
  e_collection_name : string;
  e_size : Z;
  e_embedding_function : metaval;
  e_num_files : Z }.

(** One row of [table]. *)
Record row := Row_ {
  row_project_root : metaval;
  row_size : Z;
  row_num_files : Z;
  row_embedding_function : metaval }.

Inductive ls_output :=
| PrintJson (result : list entry)
| PrintTable (table : list row).

Inductive ls_exn :=
| LsKeyError (key : string)
| LsAttributeError
| LsValueError.

(** [x == y] for a metadata value or [None] and a string or [None]. *)
Definition py_eq (x : option metaval) (y : option string) : bool :=
  match x, y with
  | None, None => true
  | Some (MStr s), Some t => bool_decide (s = t)
  | _, _ => false
  end.

(** The element a value is in a Python set: [True] is [1] and [False]
    is [0] there. *)
Definition set_key (v : option metaval) : option metaval :=
  match v with
  | Some (MBool b) => Some (MInt (if b then 1 else 0))
  | _ => v
  end.

(** [set(i.get("path") for i in metadatas if i is not None)] *)
Definition unique_files (metadatas : list (option (gmap string metaval)))
  : gset (option metaval) :=
  list_to_set ((λ i : gmap string metaval, set_key (i !! "path"))
                 <$> omap id metadatas).

(** [s.replace(old, new)] for a non-empty [old]: the occurrences of
    [old] are replaced from left to right, [skip] characters of the
    last one found still being passed over. *)
Fixpoint replace_from (old new : string) (skip : nat) (s : string)
  : string :=
  match s with
  | EmptyString => EmptyString
  | String c s' =>
      match skip with
      | S skip' => replace_from old new skip' s'
      | O =>
          if String.prefix old s
          then new +:+ replace_from old new (String.length old - 1) s'
          else String c (replace_from old new 0 s')
      end
  end.

Definition py_replace (s old new : string) : string :=
  replace_from old new 0 s.

Section Listing.

Context {env : Environment}.

(** [client.list_collections()] *)
Definition list_collections (srv : list collection) : list string :=
  c_name <$> srv.

(** [client.get_collection(name)] *)
Definition get_collection (srv : list collection) (name : string)
  : option collection :=
  List.find (λ c, bool_decide (c_name c = name)) srv.

(** [x in (os.environ.get("USER"), os.environ.get("USERNAME"),
    "DEFAULT_USER")] *)
Definition in_users (environ : gmap string string) (x : option metaval)
  : bool :=
  py_eq x (environ !! "USER")
  || py_eq x (environ !! "USERNAME")
  || py_eq x (Some "DEFAULT_USER").

(** Lines 16-45. *)
Fixpoint ls_collections (environ : gmap string string)
    (srv : list collection) (collections : list string)
    (result : list entry) : ls_exn + list entry :=
  match collections with
  | [] => inr result
  | collection_name :: collections' =>
      match get_collection srv collection_name with
      | None => inl LsValueError
      | Some collection =>
          match c_metadata collection with
          | None => ls_collections environ srv collections' result
          | Some meta =>
              if ne_str_opt (meta !! "created-by") "VectorCode"
              then ls_collections environ srv collections' result
              else if negb (in_users environ (meta !! "username"))
              then ls_collections environ srv collections' result
              else if ne_str_opt (meta !! "hostname") hostname
              then ls_collections environ srv collections' result
              else
                let unique_files := unique_files (c_metadatas collection) in
                match meta !! "path" with
                | None => inl (LsKeyError "path")
                | Some project_root =>
                    match meta !! "embedding_function" with
                    | None => inl (LsKeyError "embedding_function")
                    | Some ef =>
                        ls_collections environ srv collections'
                          (result ++
                             [Entry project_root (meta !! "username")
                                hostname collection_name
                                (Z.of_nat (length (c_metadatas collection)))
                                ef (Z.of_nat (size unique_files))])
                    end
                end
          end
      end
  end.

(** Lines 52-54. *)
Definition shown_root (environ : gmap string string)
    (project_root : metaval) : ls_exn + metaval :=
  match environ !! "HOME" with
  | Some home =>
      if bool_decide (home = EmptyString) then inr project_root
      else
        match project_root with
        | MStr s => inr (MStr (py_replace s home "~"))
        | _ => inl LsAttributeError
        end
  | None => inr project_root
  end.

(** Lines 50-61. *)
Fixpoint ls_table (environ : gmap string string) (result : list entry)
    (table : list row) : ls_exn + list row :=
  match result with
  | [] => inr table
  | meta :: result' =>
      match shown_root environ (e_project_root meta) with
      | inl e => inl e
      | inr project_root =>
          ls_table environ result'
            (table ++ [Row_ project_root (e_size meta) (e_num_files meta)
                         (e_embedding_function meta)])
      end
  end.

(** [ls]: what it returns or raises, and what it has printed. *)
Definition ls (configs : Config) (environ : gmap string string)
    (srv : list collection) : (ls_exn + Z) * list ls_output :=
  match ls_collections environ srv (list_collections srv) [] with
  | inl e => (inl e, [])
  | inr result =>
      if pipe configs then (inr 0, [PrintJson result])
      else
        match ls_table environ result [] with
        | inl e => (inl e, [])
        | inr table => (inr 0, [PrintTable table])
        end
  end.

(** *** What [ls] lists *)

(** The test on the user name, read as a proposition: a string must be
    the value of [USER], the value of [USERNAME] or [DEFAULT_USER]; an
    absent name is accepted as soon as one of the two variables is
    unset, since [None] is then a member of the tuple. *)
Definition user_matches (environ : gmap string string)
    (x : option metaval) : Prop :=
  match x with
  | Some (MStr u) =>
      environ !! "USER" = Some u ∨ environ !! "USERNAME" = Some u
      ∨ u = "DEFAULT_USER"
  | Some _ => False
  | None => environ !! "USER" = None ∨ environ !! "USERNAME" = None
  end.

(** The collections [ls] does not skip. *)
Definition visible (environ : gmap string string) (c : collection)
  : Prop :=
  ∃ meta,
    c_metadata c = Some meta
    ∧ meta !! "created-by" = Some (MStr "VectorCode")
    ∧ user_matches environ (meta !! "username")
    ∧ meta !! "hostname" = Some (MStr hostname).

(** The entry [ls] makes of a collection. *)
Definition describes (c : collection) (e : entry) : Prop :=
  ∃ meta project_root ef,
    c_metadata c = Some meta
    ∧ meta !! "path" = Some project_root
    ∧ meta !! "embedding_function" = Some ef
    ∧ e = Entry project_root (meta !! "username") hostname (c_name c)
            (Z.of_nat (length (c_metadatas c))) ef
            (Z.of_nat (size (unique_files (c_metadatas c)))).

(** The key a collection's metadata lacks, in the order [ls] reads
    them. *)
Definition lacks (c : collection) (key : string) : Prop :=
  ∃ meta,
    c_metadata c = Some meta
    ∧ (key = "path" ∧ meta !! "path" = None
       ∨ key = "embedding_function" ∧ is_Some (meta !! "path")
         ∧ meta !! "embedding_function" = None).

Lemma py_eq_true x y :
  py_eq x y = true
  ↔ match x with
    | Some (MStr s) => y = Some s
    | Some _ => False
    | None => y = None
    end.
Proof.
  destruct x as [[s|z|b]|], y as [t|]; simpl;
    rewrite ?bool_decide_eq_true; naive_solver.
Qed.

Lemma in_users_true environ x :
  in_users environ x = true ↔ user_matches environ x.
Proof.
  unfold in_users, user_matches.
  rewrite !orb_true_iff, !py_eq_true.
  destruct x as [[s|z|b]|]; naive_solver.
Qed.

#[global] Instance user_matches_dec environ x :
  Decision (user_matches environ x).
Proof.
  destruct (in_users environ x) eqn:Hin.
  - left. by apply in_users_true.
  - right. rewrite <- in_users_true. congruence.
Defined.

Lemma ne_str_opt_false o s : ne_str_opt o s = false ↔ o = Some (MStr s).
Proof.
  destruct o as [v|]; simpl; [|done].
  rewrite <- not_true_iff_false, ne_str_true. split.
  - intros Hnn. destruct (decide (v = MStr s)); [congruence|done].
  - intros [= ->]. tauto.
Qed.

#[global] Instance visible_dec environ c : Decision (visible environ c).
Proof.
  unfold visible. destruct (c_metadata c) as [meta|].
  - destruct (decide (meta !! "created-by" = Some (MStr "VectorCode")
                      ∧ user_matches environ (meta !! "username")
                      ∧ meta !! "hostname" = Some (MStr hostname)))
      as [Hyes|Hno].
    + left. by exists meta.
    + right. intros (? & [= <-] & ?). done.
  - right. by intros (? & ? & _).
Defined.

Lemma describes_fun c e1 e2 : describes c e1 → describes c e2 → e1 = e2.
Proof.
  intros (m1 & r1 & f1 & Hm1 & Hr1 & Hf1 & ->)
         (m2 & r2 & f2 & Hm2 & Hr2 & Hf2 & ->).
  congruence.
Qed.

Lemma describes_not_lacks c e key : describes c e → ¬ lacks c key.
Proof.
  intros (m & r & f & Hm & Hr & Hf & _) (m' & Hm' & Hcase).
  assert (m' = m) as -> by congruence.
  destruct Hcase as [[_ ?]|(_ & _ & ?)]; congruence.
Qed.

Lemma get_collection_elem srv c :
  NoDup (c_name <$> srv) → c ∈ srv → get_collection srv (c_name c) = Some c.
Proof.
  unfold get_collection. induction srv as [|d srv IH]; intros Hnd Hin.
  - by apply elem_of_nil in Hin.
  - rewrite fmap_cons in Hnd. apply NoDup_cons in Hnd as [Hd Hnd]. simpl.
    apply elem_of_cons in Hin as [->|Hin].
    + by rewrite bool_decide_true.
    + rewrite bool_decide_false; [by apply IH|].
      intros Heq. apply Hd. rewrite Heq. apply list_elem_of_fmap.
      by exists c.
Qed.

Lemma ls_collections_cons environ srv c cs result :
  get_collection srv (c_name c) = Some c →
  ls_collections environ srv (c_name <$> c :: cs) result
  = match c_metadata c with
    | None => ls_collections environ srv (c_name <$> cs) result
    | Some meta =>
        if ne_str_opt (meta !! "created-by") "VectorCode"
        then ls_collections environ srv (c_name <$> cs) result
        else if negb (in_users environ (meta !! "username"))
        then ls_collections environ srv (c_name <$> cs) result
        else if ne_str_opt (meta !! "hostname") hostname
        then ls_collections environ srv (c_name <$> cs) result
        else
          match meta !! "path" with
          | None => inl (LsKeyError "path")
          | Some project_root =>
              match meta !! "embedding_function" with
              | None => inl (LsKeyError "embedding_function")
              | Some ef =>
                  ls_collections environ srv (c_name <$> cs)
                    (result ++
                       [Entry project_root (meta !! "username") hostname
                          (c_name c) (Z.of_nat (length (c_metadatas c))) ef
                          (Z.of_nat (size (unique_files (c_metadatas c))))])
              end
          end
    end.
Proof. intros Hget. rewrite fmap_cons. simpl. by rewrite Hget. Qed.

(** The loop over the collections, from any point on: it returns one
    entry for each collection it does not skip, in order, unless one of
    these lacks a key, and then it raises for the first such. *)
Lemma ls_collections_cases environ srv cs result :
  NoDup (c_name <$> srv) →
  (∀ c, c ∈ cs → c ∈ srv) →
  (∃ es,
     ls_collections environ srv (c_name <$> cs) result = inr (result ++ es)
     ∧ Forall2 describes (filter (visible environ) cs) es)
  ∨ (∃ c key,
       c ∈ cs ∧ visible environ c ∧ lacks c key
       ∧ ls_collections environ srv (c_name <$> cs) result
         = inl (LsKeyError key)).
Proof.
  intros Hnd. revert result.
  induction cs as [|c cs IH]; intros result Hsub.
  { left. exists []. simpl. rewrite app_nil_r. split; [done|constructor]. }
  assert (∀ d, d ∈ cs → d ∈ srv) as Hsub'
    by (intros d Hd; apply Hsub; by right).
  assert (¬ visible environ c →
          (∃ es,
             ls_collections environ srv (c_name <$> cs) result
             = inr (result ++ es)
             ∧ Forall2 describes (filter (visible environ) (c :: cs)) es)
          ∨ (∃ c0 key,
               c0 ∈ c :: cs ∧ visible environ c0 ∧ lacks c0 key
               ∧ ls_collections environ srv (c_name <$> cs) result
                 = inl (LsKeyError key))) as Hskip.
  { intros Hno. rewrite filter_cons_False by done.
    destruct (IH result Hsub') as [Hok|(c0 & key & Hin & Hrest)].
    - by left.
    - right. exists c0, key. split; [by right|done]. }
  rewrite ls_collections_cons
    by (apply get_collection_elem; [done|apply Hsub; by left]).
  destruct (c_metadata c) as [meta|] eqn:Hmeta; cycle 1.
  { apply Hskip. intros (m & Hm & _). congruence. }
  destruct (ne_str_opt (meta !! "created-by") "VectorCode") eqn:Hcb.
  { apply Hskip.
    intros (m & Hm & Hc & _). assert (m = meta) as -> by congruence.
    apply ne_str_opt_false in Hc. congruence. }
  destruct (in_users environ (meta !! "username")) eqn:Hus; simpl; cycle 1.
  { apply Hskip.
    intros (m & Hm & _ & Hu & _). assert (m = meta) as -> by congruence.
    apply in_users_true in Hu. congruence. }
  destruct (ne_str_opt (meta !! "hostname") hostname) eqn:Hho.
  { apply Hskip.
    intros (m & Hm & _ & _ & Hh). assert (m = meta) as -> by congruence.
    apply ne_str_opt_false in Hh. congruence. }
  assert (visible environ c) as Hvis.
  { exists meta. split; [done|]. split; [by apply ne_str_opt_false|].
    split; [by apply in_users_true|]. by apply ne_str_opt_false. }
  destruct (meta !! "path") as [project_root|] eqn:Hpath; cycle 1.
  { right. exists c, "path". split; [by left|]. split; [done|].
    split; [|done]. exists meta. split; [done|]. by left. }
  destruct (meta !! "embedding_function") as [ef|] eqn:Hef; cycle 1.
  { right. exists c, "embedding_function". split; [by left|].
    split; [done|]. split; [|done]. exists meta. split; [done|].
    right. split; [done|]. split; [by eexists|done]. }
  rewrite filter_cons_True by done.
  destruct (IH (result ++
                  [Entry project_root (meta !! "username") hostname
                     (c_name c) (Z.of_nat (length (c_metadatas c))) ef
                     (Z.of_nat (size (unique_files (c_metadatas c))))])
              Hsub')
    as [(es & Hrun & Hes)|(c0 & key & Hin & Hvis0 & Hlack & Hrun)].
  - left. eexists (_ :: es). rewrite Hrun, <- app_assoc. split; [done|].
    constructor; [|done]. exists meta, project_root, ef.
    by rewrite Hpath.
  - right. exists c0, key. split; [by right|]. done.
Qed.

Lemma ls_collections_all environ srv :
  NoDup (c_name <$> srv) →
  (∃ result,
     ls_collections environ srv (list_collections srv) [] = inr result
     ∧ Forall2 describes (filter (visible environ) srv) result)
  ∨ (∃ c key,
       c ∈ srv ∧ visible environ c ∧ lacks c key
       ∧ ls_collections environ srv (list_collections srv) []
         = inl (LsKeyError key)).
Proof.
  intros Hnd. by apply (ls_collections_cases environ srv srv []).
Qed.

Lemma describes_all_fun cs es1 es2 :
  Forall2 describes cs es1 → Forall2 describes cs es2 → es1 = es2.
Proof.
  intros H1. revert es2. induction H1 as [|c e1 cs es1 Hd1 _ IH];
    intros es2 H2; inversion H2 as [|? e2 ? es2' Hd2 Hrest]; subst; [done|].
  f_equal; [by eapply describes_fun|by apply IH].
Qed.

Lemma described_complete environ srv es c key :
  Forall2 describes (filter (visible environ) srv) es →
  c ∈ srv → visible environ c → ¬ lacks c key.
Proof.
  intros Hall Hin Hvis.
  assert (c ∈ filter (visible environ) srv) as Hc
    by by apply list_elem_of_filter.
  apply list_elem_of_lookup in Hc as [i Hi].
  destruct (Forall2_lookup_l _ _ _ _ _ Hall Hi) as (e & _ & Hd).
  by eapply describes_not_lacks.
Qed.

(** X17. In pipe mode [ls] returns exactly when no collection it does not
    skip lacks a key it reads, and what it prints is then one entry for
    each of these collections, in the order of the server. *)
Theorem ls_json_lists_the_visible_collections configs environ srv result :
  pipe configs = true →
  NoDup (c_name <$> srv) →
  ls configs environ srv = (inr 0, [PrintJson result])
  ↔ Forall2 describes (filter (visible environ) srv) result.
Proof.
  intros Hpipe Hnd. unfold ls. rewrite Hpipe.
  destruct (ls_collections_all environ srv Hnd)
    as [(es & -> & Hes)|(c & key & Hin & Hvis & Hlack & ->)].
  - split.
    + by intros [= <-].
    + intros Hres. by rewrite (describes_all_fun _ _ _ Hes Hres).
  - split; [done|]. intros Hres.
    destruct (described_complete environ srv result c key); done.
Qed.

Lemma ls_table_raises environ result table e :
  ls_table environ result table = inl e → e = LsAttributeError.
Proof.
  revert table. induction result as [|meta result IH]; intros table; simpl;
    [done|].
  destruct (shown_root environ (e_project_root meta)) as [e'|root] eqn:Hroot;
    [|by apply IH].
  intros [= <-]. unfold shown_root in Hroot.
  destruct (environ !! "HOME") as [home|]; [|done].
  destruct (bool_decide (home = EmptyString)); [done|].
  destruct (e_project_root meta); congruence.
Qed.

(** X18. [ls] raises [KeyError] exactly when a collection it does not skip
    has no ["path"] or no ["embedding_function"] in its metadata, and
    then it prints nothing, whatever the other collections are. *)
Theorem ls_raises_on_incomplete_metadata configs environ srv :
  NoDup (c_name <$> srv) →
  (∃ key, ls configs environ srv = (inl (LsKeyError key), []))
  ↔ ∃ c key, c ∈ srv ∧ visible environ c ∧ lacks c key.
Proof.
  intros Hnd. unfold ls.
  destruct (ls_collections_all environ srv Hnd)
    as [(es & -> & Hes)|(c & key & Hin & Hvis & Hlack & ->)].
  - split.
    + intros [key Hrun]. destruct (pipe configs); [done|].
      destruct (ls_table environ es []) as [e|table] eqn:Htab; [|done].
      apply ls_table_raises in Htab as ->. done.
    + intros (c & key & Hin & Hvis & Hlack).
      destruct (described_complete environ srv es c key); done.
  - split.
    + intros _. by exists c, key.
    + intros _. by exists key.
Qed.

(** X19. An entry without a user name is printed exactly when [USER] or
    [USERNAME] is unset and a collection of this package and host has
    no ["username"] in its metadata. *)
Theorem ls_lists_nameless_collections_when_a_variable_is_unset
    configs environ srv result :
  pipe configs = true →
  NoDup (c_name <$> srv) →
  ls configs environ srv = (inr 0, [PrintJson result]) →
  (∃ e, e ∈ result ∧ e_user e = None)
  ↔ (environ !! "USER" = None ∨ environ !! "USERNAME" = None)
    ∧ ∃ c meta,
        c ∈ srv ∧ c_metadata c = Some meta
        ∧ meta !! "created-by" = Some (MStr "VectorCode")
        ∧ meta !! "hostname" = Some (MStr hostname)
        ∧ meta !! "username" = None.
Proof.
  intros Hpipe Hnd Hrun. unfold ls in Hrun. rewrite Hpipe in Hrun.
  destruct (ls_collections_all environ srv Hnd)
    as [(es & Hcol & Hes)|(c & key & Hin & Hvis & Hlack & Hcol)];
    rewrite Hcol in Hrun; [|done].
  injection Hrun as <-. split.
  - intros (e & He & Huser).
    apply list_elem_of_lookup in He as [i Hi].
    destruct (Forall2_lookup_r _ _ _ _ _ Hes Hi)
      as (c & Hc & meta & root & ef & Hmeta & _ & _ & ->).
    simpl in Huser.
    apply list_elem_of_lookup_2, list_elem_of_filter in Hc
      as [(meta' & Hmeta' & Hcb & Hus & Hho) Hin].
    assert (meta' = meta) as -> by congruence.
    rewrite Huser in Hus. split; [done|]. by exists c, meta.
  - intros (Hunset & c & meta & Hin & Hmeta & Hcb & Hho & Hnone).
    assert (visible environ c) as Hvis.
    { exists meta. rewrite Hnone. done. }
    assert (c ∈ filter (visible environ) srv) as Hc
      by by apply list_elem_of_filter.
    apply list_elem_of_lookup in Hc as [i Hi].
    destruct (Forall2_lookup_l _ _ _ _ _ Hes Hi)
      as (e & He & meta' & root & ef & Hmeta' & _ & _ & ->).
    assert (meta' = meta) as -> by congruence.
    eexists. split; [by eapply list_elem_of_lookup_2|]. done.
Qed.

(** *** The counts *)

Lemma size_list_to_set_le (l : list (option metaval)) :
  (size (list_to_set l : gset (option metaval)) ≤ length l)%nat.
Proof.
  induction l as [|x l IH].
  - by rewrite list_to_set_nil, size_empty.
  - rewrite list_to_set_cons, size_union_alt, size_singleton. simpl.
    pose proof (subseteq_size (list_to_set l ∖ {[x]})
                  (list_to_set l : gset (option metaval))) as Hle.
    specialize (Hle ltac:(set_solver)). lia.
Qed.

Lemma length_omap_id {A} (l : list (option A)) :
  (length (omap id l) ≤ length l)%nat.
Proof. induction l as [|[x|] l IH]; csimpl; simpl; lia. Qed.

Lemma size_unique_files metadatas :
  (size (unique_files metadatas) ≤ length metadatas)%nat.
Proof.
  unfold unique_files.
  etrans; [apply size_list_to_set_le|].
  rewrite length_fmap. apply length_omap_id.
Qed.

Lemma ls_collections_counts environ srv collections result es :
  Forall (λ e, 0 ≤ e_num_files e ≤ e_size e) result →
  ls_collections environ srv collections result = inr es →
  Forall (λ e, 0 ≤ e_num_files e ≤ e_size e) es.
Proof.
  revert result. induction collections as [|name collections IH];
    intros result Hres; simpl.
  { by intros [= <-]. }
  destruct (get_collection srv name) as [c|]; [|done].
  destruct (c_metadata c) as [meta|]; [|by apply IH].
  destruct (ne_str_opt (meta !! "created-by") "VectorCode"); [by apply IH|].
  destruct (negb (in_users environ (meta !! "username"))); [by apply IH|].
  destruct (ne_str_opt (meta !! "hostname") hostname); [by apply IH|].
  destruct (meta !! "path") as [project_root|]; [|done].
  destruct (meta !! "embedding_function") as [ef|]; [|done].
  apply IH. apply Forall_app. split; [done|]. constructor; [|constructor].
  simpl. pose proof (size_unique_files (c_metadatas c)). lia.
Qed.

Lemma ls_table_counts environ result table rows :
  Forall (λ e, 0 ≤ e_num_files e ≤ e_size e) result →
  Forall (λ r, 0 ≤ row_num_files r ≤ row_size r) table →
  ls_table environ result table = inr rows →
  Forall (λ r, 0 ≤ row_num_files r ≤ row_size r) rows.
Proof.
  revert table. induction result as [|meta result IH];
    intros table Hres Htab; simpl.
  { by intros [= <-]. }
  apply Forall_cons in Hres as [Hmeta Hres].
  destruct (shown_root environ (e_project_root meta)) as [e|root]; [done|].
  apply IH; [done|]. apply Forall_app. split; [done|].
  by constructor.
Qed.

(** The pairs (number of files, size) of a printed listing. *)
Definition counts (o : ls_output) : list (Z * Z) :=
  match o with
  | PrintJson result => (λ e, (e_num_files e, e_size e)) <$> result
  | PrintTable table => (λ r, (row_num_files r, row_size r)) <$> table
  end.

(** X20. Whatever the server holds, no line of a listing reports more files
    than records. *)
Theorem ls_reports_no_more_files_than_records configs environ srv r out o :
  ls configs environ srv = (r, out) →
  o ∈ out →
  Forall (λ c, 0 ≤ c.1 ≤ c.2) (counts o).
Proof.
  unfold ls.
  destruct (ls_collections environ srv (list_collections srv) [])
    as [e|result] eqn:Hcol.
  { intros [= <- <-] Ho. by apply elem_of_nil in Ho. }
  apply ls_collections_counts in Hcol; [|constructor].
  destruct (pipe configs).
  - intros [= <- <-] Ho. apply list_elem_of_singleton in Ho as ->.
    simpl. by apply Forall_fmap.
  - destruct (ls_table environ result []) as [e|table] eqn:Htab.
    { intros [= <- <-] Ho. by apply elem_of_nil in Ho. }
    apply ls_table_counts in Htab; [|done|constructor].
    intros [= <- <-] Ho. apply list_elem_of_singleton in Ho as ->.
    simpl. by apply Forall_fmap.
Qed.

(** *** The table *)

Lemma prefix_append old s :
  String.prefix old s = true → ∃ rest, s = old +:+ rest.
Proof.
  revert s. induction old as [|a old IH]; intros s.
  - intros _. by exists s.
  - destruct s as [|b s]; [done|]. simpl.
    destruct (Ascii.ascii_dec a b) as [->|]; [|done].
    intros [rest ->]%IH. by exists rest.
Qed.

Lemma prefix_of_append old rest : String.prefix old (old +:+ rest) = true.
Proof.
  induction old as [|a old IH]; simpl; [by destruct rest|].
  by destruct (Ascii.ascii_dec a a).
Qed.

Lemma replace_from_skip old new t s :
  replace_from old new (String.length t) (t +:+ s) = replace_from old new 0 s.
Proof. induction t as [|a t IH]; simpl; [by destruct s|done]. Qed.

(** An occurrence at the start is replaced, and the search goes on
    behind it. *)
Lemma py_replace_prefix old new rest :
  old ≠ EmptyString →
  py_replace (old +:+ rest) old new = new +:+ py_replace rest old new.
Proof.
  unfold py_replace. destruct old as [|a old]; [done|]. intros _.
  change (String a old +:+ rest) with (String a (old +:+ rest)).
  cbn [replace_from].
  change (String a (old +:+ rest)) with (String a old +:+ rest).
  rewrite prefix_of_append. simpl. rewrite Nat.sub_0_r.
  by rewrite replace_from_skip.
Qed.

(** A string without occurrence is left as it is. *)
Lemma py_replace_absent old new s :
  (∀ a b, s ≠ a +:+ old +:+ b) → py_replace s old new = s.
Proof.
  unfold py_replace. induction s as [|c s IH]; intros Hno; [done|].
  cbn [replace_from].
  destruct (String.prefix old (String c s)) eqn:Hpre.
  - apply prefix_append in Hpre as [rest Hrest].
    destruct (Hno EmptyString rest). done.
  - f_equal. apply IH. intros a b ->. by destruct (Hno (String c a) b).
Qed.

(** The row [ls] makes of an entry. *)
Definition row_of (environ : gmap string string) (e : entry) (r : row)
  : Prop :=
  ∃ project_root,
    shown_root environ (e_project_root e) = inr project_root
    ∧ r = Row_ project_root (e_size e) (e_num_files e)
            (e_embedding_function e).

Lemma ls_table_cases environ result table :
  (∃ rows,
     ls_table environ result table = inr (table ++ rows)
     ∧ Forall2 (row_of environ) result rows)
  ∨ (ls_table environ result table = inl LsAttributeError
     ∧ ∃ e, e ∈ result ∧ shown_root environ (e_project_root e)
                          = inl LsAttributeError).
Proof.
  revert table. induction result as [|meta result IH]; intros table; simpl.
  { left. exists []. rewrite app_nil_r. split; [done|constructor]. }
  destruct (shown_root environ (e_project_root meta)) as [e|root] eqn:Hroot.
  - right. assert (e = LsAttributeError) as ->.
    { unfold shown_root in Hroot.
      destruct (environ !! "HOME") as [home|]; [|done].
      destruct (bool_decide (home = EmptyString)); [done|].
      destruct (e_project_root meta); congruence. }
    split; [done|]. exists meta. split; [by left|done].
  - destruct (IH (table ++ [Row_ root (e_size meta) (e_num_files meta)
                              (e_embedding_function meta)]))
      as [(rows & -> & Hrows)|(-> & e & He & Hbad)].
    + left. eexists (_ :: rows). rewrite <- app_assoc. split; [done|].
      constructor; [|done]. by exists root.
    + right. split; [done|]. exists e. split; [by right|done].
Qed.

Lemma shown_root_raises environ project_root :
  shown_root environ project_root = inl LsAttributeError
  ↔ (∃ home, environ !! "HOME" = Some home ∧ home ≠ EmptyString)
    ∧ is_str project_root = false.
Proof.
  unfold shown_root. destruct (environ !! "HOME") as [home|].
  - case_bool_decide as Hhome.
    + split; [done|]. intros [(h & [= <-] & Hne) _]. done.
    + destruct project_root; simpl; split; try done.
      * by intros [_ ?].
      * intros _. split; [by exists home|done].
      * intros _. split; [by exists home|done].
  - split; [done|]. by intros [(h & ? & _) _].
Qed.

(** X21. In table mode [ls] raises [AttributeError], and prints nothing,
    exactly when [HOME] is set and not empty, no collection it does not
    skip lacks a key, and the ["path"] of one of them is not a string:
    what pipe mode prints as it is makes the table fail. *)
Theorem ls_table_needs_string_roots configs environ srv :
  NoDup (c_name <$> srv) →
  ls configs environ srv = (inl LsAttributeError, [])
  ↔ pipe configs = false
    ∧ (∃ home, environ !! "HOME" = Some home ∧ home ≠ EmptyString)
    ∧ (∀ c key, c ∈ srv → visible environ c → ¬ lacks c key)
    ∧ ∃ c meta project_root,
        c ∈ srv ∧ visible environ c ∧ c_metadata c = Some meta
        ∧ meta !! "path" = Some project_root
        ∧ is_str project_root = false.
Proof.
  intros Hnd. unfold ls.
  destruct (ls_collections_all environ srv Hnd)
    as [(es & -> & Hes)|(c & key & Hin & Hvis & Hlack & ->)]; cycle 1.
  { split; [done|]. intros (_ & _ & Hall & _). by destruct (Hall c key). }
  destruct (pipe configs); [split; [done|by intros [? _]]|].
  destruct (ls_table_cases environ es [])
    as [(rows & -> & Hrows)|(-> & e & He & Hbad)].
  - split; [done|].
    intros (_ & Hhome & _ & c & meta & root & Hin & Hvis & Hmeta & Hpath
            & Hstr).
    assert (c ∈ filter (visible environ) srv) as Hc
      by by apply list_elem_of_filter.
    apply list_elem_of_lookup in Hc as [i Hi].
    destruct (Forall2_lookup_l _ _ _ _ _ Hes Hi)
      as (e & He & meta' & root' & ef & Hmeta' & Hpath' & _ & ->).
    assert (meta' = meta) as -> by congruence.
    assert (root' = root) as -> by congruence.
    destruct (Forall2_lookup_l _ _ _ _ _ Hrows He)
      as (r & _ & shown & Hshown & _).
    simpl in Hshown.
    assert (shown_root environ root = inl LsAttributeError) as Hbad
      by by apply shown_root_raises.
    congruence.
  - split; [|done]. intros _. split; [done|].
    apply shown_root_raises in Hbad as [Hhome Hstr]. split; [done|]. split.
    { intros c key. by apply (described_complete environ srv es). }
    apply list_elem_of_lookup in He as [i Hi].
    destruct (Forall2_lookup_r _ _ _ _ _ Hes Hi)
      as (c & Hc & meta & root & ef & Hmeta & Hpath & _ & ->).
    apply list_elem_of_lookup_2, list_elem_of_filter in Hc as [Hvis Hin].
    by exists c, meta, root.
Qed.

(** X22. With [HOME] set and not empty, a table that is printed has one row
    for each collection [ls] does not skip, in the order of the server,
    and shows every project root with the occurrences of [HOME]
    replaced by a tilde: one at the start in particular, and none when
    [HOME] does not occur. *)
Theorem ls_table_abbreviates_home configs environ srv home table :
  pipe configs = false →
  NoDup (c_name <$> srv) →
  environ !! "HOME" = Some home →
  home ≠ EmptyString →
  ls configs environ srv = (inr 0, [PrintTable table]) →
  Forall2
    (λ c r,
       ∃ meta s ef,
         c_metadata c = Some meta
         ∧ meta !! "path" = Some (MStr s)
         ∧ meta !! "embedding_function" = Some ef
         ∧ r = Row_ (MStr (py_replace s home "~"))
                 (Z.of_nat (length (c_metadatas c)))
                 (Z.of_nat (size (unique_files (c_metadatas c)))) ef
         ∧ (∀ rest, s = home +:+ rest →
                    py_replace s home "~" = "~" +:+ py_replace rest home "~")
         ∧ ((∀ a b, s ≠ a +:+ home +:+ b) → py_replace s home "~" = s))
    (filter (visible environ) srv) table.
Proof.
  intros Hpipe Hnd Hhome Hne. unfold ls. rewrite Hpipe.
  destruct (ls_collections_all environ srv Hnd)
    as [(es & -> & Hes)|(c & key & Hin & Hvis & Hlack & ->)]; [|done].
  destruct (ls_table_cases environ es [])
    as [(rows & -> & Hrows)|(-> & _)]; [|done].
  intros [= <-].
  apply Forall2_same_length_lookup. split.
  { by rewrite (Forall2_length _ _ _ Hes), (Forall2_length _ _ _ Hrows). }
  intros i c r Hc Hr.
  destruct (Forall2_lookup_l _ _ _ _ _ Hes Hc)
    as (e & He & meta & root & ef & Hmeta & Hpath & Hef & ->).
  destruct (Forall2_lookup_l _ _ _ _ _ Hrows He)
    as (r' & Hr' & shown & Hshown & ->).
  simpl in Hr'. assert (r = Row_ shown (Z.of_nat (length (c_metadatas c)))
                              (Z.of_nat (size (unique_files (c_metadatas c))))
                              ef) as -> by (simpl in *; congruence).
  simpl in Hshown. unfold shown_root in Hshown. rewrite Hhome in Hshown.
  rewrite bool_decide_false in Hshown by done.
  destruct root as [s| |]; try done. injection Hshown as <-.
  exists meta, s, ef. split; [done|]. split; [done|]. split; [done|].
  split; [done|]. split.
  - intros rest ->. by apply py_replace_prefix.
  - apply py_replace_absent.
Qed.

(** *** Listing what a pass has stored *)

(** No step of a pass touches the metadata of the collection. *)
Definition keeps_meta {A} (m : M A) : Prop :=
  ∀ w r w', m w = (r, w') → w_meta w' = w_meta w.

Lemma keeps_meta_ret {A} (a : A) : keeps_meta (ret a).
Proof. by intros w r w' [= <- <-]. Qed.

Lemma keeps_meta_raise {A} e : keeps_meta (@raise A e).
Proof. by intros w r w' [= <- <-]. Qed.

Lemma keeps_meta_bind {A B} (m : M A) (k : A → M B) :
  keeps_meta m → (∀ a, keeps_meta (k a)) → keeps_meta (bind m k).
Proof.
  intros Hm Hk w r w'. unfold bind.
  destruct (m w) as [[e|a] w1] eqn:Hrun.
  - intros [= <- <-]. by eapply Hm.
  - intros Hrest. rewrite (Hk a _ _ _ Hrest). by eapply Hm.
Qed.

Lemma keeps_meta_remote {A} c (answer : world → A) effect :
  (∀ w, w_meta (effect w) = w_meta w) → keeps_meta (remote c answer effect).
Proof.
  intros Heff w r w'. unfold remote.
  destruct (faulty (w_calls w)); intros [= <- <-]; simpl; [done|].
  by rewrite Heff.
Qed.

Lemma keeps_meta_add_batches p bs : keeps_meta (add_batches p bs).
Proof.
  induction bs as [|b bs IH]; simpl; [apply keeps_meta_ret|].
  apply keeps_meta_bind; [by intros w r w' [= <- <-]|]. intros ids.
  apply keeps_meta_bind; [by apply keeps_meta_remote|]. by intros _.
Qed.

Lemma keeps_meta_stage configs m file ph : keeps_meta (stage configs m file ph).
Proof.
  destruct ph as [|n| |]; simpl.
  - apply keeps_meta_bind; [|intros; apply keeps_meta_ret].
    apply keeps_meta_bind; [by apply keeps_meta_remote|].
    intros; apply keeps_meta_ret.
  - apply keeps_meta_bind; [|intros; apply keeps_meta_ret].
    unfold reconcile. case_bool_decide.
    + apply keeps_meta_bind; [by apply keeps_meta_remote|].
      by intros _ w r w' [= <- <-].
    + by intros w r w' [= <- <-].
  - apply keeps_meta_bind; [|intros; apply keeps_meta_ret].
    unfold upload. apply keeps_meta_bind.
    + unfold open_. destruct (open_file _);
        [apply keeps_meta_ret|apply keeps_meta_raise].
    + intros text. destruct (batches _ _);
        [apply keeps_meta_add_batches|apply keeps_meta_raise].
  - apply keeps_meta_ret.
Qed.

Lemma keeps_meta_resume configs m i tasks :
  keeps_meta (resume configs m i tasks).
Proof.
  unfold resume. destruct (tasks !! i) as [[file ph]|];
    [|apply keeps_meta_ret].
  apply keeps_meta_bind; [apply keeps_meta_stage|].
  intros; apply keeps_meta_ret.
Qed.

Lemma keeps_meta_advance configs m resumed tasks :
  keeps_meta (advance configs m resumed tasks).
Proof.
  revert tasks. induction resumed as [|i resumed IH]; intros tasks; simpl;
    [apply keeps_meta_ret|].
  apply keeps_meta_bind; [apply keeps_meta_resume|done].
Qed.

Lemma keeps_meta_gather configs m sched tasks :
  keeps_meta (gather configs m sched tasks).
Proof.
  revert tasks. induction sched as [|[i|] sched IH]; intros tasks; simpl.
  - apply keeps_meta_bind; [apply keeps_meta_advance|].
    intros; apply keeps_meta_ret.
  - apply keeps_meta_bind; [apply keeps_meta_resume|done].
  - destruct (forallb _ _); [apply keeps_meta_ret|apply keeps_meta_raise].
Qed.

Lemma keeps_meta_remove_orphans : keeps_meta remove_orphans.
Proof.
  unfold remove_orphans.
  apply keeps_meta_bind; [by apply keeps_meta_remote|]. intros metadatas.
  case_bool_decide; [|apply keeps_meta_ret].
  destruct (path_values metadatas) as [e|paths]; [apply keeps_meta_raise|].
  apply keeps_meta_bind; [by intros w r w' [= <- <-]|]. intros _.
  case_bool_decide; [by apply keeps_meta_remote|apply keeps_meta_ret].
Qed.

Lemma keeps_meta_sync configs files_ sched :
  keeps_meta (sync configs files_ sched).
Proof.
  unfold sync.
  apply keeps_meta_bind; [by intros w r w' [= <- <-]|]. intros _.
  apply keeps_meta_bind; [by apply keeps_meta_remote|]. intros m.
  apply keeps_meta_bind.
  - intros w r w'. unfold catch.
    pose proof (keeps_meta_bind (gather configs m sched (spawn files_))
                  (λ _, ret true) (keeps_meta_gather _ _ _ _)
                  (λ _, keeps_meta_ret true) w) as Hg.
    destruct (bind (gather configs m sched (spawn files_)) (λ _, ret true) w)
      as [[e|b] w1].
    + specialize (Hg _ _ eq_refl). destruct (decide (e = CancelledError)).
      * intros [= <- <-]. done.
      * intros [= <- <-]. done.
    + specialize (Hg _ _ eq_refl). by intros [= <- <-].
  - intros [|]; [|apply keeps_meta_ret].
    apply keeps_meta_bind; [apply keeps_meta_remove_orphans|]. intros _.
    apply keeps_meta_bind; [|intros; apply keeps_meta_ret].
    intros w r w'. unfold show_stats.
    destruct (pipe configs); by intros [= <- <-].
Qed.

(** The metadata [get] returns for a stored record: a dict with the
    path [chunked_add] gave it, a dict without one, or [None]. *)
Definition stored_metadata (r : record) : option (gmap string metaval) :=
  match r_metadata r with
  | None => None
  | Some None => Some ∅
  | Some (Some path) => Some {["path" := path]}
  end.

(** The server that holds the collection of the pass, if it is
    created, under the name [name]. *)
Definition server_of (name : string) (w : world) : list collection :=
  match w_meta w with
  | Some meta => [Collection name (Some meta) (stored_metadata <$> w_coll w)]
  | None => []
  end.

Lemma unique_files_stored coll :
  (∀ rec, rec ∈ coll → is_Some (r_metadata rec)) →
  unique_files (stored_metadata <$> coll)
  = list_to_set ((λ r, set_key (r_path r)) <$> coll).
Proof.
  intros Hall. unfold unique_files. f_equal.
  induction coll as [|r coll IH]; [done|]. csimpl.
  destruct (Hall r ltac:(by left)) as [meta Hmeta].
  unfold stored_metadata at 1, r_path at 1. rewrite Hmeta. csimpl.
  specialize (IH ltac:(intros rec Hrec; apply Hall; by right)).
  destruct meta; csimpl; rewrite IH; f_equal; by simplify_map_eq.
Qed.

Lemma length_by_keys (keys : list (option metaval)) (coll : list record) :
  NoDup keys →
  (∀ rec, rec ∈ coll → r_path rec ∈ keys) →
  length coll = sum_list_with (λ key, length (by_key key coll)) keys.
Proof.
  revert coll. induction keys as [|k keys IH]; intros coll Hnd Hin.
  - destruct coll as [|rec coll]; [done|].
    specialize (Hin rec ltac:(by left)). by apply elem_of_nil in Hin.
  - apply NoDup_cons in Hnd as [Hk Hnd]. simpl.
    rewrite <- (by_key_complement k coll) at 1. rewrite length_app. f_equal.
    rewrite (IH (filter (λ r, r_path r ≠ k) coll) Hnd).
    + clear IH Hnd Hin. induction keys as [|k' keys IH]; [done|]. simpl.
      rewrite IH by (intros Hk'; apply Hk; by right).
      rewrite by_key_filter_keep; [done|].
      intros rec _ -> ->. apply Hk. by left.
    + intros rec [Hne Hrec]%list_elem_of_filter.
      specialize (Hin rec Hrec). apply elem_of_cons in Hin as [?|?]; done.
Qed.

Lemma sum_list_with_fmap {A B} (f : B → nat) (g : A → B) (l : list A) :
  sum_list_with f (g <$> l) = sum_list_with (f ∘ g) l.
Proof. induction l as [|x l IH]; [done|]. csimpl. by rewrite IH. Qed.

Lemma sum_list_with_ext_in {A} (f g : A → nat) (l : list A) :
  (∀ x, x ∈ l → f x = g x) → sum_list_with f l = sum_list_with g l.
Proof.
  induction l as [|x l IH]; intros Hext; [done|]. simpl.
  rewrite (Hext x) by by left. rewrite IH; [done|].
  intros y Hy. apply Hext. by right.
Qed.

Lemma key_of_inj_NoDup files_ :
  NoDup (expand_path <$> files_) → NoDup (key_of <$> files_).
Proof.
  intros Hnd. unfold key_of.
  assert ((λ file, Some (MStr (expand_path file))) <$> files_
          = (λ p, Some (MStr p)) <$> (expand_path <$> files_)) as ->
    by by rewrite <- list_fmap_compose.
  apply NoDup_fmap_2; [|done]. by intros p q [= ->].
Qed.

Lemma verify_ef_new_metadata configs full_path w :
  verify_ef (new_metadata configs full_path) configs w = (inr true, w).
Proof.
  destruct (new_metadata_lookup configs full_path)
    as (_ & _ & _ & Hef & Hep & _).
  unfold verify_ef. rewrite Hef, Hep. simpl.
  rewrite (bool_decide_true
             (embedding_function configs = embedding_function configs))
    by reflexivity.
  by rewrite andb_false_r.
Qed.

(** What a first pass leaves in a collection that was empty: records
    of the files of the pass only, at least one for each. *)
Lemma first_pass_keys configs files_ sched w :
  (∀ n, faulty n = false) →
  1 ≤ remote_max_batch_size →
  (∀ f, f ∈ files_ → isfile (expand_path f) = true) →
  (∀ f, f ∈ files_ → is_Some (open_file (expand_path f))) →
  NoDup (expand_path <$> files_) →
  Forall (λ e, e ≠ Cancel) sched →
  w_coll w = [] →
  ∃ w',
    sync configs files_ sched w = (inr 0, w')
    ∧ w_meta w' = w_meta w
    ∧ (∀ rec, rec ∈ w_coll w' → r_path rec ∈ key_of <$> files_)
    ∧ (∀ f, f ∈ files_ →
         length (by_key (key_of f) (w_coll w'))
         = length (target configs (expand_path f))
         ∧ by_key (key_of f) (w_coll w') ≠ []).
Proof.
  intros Hnf Hm Hreg Hread Hnd Hsched Hempty.
  destruct (sync_healthy configs files_ sched w Hnf Hm Hreg Hread Hnd Hsched)
    as (w' & Hrun & Hown & Hclean & Hfor & Hsome & _).
  { rewrite Hempty. by intros rec ?%elem_of_nil. }
  exists w'. split; [done|]. split; [by eapply keeps_meta_sync|]. split.
  - intros rec Hrec.
    destruct (foreign_or_own files_ (r_path rec)) as [Hforeign|(f & Hf & ->)];
      [|apply list_elem_of_fmap; by exists f].
    exfalso.
    assert (rec ∈ by_key (r_path rec) (w_coll w')) as Hin
      by by apply elem_of_by_key.
    rewrite Hfor, Hempty in Hin; [by apply elem_of_nil in Hin|done|].
    intros p Hp. by apply (Hclean rec).
  - intros f Hf. specialize (Hown f Hf).
    assert (length (by_key (key_of f) (w_coll w'))
            = length (target configs (expand_path f))) as Hlen
      by by rewrite <- Hown, length_fmap.
    split; [done|]. intros Hnil. rewrite Hnil in Hlen. simpl in Hlen.
    pose proof (target_nonempty configs (expand_path f) (Hread f Hf)).
    by destruct (target configs (expand_path f)).
Qed.

(** X23. The first [vectorise] of a project, once it has obtained its
    embedding function, followed by [ls]: the listing has one line for
    the new collection, with the canonical project
    root, the user and the embedding function of the run; its size is
    the number of chunks of all files, the relative path each file
    ends with included, and its number of files is the number of files
    of the pass. *)
Theorem ls_after_first_vectorise
    configs sched ls_configs environ name files_ w :
  embedding_function_obtained configs →
  (∀ n, faulty n = false) →
  1 ≤ remote_max_batch_size →
  w_meta w = None →
  w_coll w = [] →
  (∀ w0, select_files configs w0 = (inr files_, w0)) →
  (∀ f, f ∈ files_ → isfile (expand_path f) = true) →
  (∀ f, f ∈ files_ → is_Some (open_file (expand_path f))) →
  NoDup (expand_path <$> files_) →
  Forall (λ e, e ≠ Cancel) sched →
  environ !! "USER" = Some user →
  pipe ls_configs = true →
  ∃ w',
    vectorise configs sched w = (inr 0, w')
    ∧ ls ls_configs environ (server_of name w')
      = (inr 0,
         [PrintJson
            [Entry (MStr (expand_path (project_root configs)))
               (Some (MStr user)) hostname name
               (Z.of_nat
                  (sum_list_with
                     (λ f, length (target configs (expand_path f))) files_))
               (MStr (embedding_function configs))
               (Z.of_nat (length files_))]]).
Proof.
  intros Hob Hnf Hm Hnone Hempty Hsel Hreg Hread Hnd Hsched Huser Hpipe.
  destruct (make_or_get_collection_eq configs w Hob (Hnf _))
    as (w1 & Hmk & Hm1 & Hc1 & _).
  rewrite Hnone in Hmk, Hm1. simpl in Hmk, Hm1.
  rewrite own_collection_new in Hmk.
  set (metadata := new_metadata configs (expand_path (project_root configs)))
    in *.
  destruct (first_pass_keys configs files_ sched w1 Hnf Hm Hreg Hread Hnd
              Hsched) as (w' & Hrun & Hmeta & Hkeys & Hown).
  { by rewrite Hc1. }
  exists w'. split.
  { unfold vectorise, bind at 1, catch, bind at 1. rewrite Hmk. simpl.
    unfold bind at 1. unfold metadata at 1.
    rewrite verify_ef_new_metadata. simpl. unfold bind at 1.
    by rewrite Hsel. }
  destruct (new_metadata_lookup configs (expand_path (project_root configs)))
    as (Hho & Hus & Hcb & Hef & _ & Hpath). fold metadata in Hho, Hus, Hcb,
    Hef, Hpath.
  unfold server_of. rewrite Hmeta, Hm1.
  unfold ls, list_collections. rewrite Hpipe. simpl.
  rewrite bool_decide_true by done. simpl.
  rewrite Hcb, Hus, Hho, Hpath, Hef. simpl.
  rewrite !bool_decide_true by done. simpl.
  unfold in_users. rewrite Huser. simpl.
  rewrite bool_decide_true by done. simpl.
  do 4 f_equal.
  assert (Z.of_nat (length (stored_metadata <$> w_coll w'))
          = Z.of_nat
              (sum_list_with
                 (λ f, length (target configs (expand_path f))) files_))
    as ->.
  { f_equal. rewrite length_fmap.
    rewrite (length_by_keys (key_of <$> files_) (w_coll w'));
      [|by apply key_of_inj_NoDup|done].
    rewrite sum_list_with_fmap. apply sum_list_with_ext_in.
    intros f Hf. simpl. by apply Hown. }
  assert (Z.of_nat (size (unique_files (stored_metadata <$> w_coll w')))
          = Z.of_nat (length files_)) as ->; [|done].
  f_equal. rewrite unique_files_stored.
  2:{ intros rec Hrec.
      apply Hkeys, list_elem_of_fmap in Hrec as (f & Hf & _).
      unfold r_path, key_of in Hf.
      destruct (r_metadata rec); [by eexists|done]. }
  assert (list_to_set ((λ r, set_key (r_path r)) <$> w_coll w')
          = (list_to_set (key_of <$> files_) : gset (option metaval))) as ->.
  { apply set_eq. intros x. rewrite !elem_of_list_to_set, !list_elem_of_fmap.
    split.
    - intros (rec & -> & Hrec).
      apply Hkeys, list_elem_of_fmap in Hrec as (f & -> & Hf).
      by exists f.
    - intros (f & -> & Hf). destruct (Hown f Hf) as [_ Hne].
      destruct (by_key (key_of f) (w_coll w')) as [|rec l] eqn:Hby; [done|].
      assert (rec ∈ by_key (key_of f) (w_coll w')) as Hrec
        by (rewrite Hby; by left).
      apply elem_of_by_key in Hrec as [Hp Hrec].
      exists rec. by rewrite Hp. }
  rewrite size_list_to_set, length_fmap; [done|].
  by apply key_of_inj_NoDup.
Qed.

End Listing.

(** ** A small project

    Two files under [/p], cut into chunks of [chunk_size] characters, a
    remote side that accepts two documents per insert and, in the flaky
    variant, fails on its second call.  Every embedding function is
    there; the one of OpenAI raises [ValueError] when it is called, as
    it does without an API key. *)

Fixpoint demo_chunks (fuel width : nat) (text : string) : list string :=
  match fuel with
  | O => []
  | S fuel' =>
      if bool_decide (text = EmptyString) then []
      else
        String.substring 0 width text
        :: demo_chunks fuel' width
             (String.substring width (String.length text - width) text)
  end.

Definition demo_files : list string := ["/p/a.txt"; "/p/b.txt"].

Definition demo_open (p : string) : option string :=
  if bool_decide (p = "/p/a.txt") then Some "hello world"
  else if bool_decide (p = "/p/b.txt") then Some "bye"
  else None.

Definition demo_env_with (fails : nat → bool) : Environment := {|
  faulty := fails;
  remote_max_batch_size := 2;
  isfile := λ p, bool_decide (p ∈ demo_files);
  open_file := demo_open;
  path_join := λ a b, a +:+ "/" +:+ b;
  relpath := λ p root, String.substring (S (String.length root))
                         (String.length p) p;
  hostname := "host";
  user := "me";
  expand_path := id;
  expand_globs := λ specs _, specs;
  has_embedding_function := λ _, true;
  embedding_function_raises := λ name _,
    if bool_decide (name = "OpenAIEmbeddingFunction") then Some ValueError
    else None;
  FileChunker := λ size _ text,
    demo_chunks (String.length text) (Z.to_nat size) text;
  match_file := λ _ _, false |}.

Definition demo_env : Environment := demo_env_with (λ _, false).
Definition flaky_env : Environment := demo_env_with (λ n, bool_decide (n = 1%nat)).

Definition demo_cfg : Config := {|
  files := demo_files;
  recursive := false;
  project_root := "/p";
  force := false;
  pipe := true;
  chunk_size := 5;
  overlap_ratio := 0%Q;
  embedding_function := "SentenceTransformerEmbeddingFunction";
  embedding_params := ∅ |}.

(** An empty remote side, and one that holds a chunk of [/p/a.txt], two
    chunks of a file that is gone and a record whose path is a number. *)
Definition demo_w0 : world := World None [] (Stats 0 0 0) 0 0 [].

Definition demo_stale : record :=
  Record_ 0 "old" (Some (Some (MStr "/p/a.txt"))).
Definition demo_odd : record := Record_ 3 "odd" (Some (Some (MInt 7))).

Definition demo_w1 : world :=
  World None
    [demo_stale;
     Record_ 1 "gone 1" (Some (Some (MStr "/p/gone.txt")));
     Record_ 2 "gone 2" (Some (Some (MStr "/p/gone.txt")));
     demo_odd]
    (Stats 0 0 0) 4 0 [].

Example demo_first_pass :
  let w := (sync (env := demo_env) demo_cfg demo_files [] demo_w1).2 in
  w_stats w = Stats 1 1 1
  ∧ r_doc <$> w_coll w
    = ["odd"; "hello"; " worl"; "d"; "a.txt"; "bye"; "b.txt"].
Proof. vm_compute. done. Qed.

(** *** The theorems at work on the small project *)

(** Uploading [/p/a.txt] (four chunks) with at most two documents per
    insert. *)
Definition demo_upload : (exn + unit) * world :=
  upload (env := demo_env) demo_cfg 2 "/p/a.txt" demo_w0.

Lemma upload_respects_max_batch_size_witness :
  ∃ bs T,
    bs = [["hello"; " worl"]; ["d"; "a.txt"]]
    ∧ concat bs = file_chunks (env := demo_env) demo_cfg "/p/a.txt" "hello world"
    ∧ Forall (λ b, (length b ≤ Z.to_nat 2)%nat) bs
    ∧ w_trace demo_upload.2 = w_trace demo_w0 ++ T
    ∧ add_calls T = bs
    ∧ Forall (insert_of "/p/a.txt") T
    ∧ Forall returned T
    ∧ demo_upload.1 = inr tt
    ∧ r_doc <$> w_coll demo_upload.2 = concat bs.
Proof.
  destruct (upload_respects_max_batch_size (env := demo_env)
              demo_cfg 2 "/p/a.txt" "hello world" demo_w0
              demo_upload.1 demo_upload.2)
    as (bs & T & Hcat & Hlen & HT & _ & Hall & Hins & Hcase & Hnf & Hcoll).
  - lia.
  - reflexivity.
  - vm_compute. reflexivity.
  - assert (demo_upload.1 = inr tt) as Hr by (apply Hnf; reflexivity).
    specialize (Hall Hr). specialize (Hcoll Hr).
    destruct Hcase as [[_ Hret]|(T0 & ids & docs & _ & _ & Hfail)];
      [|rewrite Hr in Hfail; discriminate Hfail].
    assert (bs = [["hello"; " worl"]; ["d"; "a.txt"]]) as Hbs.
    { pose proof HT as HT'. vm_compute in HT'.
      rewrite <- Hall, <- HT'. reflexivity. }
    exists bs, T. split; [exact Hbs|]. split; [exact Hcat|].
    split; [exact Hlen|]. split; [exact HT|]. split; [exact Hall|].
    split; [exact Hins|]. split; [exact Hret|]. split; [exact Hr|].
    rewrite Hcoll, Hcat. vm_compute. reflexivity.
Defined.

(** No [.gitignore] in [/p]: the candidates pass through. *)
Lemma select_files_keeps_iff_witness :
  select_files (env := demo_env) demo_cfg demo_w0 = (inr demo_files, demo_w0).
Proof.
  apply (proj2 (select_files_keeps_iff (env := demo_env) demo_cfg demo_w0)).
  reflexivity.
Defined.

(** The cleanup of [demo_w1]: one orphan path, two records deleted. *)
Definition demo_cleanup : (exn + unit) * world :=
  remove_orphans (env := demo_env) demo_w1.

Lemma remove_orphans_counts_distinct_paths_witness :
  ∃ (O : gset string) T,
    (∀ p, p ∈ O ↔ orphan (env := demo_env) (w_coll demo_w1) p)
    ∧ s_removed (w_stats demo_cleanup.2) = Z.of_nat (size O)
    ∧ s_add (w_stats demo_cleanup.2) = s_add (w_stats demo_w1)
    ∧ s_update (w_stats demo_cleanup.2) = s_update (w_stats demo_w1)
    ∧ w_trace demo_cleanup.2 = w_trace demo_w1 ++ T
    ∧ delete_calls T = (if decide (O = ∅) then [] else [DeleteIn (elements O)])
    ∧ (demo_cleanup.1 = inr tt →
       w_coll demo_cleanup.2 =
         filter (λ rec, ¬ ∃ p, p ∈ O ∧ has_path p rec) (w_coll demo_w1)).
Proof.
  apply (remove_orphans_counts_distinct_paths (env := demo_env)).
  - reflexivity.
  - apply Forall_forall. repeat constructor; by eexists.
  - reflexivity.
  - vm_compute. reflexivity.
Defined.

Example demo_cleanup_counts_paths_not_records :
  s_removed (w_stats demo_cleanup.2) = 1
  ∧ (length (w_coll demo_w1) - length (w_coll demo_cleanup.2) = 2)%nat.
Proof. vm_compute. done. Qed.

(** The record with a numeric path survives the cleanup. *)
Lemma non_string_path_never_orphan_witness :
  demo_odd ∈ w_coll demo_cleanup.2.
Proof.
  refine (proj1 (non_string_path_never_orphan (env := demo_env)
                   demo_w1 demo_cleanup.1 demo_cleanup.2 demo_odd (MInt 7)
                   _ _ _ _)).
  - vm_compute. reflexivity.
  - vm_compute. repeat constructor.
  - reflexivity.
  - reflexivity.
Defined.

(** A task on [/p/a.txt] whose delete call fails: the query has
    returned, the counters have not moved. *)
Definition demo_failed_task : (exn + unit) * world :=
  chunked_add (env := flaky_env) demo_cfg 2 "/p/a.txt" demo_w1.

Lemma failed_call_keeps_counters_witness :
  ∃ T,
    w_trace demo_failed_task.2 = w_trace demo_w1 ++ T
    ∧ w_stats demo_failed_task.2 = replay T (w_stats demo_w1)
    ∧ (∀ T0 c rest, T = T0 ++ ECall c false :: rest →
         rest = [] ∧ demo_failed_task.1 = inl (RemoteError c)
         ∧ w_stats demo_failed_task.2 = replay T0 (w_stats demo_w1))
    ∧ (∀ T0 k rest, T = T0 ++ EIncr k :: rest →
         ∃ T1, T0 = T1 ++ [ECall (call_of
                                    (expand_path (Environment := flaky_env)
                                       "/p/a.txt") k) true]).
Proof.
  apply (failed_call_keeps_counters (env := flaky_env)
           demo_cfg 2 "/p/a.txt" demo_w1).
  vm_compute. reflexivity.
Defined.

Example demo_failed_task_counters :
  demo_failed_task.1 = inl (RemoteError (DeleteWhere "/p/a.txt"))
  ∧ w_stats demo_failed_task.2 = w_stats demo_w1.
Proof. vm_compute. done. Qed.





(** Why every stored record must carry a path: one that does not makes
    the cleanup of the first pass raise, and that of the second. *)
Example pathless_record_stops_both_passes :
  let w0 := World None [Record_ 0 "x" (Some None)] (Stats 0 0 0) 1 0 [] in
  let first := sync (env := demo_env) demo_cfg demo_files [] w0 in
  first.1 = inl KeyError
  ∧ (sync (env := demo_env) demo_cfg demo_files [] first.2).1 = inl KeyError.
Proof. vm_compute. done. Qed.

(** A cancellation after the first task has queried and counted and the
    second has queried. *)
Lemma cancellation_aborts_witness :
  ∃ w2,
    vectorise (env := demo_env) demo_cfg
      ((Resume <$> [0; 0; 1]%nat) ++ Cancel :: [Resume 1]) demo_w0
      = (inr 1, log (EStderr "Abort.") w2)
    ∧ emits (λ e, ¬ cleanup_or_report e) demo_w0 (log (EStderr "Abort.") w2).
Proof.
  eexists.
  eapply (cancellation_aborts (env := demo_env) demo_cfg _ demo_files).
  - vm_compute. reflexivity.
  - vm_compute. reflexivity.
  - vm_compute. reflexivity.
  - reflexivity.
  - vm_compute. reflexivity.
  - reflexivity.
Defined.

(** The loop after one resumption of the first task. *)
Definition demo_resumed : (exn + list (string * phase)) * world :=
  resume (env := demo_env) demo_cfg 2 0 (spawn demo_files) demo_w1.

Definition demo_tasks : list (string * phase) :=
  match demo_resumed.1 with inr tasks => tasks | inl _ => [] end.

Lemma stats_invariant_witness :
  let w := demo_resumed.2 in
  0 ≤ s_add (w_stats w) ∧ 0 ≤ s_update (w_stats w)
  ∧ s_add (w_stats w) + s_update (w_stats w)
    ≤ Z.of_nat (count_if started demo_tasks)
  ∧ (count_if started demo_tasks ≤ length demo_files)%nat
  ∧ s_removed (w_stats w) = 0
  ∧ ∀ r w', remove_orphans (env := demo_env) w = (r, w') →
      s_add (w_stats w') = s_add (w_stats w)
      ∧ s_update (w_stats w') = s_update (w_stats w)
      ∧ 0 ≤ s_removed (w_stats w')
          ≤ Z.of_nat (size (stored_paths (w_coll w))).
Proof.
  apply (stats_invariant (env := demo_env) demo_cfg 2 demo_files).
  eapply (reach_resume (env := demo_env) _ _ _ (spawn demo_files) demo_w1 0).
  - apply reach_spawn. reflexivity.
  - vm_compute. reflexivity.
Defined.

(** A collection embedded with another function is rejected. *)
Definition demo_metadata : gmap string metaval :=
  {[ "embedding_function" := MStr "OpenAIEmbeddingFunction" ]}.

Lemma verify_ef_rejects_iff_function_differs_witness :
  ∃ w', verify_ef demo_metadata demo_cfg demo_w0 = (inr false, w').
Proof.
  destruct (verify_ef_rejects_iff_function_differs (env := demo_env)
              demo_metadata demo_cfg demo_w0)
    as (ok & w' & Hrun & Hiff & _).
  exists w'. rewrite Hrun. f_equal. f_equal. apply Hiff.
  exists (MStr "OpenAIEmbeddingFunction"). by vm_compute.
Defined.

(** *** Failures and edges of a task *)

(** A task on a file that is gone: its two stored chunks are deleted
    and the file is counted as updated before [open] fails. *)
Lemma unreadable_file_loses_its_chunks_witness :
  ∃ w',
    chunked_add (env := demo_env) demo_cfg 2 "/p/gone.txt" demo_w1
    = (inl (OSError "/p/gone.txt"), w')
    ∧ w_coll w' = [demo_stale; demo_odd]
    ∧ w_stats w' = Stats 0 1 0.
Proof.
  destruct (unreadable_file_loses_its_chunks (env := demo_env)
              demo_cfg 2 "/p/gone.txt" demo_w1)
    as (w' & Hrun & Hcoll & Hstats).
  - reflexivity.
  - intros _. reflexivity.
  - reflexivity.
  - exists w'. split; [exact Hrun|]. split.
    + etrans; [exact Hcoll|]. vm_compute. reflexivity.
    + etrans; [exact Hstats|]. vm_compute. reflexivity.
Defined.


(** A remote side whose fourth call fails: the second insert of the
    task on [/p/a.txt]. *)
Definition late_env : Environment :=
  demo_env_with (λ n, bool_decide (n = 3%nat)).

Definition demo_partial : (exn + unit) * world :=
  chunked_add (env := late_env) demo_cfg 2 "/p/a.txt" demo_w1.

Lemma failed_insert_leaves_partial_upload_witness :
  ∃ text bs k,
    open_file (Environment := late_env) "/p/a.txt" = Some text
    ∧ batches 2 (file_chunks (env := late_env) demo_cfg "/p/a.txt" text)
      = Some bs
    ∧ bs !! k = Some ["d"; "a.txt"]
    ∧ concat bs
      = concat (take k bs) ++ ["d"; "a.txt"] ++ concat (drop (S k) bs)
    ∧ w_coll demo_partial.2 =
        filter (λ r, ¬ has_path "/p/a.txt" r) (w_coll demo_w1)
        ++ new_records (seq (w_uuid demo_w1) (length (concat (take k bs))))
             (concat (take k bs)) "/p/a.txt"
    ∧ r_doc <$> filter (has_path "/p/a.txt") (w_coll demo_partial.2)
      = concat (take k bs).
Proof.
  apply (failed_insert_leaves_partial_upload (env := late_env)
           demo_cfg 2 "/p/a.txt" demo_w1 [6; 7]%nat ["d"; "a.txt"]
           "/p/a.txt" demo_partial.2).
  vm_compute. reflexivity.
Defined.

(** *** Whole passes *)

Definition demo_pass : (exn + Z) * world :=
  sync (env := demo_env) demo_cfg demo_files [] demo_w1.

Lemma exit_zero_counts_every_file_witness :
  s_add (w_stats demo_pass.2) + s_update (w_stats demo_pass.2)
  = Z.of_nat (length demo_files)
  ∧ last (w_trace demo_pass.2) = Some (EShowJson (w_stats demo_pass.2)).
Proof.
  destruct (exit_zero_counts_every_file (env := demo_env)
              demo_cfg demo_files [] demo_w1 demo_pass.2)
    as (Hsum & _ & _ & _ & Hlast).
  - vm_compute. reflexivity.
  - split; [exact Hsum|exact Hlast].
Defined.

(** The first query of the pass fails. *)
Definition demo_failed_pass : (exn + unit) * world :=
  gather (env := flaky_env) demo_cfg 2 [] (spawn demo_files)
    (spawned demo_w1).

Lemma task_failure_ends_the_pass_witness :
  sync (env := flaky_env) demo_cfg demo_files [] demo_w1
  = (inl (RemoteError (GetWhere "/p/a.txt")), demo_failed_pass.2)
  ∧ emits (λ ev, ¬ cleanup_or_report ev) demo_w1 demo_failed_pass.2.
Proof.
  apply (task_failure_ends_the_pass (env := flaky_env)
           demo_cfg demo_files [] demo_w1).
  - reflexivity.
  - vm_compute. reflexivity.
  - discriminate.
Defined.

Lemma pass_counts_new_known_and_orphans_witness :
  ∃ w' (O : gset string),
    sync (env := demo_env) demo_cfg demo_files [] demo_w1 = (inr 0, w')
    ∧ (∀ p, p ∈ O ↔ orphan (env := demo_env) (w_coll demo_w1) p)
    ∧ s_add (w_stats w')
      = Z.of_nat
          (length (filter (is_new (env := demo_env) (w_coll demo_w1))
                     demo_files))
    ∧ s_update (w_stats w')
      = Z.of_nat
          (length
             (filter (λ f, ¬ is_new (env := demo_env) (w_coll demo_w1) f)
                demo_files))
    ∧ s_removed (w_stats w') = Z.of_nat (size O).
Proof.
  apply (pass_counts_new_known_and_orphans (env := demo_env)).
  - reflexivity.
  - simpl. lia.
  - apply Forall_forall. repeat constructor.
  - apply Forall_forall. repeat constructor; by eexists.
  - vm_compute. repeat constructor; set_solver.
  - constructor.
  - apply Forall_forall. repeat constructor; by eexists.
Defined.

Lemma interleaving_does_not_matter_witness :
  ∃ w1 w2,
    sync (env := demo_env) demo_cfg demo_files [] demo_w1 = (inr 0, w1)
    ∧ sync (env := demo_env) demo_cfg demo_files
        [Resume 1; Resume 0; Resume 1] demo_w1 = (inr 0, w2)
    ∧ (∀ key, content <$> by_key key (w_coll w1)
              = content <$> by_key key (w_coll w2))
    ∧ content <$> w_coll w1 ≡ₚ content <$> w_coll w2
    ∧ w_stats w1 = w_stats w2.
Proof.
  apply (interleaving_does_not_matter (env := demo_env)).
  - reflexivity.
  - simpl. lia.
  - apply Forall_forall. repeat constructor.
  - apply Forall_forall. repeat constructor; by eexists.
  - vm_compute. repeat constructor; set_solver.
  - constructor.
  - repeat constructor; discriminate.
  - apply Forall_forall. repeat constructor; by eexists.
Defined.

Lemma pass_stores_chunks_then_relative_path_witness :
  ∃ w',
    sync (env := demo_env) demo_cfg demo_files [] demo_w1 = (inr 0, w')
    ∧ r_doc <$> filter (has_path "/p/a.txt") (w_coll w')
      = ["hello"; " worl"; "d"; "a.txt"].
Proof.
  destruct (pass_stores_chunks_then_relative_path (env := demo_env)
              demo_cfg demo_files [] demo_w1) as (w' & Hrun & Hall).
  - reflexivity.
  - simpl. lia.
  - apply Forall_forall. repeat constructor.
  - apply Forall_forall. repeat constructor; by eexists.
  - vm_compute. repeat constructor; set_solver.
  - constructor.
  - apply Forall_forall. repeat constructor; by eexists.
  - exists w'. split; [exact Hrun|].
    destruct (Hall "/p/a.txt") as (text & Hopen & Hdocs); [by left|].
    etrans; [exact Hdocs|]. vm_compute in Hopen. injection Hopen as <-.
    vm_compute. reflexivity.
Defined.

Lemma pass_leaves_no_orphan_and_spares_the_rest_witness :
  ∃ w',
    sync (env := demo_env) demo_cfg demo_files [] demo_w1 = (inr 0, w')
    ∧ by_key (Some (MInt 7)) (w_coll w') = [demo_odd].
Proof.
  destruct (pass_leaves_no_orphan_and_spares_the_rest (env := demo_env)
              demo_cfg demo_files [] demo_w1)
    as (w' & Hrun & _ & _ & Hodd).
  - reflexivity.
  - simpl. lia.
  - apply Forall_forall. repeat constructor.
  - apply Forall_forall. repeat constructor; by eexists.
  - vm_compute. repeat constructor; set_solver.
  - constructor.
  - apply Forall_forall. repeat constructor; by eexists.
  - exists w'. split; [exact Hrun|].
    etrans; [apply (Hodd (MInt 7)); reflexivity|]. vm_compute. reflexivity.
Defined.

(** *** The cleanup *)

(** A record stored without metadata, between one with a path and one
    whose metadata has no path. *)
Definition demo_bare : record := Record_ 5 "bare" None.
Definition demo_pathless : record := Record_ 6 "x" (Some None).

Definition demo_w2 : world :=
  World None [demo_stale; demo_bare; demo_pathless] (Stats 0 0 0) 7 0 [].

Lemma cleanup_raises_on_missing_path_witness :
  remove_orphans (env := demo_env) demo_w2
  = (inl TypeError, log (ECall GetAll true) (tick demo_w2)).
Proof.
  apply (cleanup_raises_on_missing_path (env := demo_env)
           demo_w2 [demo_stale] demo_bare [demo_pathless]).
  - reflexivity.
  - reflexivity.
  - intros rec' ->%list_elem_of_singleton. by eexists.
  - reflexivity.
Defined.

Example demo_cleanup_key_error :
  remove_orphans (env := demo_env)
    (World None [demo_stale; demo_pathless; demo_bare] (Stats 0 0 0) 7 0 [])
  = (inl KeyError,
     log (ECall GetAll true)
       (tick (World None [demo_stale; demo_pathless; demo_bare]
                (Stats 0 0 0) 7 0 []))).
Proof. vm_compute. reflexivity. Qed.

Lemma cleanup_twice_deletes_nothing_witness :
  ∃ w2 T,
    remove_orphans (env := demo_env) demo_cleanup.2 = (inr tt, w2)
    ∧ w_coll w2 = w_coll demo_cleanup.2
    ∧ w_trace w2 = w_trace demo_cleanup.2 ++ T
    ∧ delete_calls T = []
    ∧ (w_coll demo_cleanup.2 ≠ [] → s_removed (w_stats w2) = 0).
Proof.
  apply (cleanup_twice_deletes_nothing (env := demo_env) demo_w1).
  - vm_compute. reflexivity.
  - reflexivity.
Defined.

(** *** Acquiring the collection *)

(** A collection that another host has created under the same name. *)
Definition demo_foreign : gmap string metaval :=
  {[ "hostname" := MStr "elsewhere";
     "username" := MStr "me";
     "created-by" := MStr "VectorCode" ]}.

Definition demo_w3 : world :=
  World (Some demo_foreign) [demo_stale] (Stats 0 0 0) 1 0 [].

Lemma foreign_collection_is_refused_witness :
  ∃ w',
    vectorise (env := demo_env) demo_cfg [] demo_w3 = (inr 1, w')
    ∧ w_coll w' = w_coll demo_w3
    ∧ w_meta w' = Some demo_foreign
    ∧ w_calls w' = S (w_calls demo_w3)
    ∧ last (w_trace w')
      = Some (EStdout "Failed to get/create the collection. Please check your config.").
Proof.
  apply (foreign_collection_is_refused (env := demo_env)).
  - intros _ e He. vm_compute in He. discriminate.
  - reflexivity.
  - reflexivity.
  - vm_compute. reflexivity.
Defined.

Lemma new_collection_is_accepted_witness :
  ∃ w',
    make_or_get_collection (env := demo_env) demo_cfg demo_w0
    = (inr (new_metadata (env := demo_env) demo_cfg "/p"), w')
    ∧ w_meta w' = Some (new_metadata (env := demo_env) demo_cfg "/p")
    ∧ verify_ef
        (new_metadata (env := demo_env) demo_cfg "/p") demo_cfg w'
      = (inr true, w').
Proof.
  apply (new_collection_is_accepted (env := demo_env) demo_cfg demo_w0).
  - intros _ e He. vm_compute in He. discriminate.
  - reflexivity.
  - reflexivity.
Defined.




(** The project with a [.gitignore] that cannot be opened. *)
Definition locked_env : Environment := {|
  faulty := λ _, false;
  remote_max_batch_size := 2;
  isfile := λ p, bool_decide (p ∈ "/p/.gitignore" :: demo_files);
  open_file := demo_open;
  path_join := path_join (Environment := demo_env);
  relpath := relpath (Environment := demo_env);
  hostname := "host";
  user := "me";
  expand_path := id;
  expand_globs := λ specs _, specs;
  has_embedding_function := λ _, true;
  embedding_function_raises := λ _ _, None;
  FileChunker := FileChunker (Environment := demo_env);
  match_file := λ _ _, false |}.

Lemma unreadable_gitignore_ends_vectorise_witness :
  ∃ w',
    vectorise (env := locked_env) demo_cfg [] demo_w1
    = (inl (OSError "/p/.gitignore"), w')
    ∧ w_coll w' = w_coll demo_w1
    ∧ w_stats w' = w_stats demo_w1
    ∧ w_calls w' = S (w_calls demo_w1).
Proof.
  apply (unreadable_gitignore_ends_vectorise (env := locked_env)
           demo_cfg [] demo_w1).
  - intros _ e He. vm_compute in He. discriminate.
  - reflexivity.
  - vm_compute. reflexivity.
  - intros (ef & Hef & _ & Hne). vm_compute in Hef. injection Hef as <-.
    by apply Hne.
  - vm_compute. reflexivity.
  - reflexivity.
Defined.

(** An installation without the configured embedding function. *)
Definition bare_env : Environment := {|
  faulty := λ _, false;
  remote_max_batch_size := 2;
  isfile := isfile (Environment := demo_env);
  open_file := demo_open;
  path_join := path_join (Environment := demo_env);
  relpath := relpath (Environment := demo_env);
  hostname := "host";
  user := "me";
  expand_path := id;
  expand_globs := λ specs _, specs;
  has_embedding_function := λ _, false;
  embedding_function_raises := λ _ _, None;
  FileChunker := FileChunker (Environment := demo_env);
  match_file := λ _ _, false |}.

Lemma fallback_is_recorded_under_the_configured_name_witness :
  ∃ w' metadata,
    make_or_get_collection (env := bare_env) demo_cfg demo_w0
    = (inr metadata, w')
    ∧ w_meta w' = Some metadata
    ∧ metadata !! "embedding_function"
      = Some (MStr "SentenceTransformerEmbeddingFunction")
    ∧ w_trace w'
      = w_trace demo_w0
        ++ [EStderr ("Failed to use " +:+ embedding_function demo_cfg
                     +:+ ". Falling back to Sentence Transformer.");
            ECall GetOrCreate true]
    ∧ verify_ef metadata demo_cfg w' = (inr true, w').
Proof.
  apply (fallback_is_recorded_under_the_configured_name (env := bare_env)
           demo_cfg demo_w0).
  - reflexivity.
  - reflexivity.
  - reflexivity.
Defined.

(** The project configured with the embedding function of OpenAI and no
    API key: the call of the function raises, and so does
    [vectorise]. *)
Definition demo_cfg_openai : Config := {|
  files := demo_files;
  recursive := false;
  project_root := "/p";
  force := false;
  pipe := true;
  chunk_size := 5;
  overlap_ratio := 0%Q;
  embedding_function := "OpenAIEmbeddingFunction";
  embedding_params := ∅ |}.

Lemma constructor_failure_precedes_the_remote_call_witness :
  make_or_get_collection (env := demo_env) demo_cfg_openai demo_w1
  = (inl ValueError, demo_w1)
  ∧ vectorise (env := demo_env) demo_cfg_openai [] demo_w1
    = (inl ValueError, demo_w1).
Proof.
  apply (constructor_failure_precedes_the_remote_call (env := demo_env)
           demo_cfg_openai [] demo_w1 ValueError).
  - reflexivity.
  - reflexivity.
  - discriminate.
Defined.

(** *** Listing *)

(** A server with a collection of this user, one without metadata and
    one whose metadata has no user name; [USERNAME] is unset. *)
Definition demo_environ : gmap string string :=
  {[ "USER" := "me"; "HOME" := "/home/me" ]}.

Definition demo_meta (project_root : metaval) : gmap string metaval :=
  {[ "path" := project_root;
     "hostname" := MStr "host";
     "created-by" := MStr "VectorCode";
     "username" := MStr "me";
     "embedding_function" := MStr "SentenceTransformerEmbeddingFunction" ]}.

Definition demo_mine : collection :=
  Collection "c1" (Some (demo_meta (MStr "/home/me/p")))
    [Some {[ "path" := MStr "/home/me/p/a.txt" ]};
     Some {[ "path" := MStr "/home/me/p/a.txt" ]};
     None].

Definition demo_nameless : collection :=
  Collection "c3" (Some (delete "username" (demo_meta (MStr "/srv/q"))))
    [Some ∅].

Definition demo_server : list collection :=
  [demo_mine; Collection "c2" None []; demo_nameless].

Definition demo_table_cfg : Config := {|
  files := [];
  recursive := false;
  project_root := "/p";
  force := false;
  pipe := false;
  chunk_size := 5;
  overlap_ratio := 0%Q;
  embedding_function := "SentenceTransformerEmbeddingFunction";
  embedding_params := ∅ |}.

Definition demo_listing : list entry :=
  match (ls (env := demo_env) demo_cfg demo_environ demo_server).2 with
  | [PrintJson result] => result
  | _ => []
  end.

Definition demo_table : list row :=
  match (ls (env := demo_env) demo_table_cfg demo_environ demo_server).2 with
  | [PrintTable table] => table
  | _ => []
  end.

Example demo_ls :
  demo_listing
  = [Entry (MStr "/home/me/p") (Some (MStr "me")) "host" "c1" 3
       (MStr "SentenceTransformerEmbeddingFunction") 1;
     Entry (MStr "/srv/q") None "host" "c3" 1
       (MStr "SentenceTransformerEmbeddingFunction") 1]
  ∧ demo_table
    = [Row_ (MStr "~/p") 3 1 (MStr "SentenceTransformerEmbeddingFunction");
       Row_ (MStr "/srv/q") 1 1 (MStr "SentenceTransformerEmbeddingFunction")].
Proof. vm_compute. done. Qed.

Lemma ls_json_lists_the_visible_collections_witness :
  Forall2 (describes (env := demo_env))
    (filter (visible (env := demo_env) demo_environ) demo_server)
    demo_listing.
Proof.
  apply (ls_json_lists_the_visible_collections (env := demo_env)
           demo_cfg demo_environ demo_server demo_listing).
  - reflexivity.
  - vm_compute. repeat constructor; set_solver.
  - vm_compute. reflexivity.
Defined.

(** One more collection of this user, without a project root. *)
Definition demo_rootless : collection :=
  Collection "c4" (Some (delete "path" (demo_meta (MStr "/home/me/r")))) [].

Lemma ls_raises_on_incomplete_metadata_witness :
  ∃ c key,
    c ∈ demo_server ++ [demo_rootless]
    ∧ visible (env := demo_env) demo_environ c ∧ lacks c key.
Proof.
  apply (ls_raises_on_incomplete_metadata (env := demo_env)
           demo_cfg demo_environ (demo_server ++ [demo_rootless])).
  - vm_compute. repeat constructor; set_solver.
  - exists "path". vm_compute. reflexivity.
Defined.

Lemma ls_lists_nameless_collections_when_a_variable_is_unset_witness :
  ∃ e, e ∈ demo_listing ∧ e_user e = None.
Proof.
  apply (ls_lists_nameless_collections_when_a_variable_is_unset
           (env := demo_env) demo_cfg demo_environ demo_server demo_listing).
  - reflexivity.
  - vm_compute. repeat constructor; set_solver.
  - vm_compute. reflexivity.
  - split; [right; vm_compute; reflexivity|].
    exists demo_nameless,
      (delete "username" (demo_meta (MStr "/srv/q"))).
    split; [set_solver|]. repeat split; vm_compute; reflexivity.
Defined.

Lemma ls_reports_no_more_files_than_records_witness :
  Forall (λ c, 0 ≤ c.1 ≤ c.2) (counts (PrintTable demo_table)).
Proof.
  apply (ls_reports_no_more_files_than_records (env := demo_env)
           demo_table_cfg demo_environ demo_server (inr 0)
           [PrintTable demo_table]).
  - vm_compute. reflexivity.
  - by left.
Defined.

(** A collection of this user whose project root is a number. *)
Definition demo_numbered : collection :=
  Collection "c5" (Some (demo_meta (MInt 7))) [].

Lemma ls_table_needs_string_roots_witness :
  pipe demo_table_cfg = false
  ∧ (∃ home, demo_environ !! "HOME" = Some home ∧ home ≠ EmptyString)
  ∧ (∀ c key, c ∈ [demo_numbered] →
              visible (env := demo_env) demo_environ c → ¬ lacks c key)
  ∧ ∃ c meta project_root,
      c ∈ [demo_numbered] ∧ visible (env := demo_env) demo_environ c
      ∧ c_metadata c = Some meta
      ∧ meta !! "path" = Some project_root
      ∧ is_str project_root = false.
Proof.
  apply (ls_table_needs_string_roots (env := demo_env)
           demo_table_cfg demo_environ [demo_numbered]).
  - vm_compute. repeat constructor; set_solver.
  - vm_compute. reflexivity.
Defined.

Lemma ls_table_abbreviates_home_witness :
  Forall2
    (λ c r,
       ∃ meta s ef,
         c_metadata c = Some meta
         ∧ meta !! "path" = Some (MStr s)
         ∧ meta !! "embedding_function" = Some ef
         ∧ r = Row_ (MStr (py_replace s "/home/me" "~"))
                 (Z.of_nat (length (c_metadatas c)))
                 (Z.of_nat (size (unique_files (c_metadatas c)))) ef
         ∧ (∀ rest, s = "/home/me" +:+ rest →
                    py_replace s "/home/me" "~"
                    = "~" +:+ py_replace rest "/home/me" "~")
         ∧ ((∀ a b, s ≠ a +:+ "/home/me" +:+ b) →
            py_replace s "/home/me" "~" = s))
    (filter (visible (env := demo_env) demo_environ) demo_server) demo_table.
Proof.
  apply (ls_table_abbreviates_home (env := demo_env)
           demo_table_cfg demo_environ demo_server "/home/me" demo_table).
  - reflexivity.
  - vm_compute. repeat constructor; set_solver.
  - vm_compute. reflexivity.
  - discriminate.
  - vm_compute. reflexivity.
Defined.

(** The first [vectorise] of the small project, then [ls]: six
    records, two files. *)
Lemma ls_after_first_vectorise_witness :
  ∃ w',
    vectorise (env := demo_env) demo_cfg [] demo_w0 = (inr 0, w')
    ∧ ls (env := demo_env) demo_cfg demo_environ
        (server_of "c" w')
      = (inr 0,
         [PrintJson
            [Entry (MStr "/p") (Some (MStr "me")) "host" "c" 6
               (MStr "SentenceTransformerEmbeddingFunction") 2]]).
Proof.
  destruct (ls_after_first_vectorise (env := demo_env)
              demo_cfg [] demo_cfg demo_environ "c" demo_files demo_w0)
    as (w' & Hrun & Hls).
  - intros _ e He. vm_compute in He. discriminate.
  - reflexivity.
  - simpl. lia.
  - reflexivity.
  - reflexivity.
  - intros w0. reflexivity.
  - apply Forall_forall. repeat constructor.
  - apply Forall_forall. repeat constructor; by eexists.
  - vm_compute. repeat constructor; set_solver.
  - constructor.
  - vm_compute. reflexivity.
  - reflexivity.
  - exists w'. split; [exact Hrun|]. etrans; [exact Hls|].
    vm_compute. reflexivity.
Defined.
